(** * Lowering pipeline of the aergo contract compiler (contract/native)

    A shallow embedding of the type table ([enum.c]), the function
    modifiers ([ast_func.h]), the statement lowering pass
    ([trans_stmt.c]) and the statement emitter ([gen_stmt.c]), together
    with the properties the design document states about them. *)

From Stdlib Require Import ZArith List String Bool Lia Arith Sorted.
Import ListNotations.
Open Scope Z_scope.

(* ================================================================== *)
(** * Type table ([enum.c]) *)
(* ================================================================== *)

Module TypeTable.

(** The tags, in the order of the table comments of [type_sizes_]. *)
Inductive type_t :=
| TYPE_NONE | TYPE_BOOL | TYPE_BYTE | TYPE_INT8 | TYPE_INT16 | TYPE_INT32
| TYPE_INT64 | TYPE_INT128 | TYPE_INT256 | TYPE_FLOAT | TYPE_DOUBLE
| TYPE_STRING | TYPE_ACCOUNT | TYPE_STRUCT | TYPE_MAP | TYPE_OBJECT
| TYPE_CURSOR | TYPE_VOID | TYPE_TUPLE.

(** The integer value of a tag, used as the array index. *)
Definition type_index (t : type_t) : nat :=
  match t with
  | TYPE_NONE => 0 | TYPE_BOOL => 1 | TYPE_BYTE => 2 | TYPE_INT8 => 3
  | TYPE_INT16 => 4 | TYPE_INT32 => 5 | TYPE_INT64 => 6 | TYPE_INT128 => 7
  | TYPE_INT256 => 8 | TYPE_FLOAT => 9 | TYPE_DOUBLE => 10
  | TYPE_STRING => 11 | TYPE_ACCOUNT => 12 | TYPE_STRUCT => 13
  | TYPE_MAP => 14 | TYPE_OBJECT => 15 | TYPE_CURSOR => 16
  | TYPE_VOID => 17 | TYPE_TUPLE => 18
  end%nat.

Definition TYPE_MAX : nat := 19.

Definition all_types : list type_t :=
  [TYPE_NONE; TYPE_BOOL; TYPE_BYTE; TYPE_INT8; TYPE_INT16; TYPE_INT32;
   TYPE_INT64; TYPE_INT128; TYPE_INT256; TYPE_FLOAT; TYPE_DOUBLE;
   TYPE_STRING; TYPE_ACCOUNT; TYPE_STRUCT; TYPE_MAP; TYPE_OBJECT;
   TYPE_CURSOR; TYPE_VOID; TYPE_TUPLE].

Definition type_names_ : list string :=
  ["undefined"; "bool"; "byte"; "int8"; "int16"; "int32"; "int64";
   "int128"; "int256"; "float"; "double"; "string"; "account"; "struct";
   "map"; "object"; "cursor"; "void"; "tuple"]%string.

Definition I32 : Z := 4.
Definition I64 : Z := 8.
Definition F32 : Z := 4.
Definition F64 : Z := 8.
Definition ADDR : Z := 4.

Definition type_sizes_ : list Z :=
  [ 0        (* TYPE_NONE *)
  ; I32      (* TYPE_BOOL *)
  ; I32      (* TYPE_BYTE *)
  ; I32      (* TYPE_INT8 *)
  ; I32      (* TYPE_INT16 *)
  ; I32      (* TYPE_INT32 *)
  ; I64      (* TYPE_INT64 *)
  ; ADDR     (* TYPE_INT128 *)
  ; ADDR     (* TYPE_INT256 *)
  ; F32      (* TYPE_FLOAT *)
  ; F64      (* TYPE_DOUBLE *)
  ; ADDR     (* TYPE_STRING *)
  ; ADDR     (* TYPE_ACCOUNT *)
  ; ADDR     (* TYPE_STRUCT *)
  ; I64      (* TYPE_MAP *)
  ; ADDR     (* TYPE_OBJECT *)
  ; ADDR     (* TYPE_CURSOR *)
  ; 0        (* TYPE_VOID *)
  ; ADDR     (* TYPE_TUPLE *) ].

(** [sizeof] of the C types named in [type_bytes_]; the fixed-width
    integer types have their width by definition, [bool] is one byte and
    [float]/[double] are the IEEE single and double formats. *)
Definition sizeof_bool : Z := 1.
Definition sizeof_uint8_t : Z := 1.
Definition sizeof_int8_t : Z := 1.
Definition sizeof_int16_t : Z := 2.
Definition sizeof_int32_t : Z := 4.
Definition sizeof_int64_t : Z := 8.
Definition sizeof_uint32_t : Z := 4.
Definition sizeof_float : Z := 4.
Definition sizeof_double : Z := 8.

Definition type_bytes_ : list Z :=
  [ 0                 (* TYPE_NONE *)
  ; sizeof_bool
  ; sizeof_uint8_t
  ; sizeof_int8_t
  ; sizeof_int16_t
  ; sizeof_int32_t
  ; sizeof_int64_t
  ; sizeof_uint32_t
  ; sizeof_uint32_t
  ; sizeof_float
  ; sizeof_double
  ; sizeof_int32_t    (* TYPE_STRING *)
  ; sizeof_int32_t    (* TYPE_ACCOUNT *)
  ; sizeof_int32_t    (* TYPE_STRUCT *)
  ; sizeof_int32_t    (* TYPE_MAP *)
  ; sizeof_int32_t    (* TYPE_OBJECT *)
  ; sizeof_int32_t    (* TYPE_CURSOR *)
  ; 0                 (* TYPE_VOID *)
  ; 0                 (* TYPE_TUPLE *) ].

(** The three lookups index the arrays by the tag; [None] is an index
    outside the array. *)
Definition TYPE_NAME (t : type_t) : option string :=
  nth_error type_names_ (type_index t).
Definition TYPE_SIZE (t : type_t) : option Z :=
  nth_error type_sizes_ (type_index t).
Definition TYPE_BYTES (t : type_t) : option Z :=
  nth_error type_bytes_ (type_index t).

(** The linear-memory width table of the design document (section 6.3),
    written from its rows. *)
Definition linear_memory_width (t : type_t) : Z :=
  match t with
  | TYPE_BOOL | TYPE_BYTE | TYPE_INT8 | TYPE_INT16 | TYPE_INT32 => 4
  | TYPE_INT64 | TYPE_MAP => 8
  | TYPE_FLOAT => 4
  | TYPE_DOUBLE => 8
  | TYPE_INT128 | TYPE_INT256 | TYPE_STRING | TYPE_ACCOUNT | TYPE_STRUCT
  | TYPE_OBJECT | TYPE_CURSOR | TYPE_TUPLE => 4
  | TYPE_VOID | TYPE_NONE => 0
  end.

End TypeTable.

(* ================================================================== *)
(** * Function modifiers ([ast_func.h]) *)
(* ================================================================== *)

Module Modifier.

Inductive modifier_e :=
| MOD_GLOBAL | MOD_LOCAL | MOD_SHARED | MOD_TRANSFER | MOD_READONLY.

(** The enumerator values of [modifier_t]. *)
Definition mod_value (m : modifier_e) : Z :=
  match m with
  | MOD_GLOBAL => 0x00
  | MOD_LOCAL => 0x01
  | MOD_SHARED => 0x02
  | MOD_TRANSFER => 0x04
  | MOD_READONLY => 0x08
  end.

Definition modifier_eqb (a b : modifier_e) : bool :=
  match a, b with
  | MOD_GLOBAL, MOD_GLOBAL | MOD_LOCAL, MOD_LOCAL | MOD_SHARED, MOD_SHARED
  | MOD_TRANSFER, MOD_TRANSFER | MOD_READONLY, MOD_READONLY => true
  | _, _ => false
  end.

(** A [modifier_t] value holding a set of modifiers: the bitwise OR of
    the enumerators. *)
Definition mod_of (ms : list modifier_e) : Z :=
  fold_right (fun m acc => Z.lor (mod_value m) acc) 0 ms.

(** Testing a modifier value against one enumerator's mask. *)
Definition mod_test (v : Z) (m : modifier_e) : bool :=
  negb (Z.land v (mod_value m) =? 0).

Definition mem_mod (m : modifier_e) (ms : list modifier_e) : bool :=
  existsb (modifier_eqb m) ms.

(** The modifiers other than [MOD_GLOBAL]. *)
Definition flag (m : modifier_e) : Prop := m <> MOD_GLOBAL.

End Modifier.

(* ================================================================== *)
(** * The typed AST as the lowering pass reads it *)
(* ================================================================== *)

Module Ast.
Export TypeTable.

(** Basic blocks and expressions are heap objects that the pass shares
    through pointers; a pointer is an address in the matching arena. *)
Definition bb_ptr := nat.
Definition exp_ptr := nat.

(** A source position: line and column. *)
Definition errpos_t := (nat * nat)%type.

(** Identifier and expression metadata: the type tag, the element count
    of a tuple and the array dimension. *)
Record meta_t := mk_meta {
  meta_type : type_t;
  elem_cnt : nat;
  arr_dim : nat
}.

Definition is_tuple_type (m : meta_t) : bool :=
  match meta_type m with TYPE_TUPLE => true | _ => false end.
Definition is_map_meta (m : meta_t) : bool :=
  match meta_type m with TYPE_MAP => true | _ => false end.
Definition is_array_meta (m : meta_t) : bool := (0 <? arr_dim m)%nat.

Record ast_id_t := mk_id {
  id_name : string;
  id_meta : meta_t;
  id_idx : Z;
  id_is_return : bool
}.

Definition is_return_id (i : ast_id_t) : bool := id_is_return i.

Inductive exp_kind_t :=
| EXP_NULL | EXP_LIT | EXP_ID | EXP_ARRAY | EXP_UNARY | EXP_BINARY
| EXP_ACCESS | EXP_CALL | EXP_TUPLE | EXP_GLOBAL | EXP_LOCAL | EXP_STACK.

(** An expression node.  The members of the C union that the two passes
    read ([u_tup], [u_glob], [u_local], [u_stk]) are separate fields. *)
Record ast_exp_t := mk_exp {
  exp_kind : exp_kind_t;
  exp_id : option ast_id_t;
  exp_meta : meta_t;
  u_tup_exps : list exp_ptr;
  u_glob_name : option string;
  u_local_idx : Z;
  u_stk_base : Z;
  u_stk_addr : Z;
  u_stk_offset : Z;
  u_stk_type : type_t
}.

Definition is_tuple_exp (e : ast_exp_t) : bool :=
  match exp_kind e with EXP_TUPLE => true | _ => false end.
Definition is_call_exp (e : ast_exp_t) : bool :=
  match exp_kind e with EXP_CALL => true | _ => false end.
Definition is_global_exp (e : ast_exp_t) : bool :=
  match exp_kind e with EXP_GLOBAL => true | _ => false end.
Definition is_local_exp (e : ast_exp_t) : bool :=
  match exp_kind e with EXP_LOCAL => true | _ => false end.
Definition is_stack_exp (e : ast_exp_t) : bool :=
  match exp_kind e with EXP_STACK => true | _ => false end.

Inductive loop_kind_t := LOOP_FOR | LOOP_ARRAY.

(** What every statement node carries: its position and the basic block
    the resolver attached to it when it is labelled. *)
Record stmt_hd := mk_hd {
  pos : errpos_t;
  label_bb : option bb_ptr
}.

(** Statements.  A block is the list of its statements; a pointer that
    may be NULL is an [option].  [STMT_GOTO] carries
    [jump_id->u_lab.stmt->label_bb], the block of the statement its
    label names. *)
#[local] Unset Elimination Schemes.
Inductive ast_stmt_t :=
| STMT_NULL (hd : stmt_hd)
| STMT_EXP (hd : stmt_hd) (exp : exp_ptr)
| STMT_ASSIGN (hd : stmt_hd) (l_exp r_exp : exp_ptr)
| STMT_IF (hd : stmt_hd) (cond_exp : exp_ptr)
          (if_blk : option (list ast_stmt_t))
          (elif_stmts : list ast_stmt_t)
          (else_blk : option (list ast_stmt_t))
| STMT_LOOP (hd : stmt_hd) (kind : loop_kind_t)
            (init_stmt : option ast_stmt_t) (blk : list ast_stmt_t)
| STMT_SWITCH (hd : stmt_hd) (blk : list ast_stmt_t) (has_dflt : bool)
| STMT_CASE (hd : stmt_hd) (val_exp : option exp_ptr)
            (stmts : list ast_stmt_t)
| STMT_RETURN (hd : stmt_hd) (arg_exp : option exp_ptr)
| STMT_CONTINUE (hd : stmt_hd)
| STMT_BREAK (hd : stmt_hd) (cond_exp : option exp_ptr)
| STMT_GOTO (hd : stmt_hd) (jump_label_bb : option bb_ptr)
| STMT_DDL (hd : stmt_hd)
| STMT_BLK (hd : stmt_hd) (blk : option (list ast_stmt_t)).
#[local] Set Elimination Schemes.

Definition stmt_head (s : ast_stmt_t) : stmt_hd :=
  match s with
  | STMT_NULL hd | STMT_EXP hd _ | STMT_ASSIGN hd _ _ | STMT_IF hd _ _ _ _
  | STMT_LOOP hd _ _ _ | STMT_SWITCH hd _ _ | STMT_CASE hd _ _
  | STMT_RETURN hd _ | STMT_CONTINUE hd | STMT_BREAK hd _ | STMT_GOTO hd _
  | STMT_DDL hd | STMT_BLK hd _ => hd
  end.

Definition stmt_pos (s : ast_stmt_t) : errpos_t := pos (stmt_head s).
Definition stmt_label_bb (s : ast_stmt_t) : option bb_ptr :=
  label_bb (stmt_head s).

(** [stmt_new_assign]: a fresh, unlabelled assignment statement. *)
Definition stmt_new_assign (l_exp r_exp : exp_ptr) (p : errpos_t)
  : ast_stmt_t :=
  STMT_ASSIGN (mk_hd p None) l_exp r_exp.

(** Statement kinds that only exist before lowering. *)
Definition is_structured (s : ast_stmt_t) : bool :=
  match s with
  | STMT_IF _ _ _ _ _ | STMT_LOOP _ _ _ _ | STMT_SWITCH _ _ _
  | STMT_CASE _ _ _ | STMT_BREAK _ _ | STMT_CONTINUE _ | STMT_GOTO _ _
  | STMT_BLK _ _ => true
  | _ => false
  end.

(** The statement kinds that the emitter accepts: the cases of the
    switch of [stmt_gen] other than the default. *)
Definition is_emittable (s : ast_stmt_t) : bool :=
  match s with
  | STMT_EXP _ _ | STMT_ASSIGN _ _ _ | STMT_RETURN _ _ | STMT_DDL _ => true
  | _ => false
  end.

(** Induction over statements that reaches the statements nested in
    blocks, under the [else if]s of an if statement and under the cases
    of a switch block. *)
Section stmt_induction.
Variable P : ast_stmt_t -> Prop.
Definition PB (b : option (list ast_stmt_t)) : Prop :=
  match b with Some l => Forall P l | None => True end.
Definition under_if (e : ast_stmt_t) : Prop :=
  match e with
  | STMT_IF _ _ ib _ _ => PB ib
  | _ => True
  end.
Definition under_case (e : ast_stmt_t) : Prop :=
  match e with
  | STMT_CASE _ _ ss => Forall P ss
  | _ => True
  end.
Hypothesis H_null : forall hd, P (STMT_NULL hd).
Hypothesis H_exp : forall hd e, P (STMT_EXP hd e).
Hypothesis H_assign : forall hd l r, P (STMT_ASSIGN hd l r).
Hypothesis H_if : forall hd c ib el eb,
    PB ib -> Forall under_if el -> PB eb -> P (STMT_IF hd c ib el eb).
Hypothesis H_loop : forall hd k i b,
    match i with Some s => P s | None => True end ->
    Forall P b -> P (STMT_LOOP hd k i b).
Hypothesis H_switch : forall hd b d,
    Forall under_case b -> P (STMT_SWITCH hd b d).
Hypothesis H_case : forall hd v ss, P (STMT_CASE hd v ss).
Hypothesis H_return : forall hd a, P (STMT_RETURN hd a).
Hypothesis H_continue : forall hd, P (STMT_CONTINUE hd).
Hypothesis H_break : forall hd c, P (STMT_BREAK hd c).
Hypothesis H_goto : forall hd j, P (STMT_GOTO hd j).
Hypothesis H_ddl : forall hd, P (STMT_DDL hd).
Hypothesis H_blk : forall hd b, PB b -> P (STMT_BLK hd b).

Fixpoint ast_stmt_ind' (s : ast_stmt_t) : P s :=
  let all := fix all (l : list ast_stmt_t) : Forall P l :=
    match l with
    | [] => Forall_nil P
    | x :: r => Forall_cons x (ast_stmt_ind' x) (all r)
    end in
  let allo := fun (b : option (list ast_stmt_t)) =>
    match b return PB b with Some l => all l | None => I end in
  let alli := fix alli (l : list ast_stmt_t) : Forall under_if l :=
    match l with
    | [] => Forall_nil under_if
    | x :: r =>
        Forall_cons x
          (match x return under_if x with
           | STMT_IF _ _ ib _ _ => allo ib
           | _ => I
           end)
          (alli r)
    end in
  let allc := fix allc (l : list ast_stmt_t) : Forall under_case l :=
    match l with
    | [] => Forall_nil under_case
    | x :: r =>
        Forall_cons x
          (match x return under_case x with
           | STMT_CASE _ _ ss => all ss
           | _ => I
           end)
          (allc r)
    end in
  match s with
  | STMT_NULL hd => H_null hd
  | STMT_EXP hd e => H_exp hd e
  | STMT_ASSIGN hd l r => H_assign hd l r
  | STMT_IF hd c ib el eb =>
      H_if hd c ib el eb (allo ib) (alli el) (allo eb)
  | STMT_LOOP hd k i b =>
      H_loop hd k i b
        (match i return match i with Some s => P s | None => True end with
         | Some s0 => ast_stmt_ind' s0 | None => I end)
        (all b)
  | STMT_SWITCH hd b d => H_switch hd b d (allc b)
  | STMT_CASE hd v ss => H_case hd v ss
  | STMT_RETURN hd a => H_return hd a
  | STMT_CONTINUE hd => H_continue hd
  | STMT_BREAK hd c => H_break hd c
  | STMT_GOTO hd j => H_goto hd j
  | STMT_DDL hd => H_ddl hd
  | STMT_BLK hd b => H_blk hd b (allo b)
  end.
End stmt_induction.

End Ast.

(* ================================================================== *)
(** * The IR under construction ([ir_fn.h]) and the lowering context *)
(* ================================================================== *)

Module Ir.
Export Ast.

(** A branch: an optional guard and the target block. *)
Record ir_br_t := mk_br {
  br_cond_exp : option exp_ptr;
  br_bb : bb_ptr
}.

(** A basic block: statements, outgoing branches and the piggyback
    statements that expression lowering left on it. *)
Record ir_bb_t := mk_bb {
  bb_stmts : list ast_stmt_t;
  bb_brs : list ir_br_t;
  bb_pgbacks : list ast_stmt_t
}.

Definition empty_bb : ir_bb_t := mk_bb [] [] [].

(** The fields of [struct ir_fn_s] that lowering reads or writes. *)
Record ir_fn_t := mk_fn {
  fn_types : list type_t;
  fn_bbs : list bb_ptr;
  entry_bb : bb_ptr;
  exit_bb : bb_ptr;
  heap_usage : Z;
  stack_usage : Z
}.

Inductive ec_t := NO_ERROR | ERROR_NOT_SUPPORTED.

(** The lowering context [trans_t] ([fn], [bb], [cont_bb], [break_bb],
    [is_lval]) together with the memory it works on: the arena of basic
    blocks with its allocation cursor, the arena of expression nodes and
    the list of reported user errors. *)
Record trans_t := mk_trans {
  fn : ir_fn_t;
  bb : option bb_ptr;
  cont_bb : option bb_ptr;
  break_bb : option bb_ptr;
  is_lval : bool;
  blocks : bb_ptr -> ir_bb_t;
  next_bb_id : nat;
  exps : exp_ptr -> ast_exp_t;
  errors : list (ec_t * errpos_t)
}.

Definition set_fn (v : ir_fn_t) (t : trans_t) : trans_t :=
  mk_trans v (bb t) (cont_bb t) (break_bb t) (is_lval t) (blocks t)
           (next_bb_id t) (exps t) (errors t).
Definition set_bb (v : option bb_ptr) (t : trans_t) : trans_t :=
  mk_trans (fn t) v (cont_bb t) (break_bb t) (is_lval t) (blocks t)
           (next_bb_id t) (exps t) (errors t).
Definition set_cont_bb (v : option bb_ptr) (t : trans_t) : trans_t :=
  mk_trans (fn t) (bb t) v (break_bb t) (is_lval t) (blocks t)
           (next_bb_id t) (exps t) (errors t).
Definition set_break_bb (v : option bb_ptr) (t : trans_t) : trans_t :=
  mk_trans (fn t) (bb t) (cont_bb t) v (is_lval t) (blocks t)
           (next_bb_id t) (exps t) (errors t).
Definition set_is_lval (v : bool) (t : trans_t) : trans_t :=
  mk_trans (fn t) (bb t) (cont_bb t) (break_bb t) v (blocks t)
           (next_bb_id t) (exps t) (errors t).
Definition set_blocks (v : bb_ptr -> ir_bb_t) (t : trans_t) : trans_t :=
  mk_trans (fn t) (bb t) (cont_bb t) (break_bb t) (is_lval t) v
           (next_bb_id t) (exps t) (errors t).
Definition set_next_bb_id (v : nat) (t : trans_t) : trans_t :=
  mk_trans (fn t) (bb t) (cont_bb t) (break_bb t) (is_lval t) (blocks t)
           v (exps t) (errors t).
Definition set_exps (v : exp_ptr -> ast_exp_t) (t : trans_t) : trans_t :=
  mk_trans (fn t) (bb t) (cont_bb t) (break_bb t) (is_lval t) (blocks t)
           (next_bb_id t) v (errors t).
Definition set_errors (v : list (ec_t * errpos_t)) (t : trans_t) : trans_t :=
  mk_trans (fn t) (bb t) (cont_bb t) (break_bb t) (is_lval t) (blocks t)
           (next_bb_id t) (exps t) v.

(** Writing one cell of an arena. *)
Definition upd {A : Type} (m : nat -> A) (k : nat) (v : A) : nat -> A :=
  fun x => if Nat.eqb x k then v else m x.

(** How a compilation stops: the assertion that failed, or the NULL
    block pointer that was dereferenced. *)
Inductive fatal_t :=
| ASSERT_tuple_rhs        (* ASSERT1(is_tuple_exp(r_exp), ...) *)
| ASSERT_meta_cmp         (* ASSERT(meta_cmp(...) == 0) *)
| ASSERT_tuple_arity      (* ASSERT2(size(var_exps) > size(val_exps)) *)
| ASSERT_array_index      (* array_get beyond the array *)
| ASSERT_cont_bb          (* ASSERT(trans->cont_bb != NULL) *)
| ASSERT_break_bb         (* ASSERT(trans->break_bb != NULL) *)
| ASSERT_label_bb         (* ASSERT(... ->label_bb != NULL) *)
| ASSERT_invalid_stmt     (* a statement of an unexpected kind *)
| ASSERT_br_target        (* a branch to a NULL target *)
| ASSERT_gen_lvalue       (* an assertion of stmt_gen_assign on its lvalue *)
| FATAL_null_bb.          (* a NULL basic block is written to *)

Inductive result (A : Type) :=
| Ok (a : A)
| Fatal (f : fatal_t).
Arguments Ok {A} a.
Arguments Fatal {A} f.

Definition bind {A B : Type} (m : result A) (k : A -> result B) : result B :=
  match m with
  | Ok a => k a
  | Fatal f => Fatal f
  end.

Declare Scope trans_scope.
Delimit Scope trans_scope with trans.
Notation "'do' x <- m ; k" := (bind m (fun x => k))
  (at level 10, x name, m at level 100, k at level 200) : trans_scope.
Open Scope trans_scope.

(** ** Basic-block and function builders *)

(** Modelled from the spec: [ir_bb.c] and [ir_fn.c] are not part of the
    sources at hand; the builders follow sections 4.C and 4.D of the
    design document.  [bb_new] returns a block with a fresh id,
    [bb_add_stmt] appends a statement, [bb_add_branch] appends a branch
    (a branch to a NULL target is an invariant violation, section 7) and
    [fn_add_basic_blk] appends a block unless it is already there. *)
Definition bb_new (t : trans_t) : bb_ptr * trans_t :=
  let b := next_bb_id t in
  (b, set_next_bb_id (S b) (set_blocks (upd (blocks t) b empty_bb) t)).

(** Modelled from the spec: [bb_add_stmt] of [ir_bb.c] appends the
    statement to the block (section 4.C); the block pointer is
    dereferenced, so a NULL block stops the compilation. *)
Definition bb_add_stmt (b : option bb_ptr) (s : ast_stmt_t) (t : trans_t)
  : result trans_t :=
  match b with
  | None => Fatal FATAL_null_bb
  | Some p =>
      let blk := blocks t p in
      Ok (set_blocks
            (upd (blocks t) p
                 (mk_bb (bb_stmts blk ++ [s]) (bb_brs blk) (bb_pgbacks blk)))
            t)
  end.

(** Modelled from the spec: [bb_add_branch] of [ir_bb.c] appends the
    branch to the block (section 4.C); a NULL target is an invariant
    violation (section 7). *)
Definition bb_add_branch (b : option bb_ptr) (cond_exp : option exp_ptr)
           (br : option bb_ptr) (t : trans_t) : result trans_t :=
  match b, br with
  | None, _ => Fatal FATAL_null_bb
  | Some _, None => Fatal ASSERT_br_target
  | Some p, Some target =>
      let blk := blocks t p in
      Ok (set_blocks
            (upd (blocks t) p
                 (mk_bb (bb_stmts blk) (bb_brs blk ++ [mk_br cond_exp target])
                        (bb_pgbacks blk)))
            t)
  end.

Definition has_piggyback (blk : ir_bb_t) : bool :=
  match bb_pgbacks blk with [] => false | _ => true end.

Definition mem_bb (p : bb_ptr) (l : list bb_ptr) : bool :=
  existsb (Nat.eqb p) l.

(** Modelled from the spec: [fn_add_basic_blk] of [ir_fn.c] appends the
    block to the blocks of the function unless it is already one of them
    (section 4.D). *)
Definition fn_add_basic_blk (b : option bb_ptr) (t : trans_t)
  : result trans_t :=
  match b with
  | None => Fatal FATAL_null_bb
  | Some p =>
      let f := fn t in
      if mem_bb p (fn_bbs f) then Ok t
      else Ok (set_fn (mk_fn (fn_types f) (fn_bbs f ++ [p]) (entry_bb f)
                             (exit_bb f) (heap_usage f) (stack_usage f)) t)
  end.

(** Modelled from the spec: the macro [ERROR(ec, pos)] is not part of
    the sources at hand; by section 7 a user error is handed to the
    diagnostics layer as an (error-kind, source-position) pair: the error
    is recorded and compilation goes on. *)
Definition ERROR (ec : ec_t) (p : errpos_t) (t : trans_t) : trans_t :=
  set_errors (errors t ++ [(ec, p)]) t.

(** [array_get_exp]: the element at an index; an index beyond the array
    stops the compilation. *)
Definition array_get_exp (a : list exp_ptr) (i : nat) : result exp_ptr :=
  match nth_error a i with
  | Some e => Ok e
  | None => Fatal ASSERT_array_index
  end.

(** ** Expression lowering, an external collaborator *)

(** Modelled from the spec: [trans_exp.c] and [meta.c] are not part of
    the sources at hand.  By sections 3.4, 4.F.2 and 9 of the design
    document, lowering an expression rewrites expression nodes in place,
    allocates registers and heap or stack slots of the function, leaves
    piggyback statements on the current block and uses the [is_lval]
    flag; it does not touch the control flow.  [exp_ctx_t] is the part
    of the context it works on. *)
Record exp_ctx_t := mk_ctx {
  cx_exps : exp_ptr -> ast_exp_t;
  cx_is_lval : bool;
  cx_pgbacks : list ast_stmt_t;
  cx_types : list type_t;
  cx_heap_usage : Z;
  cx_stack_usage : Z
}.

(** The entry points of expression lowering and the comparison of
    metadata, taken as parameters. *)
Class TransExp := {
  meta_cmp : meta_t -> meta_t -> Z;
  exp_trans : exp_ctx_t -> exp_ptr -> exp_ctx_t;
  exp_trans_to_lval : exp_ctx_t -> exp_ptr -> exp_ctx_t;
  exp_trans_to_rval : exp_ctx_t -> exp_ptr -> exp_ctx_t
}.

Definition cur_pgbacks (t : trans_t) : list ast_stmt_t :=
  match bb t with
  | Some p => bb_pgbacks (blocks t p)
  | None => []
  end.

Definition ctx_of (t : trans_t) : exp_ctx_t :=
  mk_ctx (exps t) (is_lval t) (cur_pgbacks t) (fn_types (fn t))
         (heap_usage (fn t)) (stack_usage (fn t)).

Definition ctx_put (cx : exp_ctx_t) (t : trans_t) : trans_t :=
  let f := fn t in
  let t1 := set_fn (mk_fn (cx_types cx) (fn_bbs f) (entry_bb f) (exit_bb f)
                          (cx_heap_usage cx) (cx_stack_usage cx)) t in
  let t2 := set_is_lval (cx_is_lval cx) (set_exps (cx_exps cx) t1) in
  match bb t with
  | Some p =>
      let blk := blocks t p in
      set_blocks (upd (blocks t) p
                      (mk_bb (bb_stmts blk) (bb_brs blk) (cx_pgbacks cx))) t2
  | None => t2
  end.

(** Running one of the three lowering entry points on the context. *)
Definition lower (f : exp_ctx_t -> exp_ptr -> exp_ctx_t) (e : exp_ptr)
           (t : trans_t) : trans_t :=
  ctx_put (f (ctx_of t) e) t.

End Ir.

(* ================================================================== *)
(** * Statement lowering ([trans_stmt.c]) *)
(* ================================================================== *)

Module Trans.
Export Ir.

Section lowering.
Context {TE : TransExp}.

(** A counted loop [for (i = 0; i < n; i++) body] over a loop state. *)
Fixpoint for_range {S : Type} (i n : nat)
         (body : nat -> S -> result S) (s : S) : result S :=
  match n with
  | O => Ok s
  | Datatypes.S k => do s1 <- body i s; for_range (Datatypes.S i) k body s1
  end.

Definition ASSERT (c : bool) (f : fatal_t) (t : trans_t) : result trans_t :=
  if c then Ok t else Fatal f.

Definition stmt_trans_exp (stmt : ast_stmt_t) (exp : exp_ptr) (t : trans_t)
  : result trans_t :=
  let t := lower exp_trans_to_lval exp t in
  let t := set_is_lval false t in
  if is_call_exp (exps t exp) then bb_add_stmt (bb t) stmt t
  else
    match bb t with
    | None => Fatal FATAL_null_bb
    | Some p =>
        let blk := blocks t p in
        if has_piggyback blk then
          (* every piggyback is appended in order, then the list is reset *)
          Ok (set_blocks
                (upd (blocks t) p
                     (mk_bb (bb_stmts blk ++ bb_pgbacks blk) (bb_brs blk) []))
                t)
        else Ok t
    end.

(** The body of the loop over [val_exps] when both tuples have the same
    number of elements. *)
Definition assign_pairwise (p : errpos_t) (var_exps val_exps : list exp_ptr)
           (i : nat) (t : trans_t) : result trans_t :=
  do var_exp <- array_get_exp var_exps i;
  do val_exp <- array_get_exp val_exps i;
  do t <- ASSERT (meta_cmp (exp_meta (exps t var_exp))
                           (exp_meta (exps t val_exp)) =? 0)
                 ASSERT_meta_cmp t;
  bb_add_stmt (bb t) (stmt_new_assign var_exp val_exp p) t.

(** The body of the inner loop over the elements of a tuple-typed value;
    the loop state is [var_idx] and the context. *)
Definition assign_flatten_elem (p : errpos_t) (var_exps : list exp_ptr)
           (val_exp : exp_ptr) (j : nat) (st : nat * trans_t)
  : result (nat * trans_t) :=
  let '(var_idx, t) := st in
  do var_exp <- array_get_exp var_exps var_idx;
  let var_idx := Datatypes.S var_idx in
  do elem_exp <- array_get_exp (u_tup_exps (exps t val_exp)) j;
  do t <- ASSERT (meta_cmp (exp_meta (exps t var_exp))
                           (exp_meta (exps t elem_exp)) =? 0)
                 ASSERT_meta_cmp t;
  do t <- bb_add_stmt (bb t) (stmt_new_assign var_exp elem_exp p) t;
  Ok (var_idx, t).

(** The body of the loop over [val_exps] when the left tuple is longer.
    In the branch for a value that is not a tuple, [var_idx] is advanced
    once for the element whose type is compared and once more for the
    element that is assigned. *)
Definition assign_flatten (p : errpos_t) (var_exps val_exps : list exp_ptr)
           (i : nat) (st : nat * trans_t) : result (nat * trans_t) :=
  let '(var_idx, t) := st in
  do val_exp <- array_get_exp val_exps i;
  let val_meta := exp_meta (exps t val_exp) in
  if is_tuple_type val_meta then
    for_range 0 (elem_cnt val_meta)
              (assign_flatten_elem p var_exps val_exp) (var_idx, t)
  else
    do var_exp <- array_get_exp var_exps var_idx;
    let var_idx := Datatypes.S var_idx in
    do t <- ASSERT (meta_cmp (exp_meta (exps t var_exp)) val_meta =? 0)
                   ASSERT_meta_cmp t;
    do var_exp2 <- array_get_exp var_exps var_idx;
    let var_idx := Datatypes.S var_idx in
    do t <- bb_add_stmt (bb t) (stmt_new_assign var_exp2 val_exp p) t;
    Ok (var_idx, t).

Definition stmt_trans_assign (stmt : ast_stmt_t) (l_exp r_exp : exp_ptr)
           (t : trans_t) : result trans_t :=
  let t := lower exp_trans_to_lval l_exp t in
  let t := lower exp_trans_to_rval r_exp t in
  if is_tuple_exp (exps t l_exp) then
    let var_exps := u_tup_exps (exps t l_exp) in
    let val_exps := u_tup_exps (exps t r_exp) in
    do t <- ASSERT (is_tuple_exp (exps t r_exp)) ASSERT_tuple_rhs t;
    if (List.length var_exps =? List.length val_exps)%nat then
      for_range 0 (List.length val_exps)
                (assign_pairwise (stmt_pos stmt) var_exps val_exps) t
    else
      do t <- ASSERT (List.length val_exps <? List.length var_exps)%nat
                     ASSERT_tuple_arity t;
      do st <- for_range 0 (List.length val_exps)
                 (assign_flatten (stmt_pos stmt) var_exps val_exps) (O, t);
      Ok (snd st)
  else
    bb_add_stmt (bb t) stmt t.

(** ** Handlers of the structured statements

    The handlers that lower nested statements take [stmt_trans] itself
    as [rec]. *)
Section handlers.
Variable rec : ast_stmt_t -> trans_t -> result trans_t.

(** [for (i = 0; i < array_size(stmts); i++) stmt_trans(trans, stmts[i])] *)
Definition stmts_trans_ : list ast_stmt_t -> trans_t -> result trans_t :=
  fix go (l : list ast_stmt_t) (t : trans_t) {struct l} : result trans_t :=
    match l with
    | [] => Ok t
    | s :: r => do t1 <- rec s t; go r t1
    end.

(** Modelled from the spec: [trans_blk.c] is not part of the sources at
    hand; by section 4.F.1 lowering a block recurses into the statements
    it contains, in order. *)
Definition blk_trans_ (blk : list ast_stmt_t) (t : trans_t)
  : result trans_t :=
  stmts_trans_ blk t.

(** One arm of an if statement: the same sequence is written out for the
    [if], for each [else if] (both with a condition) and for the [else]
    (without one).  A fresh block becomes current and the predecessor
    branches to it; the condition and the arm's block are lowered; the
    block then current branches to the join block and is added. *)
Definition if_arm_ (prev_bb : option bb_ptr) (next_bb : bb_ptr)
           (cond_exp : option exp_ptr) (blk : option (list ast_stmt_t))
           (t : trans_t) : result trans_t :=
  let '(b, t) := bb_new t in
  let t := set_bb (Some b) t in
  do t <- bb_add_branch prev_bb cond_exp (bb t) t;
  let t := match cond_exp with
           | Some c => lower exp_trans c t
           | None => t
           end in
  do t <- match blk with
          | Some l => blk_trans_ l t
          | None => Ok t
          end;
  do t <- bb_add_branch (bb t) None (Some next_bb) t;
  fn_add_basic_blk (bb t) t.

Definition elif_arms_ (prev_bb : option bb_ptr) (next_bb : bb_ptr)
  : list ast_stmt_t -> trans_t -> result trans_t :=
  fix go (l : list ast_stmt_t) (t : trans_t) {struct l} : result trans_t :=
    match l with
    | [] => Ok t
    | elif_stmt :: r =>
        match elif_stmt with
        | STMT_IF _ cond_exp if_blk _ _ =>
            do t1 <- if_arm_ prev_bb next_bb (Some cond_exp) if_blk t;
            go r t1
        | _ => Fatal ASSERT_invalid_stmt
        end
    end.

Definition stmt_trans_if_ (cond_exp : exp_ptr)
           (if_blk : option (list ast_stmt_t)) (elif_stmts : list ast_stmt_t)
           (else_blk : option (list ast_stmt_t)) (t : trans_t)
  : result trans_t :=
  let prev_bb := bb t in
  let '(next_bb, t) := bb_new t in
  do t <- fn_add_basic_blk prev_bb t;
  do t <- if_arm_ prev_bb next_bb (Some cond_exp) if_blk t;
  do t <- elif_arms_ prev_bb next_bb elif_stmts t;
  do t <- match else_blk with
          | Some l => if_arm_ prev_bb next_bb None (Some l) t
          | None => bb_add_branch prev_bb None (Some next_bb) t
          end;
  Ok (set_bb (Some next_bb) t).

Definition stmt_trans_for_loop_ (init_stmt : option ast_stmt_t)
           (blk : list ast_stmt_t) (t : trans_t) : result trans_t :=
  let prev_bb := bb t in
  let '(cond_bb, t) := bb_new t in
  let '(next_bb, t) := bb_new t in
  do t <- match init_stmt with
          | Some s => rec s t
          | None => Ok t
          end;
  do t <- bb_add_branch prev_bb None (Some cond_bb) t;
  do t <- fn_add_basic_blk prev_bb t;
  let t := set_bb (Some cond_bb) t in
  let t := set_cont_bb (Some cond_bb) t in
  let t := set_break_bb (Some next_bb) t in
  do t <- blk_trans_ blk t;
  let t := set_cont_bb None t in
  let t := set_break_bb None t in
  do t <- match bb t with
          | Some _ =>
              do t <- bb_add_branch (bb t) None (Some cond_bb) t;
              fn_add_basic_blk (bb t) t
          | None => bb_add_branch (Some cond_bb) None (Some cond_bb) t
          end;
  Ok (set_bb (Some next_bb) t).

Definition stmt_trans_array_loop (stmt : ast_stmt_t) (t : trans_t)
  : result trans_t :=
  Ok (ERROR ERROR_NOT_SUPPORTED (stmt_pos stmt) t).

Definition stmt_trans_loop_ (stmt : ast_stmt_t) (kind : loop_kind_t)
           (init_stmt : option ast_stmt_t) (blk : list ast_stmt_t)
           (t : trans_t) : result trans_t :=
  match kind with
  | LOOP_FOR => stmt_trans_for_loop_ init_stmt blk t
  | LOOP_ARRAY => stmt_trans_array_loop stmt t
  end.

(** The loop over the case statements of a switch block; [rest = []]
    is [i == array_size(&blk->stmts) - 1]. *)
Definition switch_cases_ (prev_bb : option bb_ptr) (next_bb : bb_ptr)
  : list ast_stmt_t -> trans_t -> result trans_t :=
  fix go (l : list ast_stmt_t) (t : trans_t) {struct l} : result trans_t :=
    match l with
    | [] => Ok t
    | case_stmt :: rest =>
        match case_stmt with
        | STMT_CASE _ val_exp stmts =>
            do t <- bb_add_branch prev_bb val_exp (bb t) t;
            let t := match val_exp with
                     | Some v => lower exp_trans v t
                     | None => t
                     end in
            do t <- stmts_trans_ stmts t;
            do t <- match bb t, rest with
                    | Some _, [] =>
                        do t <- bb_add_branch (bb t) None (Some next_bb) t;
                        fn_add_basic_blk (bb t) t
                    | Some _, _ :: _ =>
                        let '(case_bb, t) := bb_new t in
                        do t <- bb_add_branch (bb t) None (Some case_bb) t;
                        do t <- fn_add_basic_blk (bb t) t;
                        Ok (set_bb (Some case_bb) t)
                    | None, [] => Ok t
                    | None, _ :: _ =>
                        let '(b, t) := bb_new t in
                        Ok (set_bb (Some b) t)
                    end;
            go rest t
        | _ => Fatal ASSERT_invalid_stmt
        end
    end.

Definition stmt_trans_switch_ (blk : list ast_stmt_t) (has_dflt : bool)
           (t : trans_t) : result trans_t :=
  let prev_bb := bb t in
  let '(next_bb, t) := bb_new t in
  do t <- fn_add_basic_blk prev_bb t;
  let t := set_cont_bb None t in
  let t := set_break_bb (Some next_bb) t in
  let '(b, t) := bb_new t in
  let t := set_bb (Some b) t in
  do t <- switch_cases_ prev_bb next_bb blk t;
  do t <- (if has_dflt then Ok t
           else bb_add_branch prev_bb None (Some next_bb) t);
  let t := set_break_bb None t in
  Ok (set_bb (Some next_bb) t).

Definition stmt_trans_blk_ (blk : option (list ast_stmt_t)) (t : trans_t)
  : result trans_t :=
  match blk with
  | Some l => blk_trans_ l t
  | None => Ok t
  end.

End handlers.

Definition stmt_trans_return (stmt : ast_stmt_t) (arg_exp : option exp_ptr)
           (t : trans_t) : result trans_t :=
  let t := match arg_exp with
           | Some a => lower exp_trans a t
           | None => t
           end in
  do t <- bb_add_stmt (bb t) stmt t;
  do t <- bb_add_branch (bb t) None (Some (exit_bb (fn t))) t;
  do t <- fn_add_basic_blk (bb t) t;
  Ok (set_bb None t).

Definition stmt_trans_continue (t : trans_t) : result trans_t :=
  do t <- ASSERT (match cont_bb t with Some _ => true | None => false end)
                 ASSERT_cont_bb t;
  do t <- bb_add_branch (bb t) None (cont_bb t) t;
  do t <- fn_add_basic_blk (bb t) t;
  Ok (set_bb None t).

Definition stmt_trans_break (cond_exp : option exp_ptr) (t : trans_t)
  : result trans_t :=
  let '(next_bb, t) := bb_new t in
  do t <- ASSERT (match break_bb t with Some _ => true | None => false end)
                 ASSERT_break_bb t;
  do t <- match cond_exp with
          | Some c =>
              let t := lower exp_trans c t in
              do t <- bb_add_branch (bb t) (Some c) (break_bb t) t;
              bb_add_branch (bb t) None (Some next_bb) t
          | None => bb_add_branch (bb t) None (break_bb t) t
          end;
  do t <- fn_add_basic_blk (bb t) t;
  Ok (set_bb (Some next_bb) t).

Definition stmt_trans_goto (jump_label_bb : option bb_ptr) (t : trans_t)
  : result trans_t :=
  do t <- ASSERT (match jump_label_bb with Some _ => true | None => false end)
                 ASSERT_label_bb t;
  do t <- bb_add_branch (bb t) None jump_label_bb t;
  do t <- fn_add_basic_blk (bb t) t;
  Ok (set_bb None t).

Definition stmt_trans_ddl (stmt : ast_stmt_t) (t : trans_t)
  : result trans_t :=
  bb_add_stmt (bb t) stmt t.

(** The first lines of [stmt_trans]: a labelled statement starts in its
    label block, which the open current block branches to; otherwise a
    new block is opened when none is current. *)
Definition stmt_enter (stmt : ast_stmt_t) (t : trans_t) : result trans_t :=
  match stmt_label_bb stmt with
  | Some l =>
      do t <- match bb t with
              | Some _ =>
                  do t <- bb_add_branch (bb t) None (Some l) t;
                  fn_add_basic_blk (bb t) t
              | None => Ok t
              end;
      Ok (set_bb (Some l) t)
  | None =>
      match bb t with
      | None => let '(b, t) := bb_new t in Ok (set_bb (Some b) t)
      | Some _ => Ok t
      end
  end.

Fixpoint stmt_trans (stmt : ast_stmt_t) (t : trans_t) {struct stmt}
  : result trans_t :=
  do t <- stmt_enter stmt t;
  match stmt with
  | STMT_NULL _ => Ok t
  | STMT_EXP _ exp => stmt_trans_exp stmt exp t
  | STMT_ASSIGN _ l_exp r_exp => stmt_trans_assign stmt l_exp r_exp t
  | STMT_IF _ cond_exp if_blk elif_stmts else_blk =>
      stmt_trans_if_ stmt_trans cond_exp if_blk elif_stmts else_blk t
  | STMT_LOOP _ kind init_stmt blk =>
      stmt_trans_loop_ stmt_trans stmt kind init_stmt blk t
  | STMT_SWITCH _ blk has_dflt => stmt_trans_switch_ stmt_trans blk has_dflt t
  | STMT_CASE _ _ _ => Ok t
  | STMT_RETURN _ arg_exp => stmt_trans_return stmt arg_exp t
  | STMT_CONTINUE _ => stmt_trans_continue t
  | STMT_BREAK _ cond_exp => stmt_trans_break cond_exp t
  | STMT_GOTO _ jump_label_bb => stmt_trans_goto jump_label_bb t
  | STMT_DDL _ => stmt_trans_ddl stmt t
  | STMT_BLK _ blk => stmt_trans_blk_ stmt_trans blk t
  end.

Definition stmts_trans := stmts_trans_ stmt_trans.
Definition blk_trans := blk_trans_ stmt_trans.
Definition stmt_trans_if := stmt_trans_if_ stmt_trans.
Definition stmt_trans_for_loop := stmt_trans_for_loop_ stmt_trans.
Definition stmt_trans_loop := stmt_trans_loop_ stmt_trans.
Definition stmt_trans_switch := stmt_trans_switch_ stmt_trans.
Definition stmt_trans_blk := stmt_trans_blk_ stmt_trans.

End lowering.
End Trans.

(* ================================================================== *)
(** * Statement emission ([gen_stmt.c]) *)
(* ================================================================== *)

Module Gen.
Export Ir.

Inductive BinaryenType :=
| BinaryenTypeNone | BinaryenTypeInt32 | BinaryenTypeInt64
| BinaryenTypeFloat32 | BinaryenTypeFloat64.

Inductive BinaryenOp := BinaryenAddInt32.

(** The WebAssembly expressions the builder library constructs.
    [BinaryenOther] stands for any node built by expression emission
    that statement emission does not build itself. *)
#[local] Unset Elimination Schemes.
Inductive BinaryenExpression :=
| BinaryenSetGlobal (name : string) (value : BinaryenExpression)
| BinaryenSetLocal (index : Z) (value : BinaryenExpression)
| BinaryenGetLocal (index : Z) (ty : BinaryenType)
| BinaryenBinary (op : BinaryenOp) (left right : BinaryenExpression)
| BinaryenStore (bytes offset align : Z) (ptr : option BinaryenExpression)
                (value : BinaryenExpression) (ty : BinaryenType)
| BinaryenReturn (value : option BinaryenExpression)
| BinaryenCall (target : string) (operands : list BinaryenExpression)
               (ty : BinaryenType)
| BinaryenOther (node : nat).
#[local] Set Elimination Schemes.

(** A [BinaryenExpressionRef]; [None] is NULL. *)
Definition BinaryenExpressionRef := option BinaryenExpression.

Definition is_store (r : BinaryenExpressionRef) : bool :=
  match r with Some (BinaryenStore _ _ _ _ _ _) => true | _ => false end.
Definition is_call (r : BinaryenExpressionRef) : bool :=
  match r with Some (BinaryenCall _ _ _) => true | _ => false end.

(** The value operand of a node that writes a global, a local or
    memory. *)
Definition written_value (e : BinaryenExpression)
  : option BinaryenExpression :=
  match e with
  | BinaryenSetGlobal _ v | BinaryenSetLocal _ v
  | BinaryenStore _ _ _ _ v _ => Some v
  | _ => None
  end.

(** The emission context: the [is_lval] flag and the arena of expression
    nodes that lowering left behind. *)
Record gen_t := mk_gen {
  gen_is_lval : bool;
  gen_exps : exp_ptr -> ast_exp_t
}.

Definition set_gen_is_lval (v : bool) (g : gen_t) : gen_t :=
  mk_gen v (gen_exps g).

(** Expression emission and the type mappings, external collaborators
    ([gen_exp.c] and [gen_util.c] are not part of the sources at hand). *)
Class GenExp := {
  exp_gen : gen_t -> option exp_ptr -> gen_t * BinaryenExpressionRef;
  i32_gen : gen_t -> Z -> BinaryenExpression;
  type_gen : type_t -> BinaryenType;
  meta_gen : meta_t -> BinaryenType
}.

(** [TYPE_SIZE(type)] as a number. *)
Definition type_size (t : type_t) : Z :=
  match TYPE_SIZE t with Some z => z | None => 0 end.

Section emission.
Context {GE : GenExp}.

Definition stmt_gen_assign (l_exp r_exp : exp_ptr) (g : gen_t)
  : result (gen_t * BinaryenExpressionRef) :=
  let l := gen_exps g l_exp in
  let id := exp_id l in
  if match id with Some i => is_map_meta (id_meta i) | None => false end
  then Ok (g, None)
  else
    let '(g, value) := exp_gen g (Some r_exp) in
    match value with
    | None => Ok (g, None)
    | Some value =>
        if is_global_exp l then
          match u_glob_name l with
          | None => Fatal ASSERT_gen_lvalue
          | Some name => Ok (g, Some (BinaryenSetGlobal name value))
          end
        else if is_local_exp l then
          if u_local_idx l <? 0 then Fatal ASSERT_gen_lvalue
          else Ok (g, Some (BinaryenSetLocal (u_local_idx l) value))
        else if is_stack_exp l then
          if (u_stk_base l <? 0) || (u_stk_addr l <? 0)
          then Fatal ASSERT_gen_lvalue
          else
            let address := BinaryenGetLocal (u_stk_base l) BinaryenTypeInt32 in
            let address :=
              if 0 <? u_stk_addr l
              then BinaryenBinary BinaryenAddInt32 address
                                  (i32_gen g (u_stk_addr l))
              else address in
            Ok (g, Some (BinaryenStore (type_size (u_stk_type l))
                                       (u_stk_offset l) 0 (Some address) value
                                       (type_gen (u_stk_type l))))
        else
          match id with
          | None => Fatal ASSERT_gen_lvalue
          | Some i =>
              if is_return_id i then
                if id_idx i <? 0 then Fatal ASSERT_gen_lvalue
                else
                  Ok (g, Some (BinaryenStore
                                 (type_size (meta_type (exp_meta l))) 0 0
                                 (Some (BinaryenGetLocal (id_idx i)
                                                         BinaryenTypeInt32))
                                 value (meta_gen (exp_meta l))))
              else if is_array_meta (id_meta i) then
                let g := set_gen_is_lval true g in
                let '(g, address) := exp_gen g (Some l_exp) in
                let g := set_gen_is_lval false g in
                Ok (g, Some (BinaryenStore
                               (type_size (meta_type (exp_meta l))) 0 0
                               address value (meta_gen (exp_meta l))))
              else Fatal ASSERT_gen_lvalue
          end
    end.

Definition stmt_gen_return (arg_exp : option exp_ptr) (g : gen_t)
  : result (gen_t * BinaryenExpressionRef) :=
  let '(g, value) := exp_gen g arg_exp in
  Ok (g, Some (BinaryenReturn value)).

Definition stmt_gen_ddl (g : gen_t) : result (gen_t * BinaryenExpressionRef) :=
  Ok (g, None).

Definition stmt_gen (stmt : ast_stmt_t) (g : gen_t)
  : result (gen_t * BinaryenExpressionRef) :=
  match stmt with
  | STMT_EXP _ exp => Ok (exp_gen g (Some exp))
  | STMT_ASSIGN _ l_exp r_exp => stmt_gen_assign l_exp r_exp g
  | STMT_RETURN _ arg_exp => stmt_gen_return arg_exp g
  | STMT_DDL _ => stmt_gen_ddl g
  | _ => Fatal ASSERT_invalid_stmt
  end.

End emission.
End Gen.

(* ================================================================== *)
(** * Lowering a whole function, and what a well-formed CFG is *)
(* ================================================================== *)

Module Cfg.
Export Trans.

Section driver.
Context {TE : TransExp}.

(** The context before a function is lowered: an arena of expression
    nodes, and the [n] label blocks (addresses below [n], all empty)
    that the resolver attached to the labelled statements. *)
Definition trans_new (ex : exp_ptr -> ast_exp_t) (n : nat) : trans_t :=
  mk_trans (mk_fn [] [] O O 0 0) None None None false
           (fun _ => empty_bb) n ex [].

(** Modelled from the spec: [fn_new] of [ir_fn.c] is not part of the
    sources at hand; by section 4.C it constructs an empty function with
    an entry and an exit block. *)
Definition fn_new (t : trans_t) : trans_t :=
  let '(e, t) := bb_new t in
  let '(x, t) := bb_new t in
  set_fn (mk_fn [] [] e x 0 0) t.

(** Modelled from the spec: the function-level driver of [trans_id.c]
    is not part of the sources at hand.  Lowering starts in the entry
    block and recurses into the body; the block that is open at the end
    falls through to the function epilogue, that is, branches to the
    exit block (scenario E4); the exit block is a block of the function
    (section 8, property 2). *)
Definition fn_trans (body : option (list ast_stmt_t)) (t : trans_t)
  : result trans_t :=
  let t := fn_new t in
  let t := set_bb (Some (entry_bb (fn t))) t in
  do t <- stmt_trans_blk body t;
  do t <- match bb t with
          | Some _ =>
              do t <- bb_add_branch (bb t) None (Some (exit_bb (fn t))) t;
              fn_add_basic_blk (bb t) t
          | None => Ok t
          end;
  do t <- fn_add_basic_blk (Some (exit_bb (fn t))) t;
  Ok (set_bb None t).

End driver.

(** ** Statements that lowering visits *)

Definition olist {A : Type} (o : option (list A)) : list A :=
  match o with Some l => l | None => [] end.

(** The statement itself and, transitively, every statement that
    [stmt_trans] is called on while lowering it: the statements of the
    arms of an if, the init statement and the body of a for loop, the
    statements under the cases of a switch and the statements of a
    nested block.  The body of an array loop and the statements under a
    case outside a switch are not lowered. *)
Fixpoint lowered (s : ast_stmt_t) : list ast_stmt_t :=
  let many := fix many (l : list ast_stmt_t) : list ast_stmt_t :=
    match l with
    | [] => []
    | x :: r => lowered x ++ many r
    end in
  let elifs := fix elifs (l : list ast_stmt_t) : list ast_stmt_t :=
    match l with
    | [] => []
    | STMT_IF _ _ ib _ _ :: r =>
        match ib with Some b => many b | None => [] end ++ elifs r
    | _ :: r => elifs r
    end in
  let cases := fix cases (l : list ast_stmt_t) : list ast_stmt_t :=
    match l with
    | [] => []
    | STMT_CASE _ _ ss :: r => many ss ++ cases r
    | _ :: r => cases r
    end in
  s ::
  match s with
  | STMT_IF _ _ ib el eb =>
      match ib with Some b => many b | None => [] end
      ++ elifs el
      ++ match eb with Some b => many b | None => [] end
  | STMT_LOOP _ LOOP_FOR i b =>
      match i with Some x => lowered x | None => [] end ++ many b
  | STMT_SWITCH _ b _ => cases b
  | STMT_BLK _ (Some b) => many b
  | _ => []
  end.

Definition lowered_list (l : list ast_stmt_t) : list ast_stmt_t :=
  flat_map lowered l.

Definition own_label (s : ast_stmt_t) : list bb_ptr :=
  match stmt_label_bb s with Some l => [l] | None => [] end.

Definition own_goto (s : ast_stmt_t) : list bb_ptr :=
  match s with STMT_GOTO _ (Some l) => [l] | _ => [] end.

(** The label blocks a statement list places and the blocks its gotos
    jump to. *)
Definition labels_of (l : list ast_stmt_t) : list bb_ptr :=
  flat_map own_label (lowered_list l).
Definition gotos_of (l : list ast_stmt_t) : list bb_ptr :=
  flat_map own_goto (lowered_list l).

(** A plain statement: unlabelled, and lowered without leaving the
    current block. *)
Definition is_plain (s : ast_stmt_t) : bool :=
  match stmt_label_bb s, s with
  | None, (STMT_NULL _ | STMT_EXP _ _ | STMT_ASSIGN _ _ _ | STMT_DDL _) => true
  | _, _ => false
  end.

Definition plain_init (s : ast_stmt_t) : bool :=
  match s with
  | STMT_LOOP _ LOOP_FOR (Some i) _ => is_plain i
  | _ => true
  end.

(** What the front end guarantees about a function body with [n] label
    blocks: every label block is one of the [n]; every goto jumps to the
    label block of a statement of the body; the init statement of a for
    loop is a plain statement. *)
Definition wf_body (n : nat) (body : list ast_stmt_t) : bool :=
  forallb (fun l => l <? n)%nat (labels_of body)
  && forallb (fun g => mem_bb g (labels_of body)) (gotos_of body)
  && forallb plain_init (lowered_list body).

(** Expression lowering leaves only simple statements as piggybacks. *)
Definition simple_stmts (l : list ast_stmt_t) : Prop :=
  Forall (fun s => is_structured s = false) l.

Definition pgbacks_simple (TE : TransExp) : Prop :=
  forall cx e,
    simple_stmts (cx_pgbacks cx) ->
    simple_stmts (cx_pgbacks (exp_trans cx e)) /\
    simple_stmts (cx_pgbacks (exp_trans_to_lval cx e)) /\
    simple_stmts (cx_pgbacks (exp_trans_to_rval cx e)).

(** Expression lowering leaves only statements that the emitter accepts
    as piggybacks. *)
Definition emittable_stmts (l : list ast_stmt_t) : Prop :=
  Forall (fun s => is_emittable s = true) l.

Definition pgbacks_emittable (TE : TransExp) : Prop :=
  forall cx e,
    emittable_stmts (cx_pgbacks cx) ->
    emittable_stmts (cx_pgbacks (exp_trans cx e)) /\
    emittable_stmts (cx_pgbacks (exp_trans_to_lval cx e)) /\
    emittable_stmts (cx_pgbacks (exp_trans_to_rval cx e)).

(** ** Well-formedness of the CFG of the function under construction *)

Inductive reachable (t : trans_t) : bb_ptr -> Prop :=
| reach_entry : reachable t (entry_bb (fn t))
| reach_step : forall b br,
    reachable t b -> In br (bb_brs (blocks t b)) -> reachable t (br_bb br).

Definition targets_in_fn (t : trans_t) : Prop :=
  forall b br, In b (fn_bbs (fn t)) -> In br (bb_brs (blocks t b)) ->
               In (br_bb br) (fn_bbs (fn t)).

Definition all_reachable (t : trans_t) : Prop :=
  forall b, In b (fn_bbs (fn t)) -> reachable t b.

Definition no_structured (t : trans_t) : Prop :=
  forall b, In b (fn_bbs (fn t)) -> simple_stmts (bb_stmts (blocks t b)).

(** Property 2 of section 8, as stated. *)
Definition cfg_well_formed (t : trans_t) : Prop :=
  targets_in_fn t /\
  In (entry_bb (fn t)) (fn_bbs (fn t)) /\
  In (exit_bb (fn t)) (fn_bbs (fn t)) /\
  bb_brs (blocks t (exit_bb (fn t))) = [] /\
  all_reachable t /\
  no_structured t.

(** The same without reachability. *)
Definition cfg_well_formed_but_reach (t : trans_t) : Prop :=
  targets_in_fn t /\
  In (entry_bb (fn t)) (fn_bbs (fn t)) /\
  In (exit_bb (fn t)) (fn_bbs (fn t)) /\
  bb_brs (blocks t (exit_bb (fn t))) = [] /\
  no_structured t.

(** A set of blocks that holds the successors of each of its members. *)
Definition succ_closed (t : trans_t) (S : list bb_ptr) : bool :=
  forallb (fun b => forallb (fun br => mem_bb (br_bb br) S)
                            (bb_brs (blocks t b))) S.

End Cfg.

(* ================================================================== *)
(** * Invariants of the lowering context *)
(* ================================================================== *)

Module Invariants.
Export Cfg.

(** A property of every statement that lowering visits. *)
Definition every (phi : ast_stmt_t -> Prop) (s : ast_stmt_t) : Prop :=
  Forall phi (lowered s).

(** The statements lowered under the [else if]s of an if statement and
    under the cases of a switch block. *)
Definition lowered_elifs (l : list ast_stmt_t) : list ast_stmt_t :=
  flat_map (fun e => match e with
                     | STMT_IF _ _ ib _ _ => lowered_list (olist ib)
                     | _ => []
                     end) l.
Definition lowered_cases (l : list ast_stmt_t) : list ast_stmt_t :=
  flat_map (fun c => match c with
                     | STMT_CASE _ _ ss => lowered_list ss
                     | _ => []
                     end) l.

Definition labelled_in (L : list bb_ptr) (s : ast_stmt_t) : Prop :=
  incl (own_label s) L.

(** The footprint of lowering, relative to a base: [n] is a block
    address not above the allocation cursor, [c] the block that was
    current, [L] a set of label blocks and [B] the block arena of the
    base.  Lowering writes only to the block [c], to label blocks and to
    blocks allocated from [n] on; and the continue and break targets are
    [v] and [w] or have been cleared. *)
Record frame_inv (L : list bb_ptr) (n : nat) (c : option bb_ptr)
       (B : bb_ptr -> ir_bb_t) (v w : option bb_ptr) (t : trans_t)
  : Prop := mk_frame_inv {
  fi_next : (n <= next_bb_id t)%nat;
  fi_cur : forall b, bb t = Some b -> Some b = c \/ In b L \/ (n <= b)%nat;
  fi_blocks : forall b, (b < n)%nat -> Some b <> c -> ~ In b L ->
                        blocks t b = B b;
  fi_cont : cont_bb t = v \/ cont_bb t = None;
  fi_break : break_bb t = w \/ break_bb t = None
}.

Definition allowed (L : list bb_ptr) (n : nat) (c : option bb_ptr)
           (p : option bb_ptr) : Prop :=
  forall b, p = Some b -> Some b = c \/ In b L \/ (n <= b)%nat.

(** A block that may be the target of a branch while the function is
    under construction: a block of the function, the current block, or
    one of the pending blocks [P] (blocks that exist and will be made
    current later: the exit block, label blocks, join blocks). *)
Definition branchable (P : list bb_ptr) (t : trans_t) (x : bb_ptr) : Prop :=
  In x (fn_bbs (fn t)) \/ bb t = Some x \/ In x P.

(** The state of the CFG under construction, relative to the pending
    blocks [P] and to the blocks [X] that have been current so far:
    every branch, and the continue and break targets, go to branchable
    blocks; the entry and exit blocks are the pair [E] and the exit block
    is pending; blocks hold only simple statements; every block of [X] is
    a block of the function or still the current one. *)
Record cfg_inv (E : bb_ptr * bb_ptr) (P X : list bb_ptr) (t : trans_t)
  : Prop := mk_cfg_inv {
  ci_targets : forall b br, In br (bb_brs (blocks t b)) ->
                            branchable P t (br_bb br);
  ci_cont : forall x, cont_bb t = Some x -> branchable P t x;
  ci_break : forall x, break_bb t = Some x -> branchable P t x;
  ci_exit : (entry_bb (fn t), exit_bb (fn t)) = E;
  ci_pending : In (snd E) P;
  ci_simple : forall b, simple_stmts (bb_stmts (blocks t b)) /\
                        simple_stmts (bb_pgbacks (blocks t b));
  ci_placed : forall x, In x X -> In x (fn_bbs (fn t)) \/ bb t = Some x
}.

(** The label blocks of a list of statements. *)
Definition labs (l : list ast_stmt_t) : list bb_ptr :=
  flat_map own_label l.

(** The current block, if any, is already a block of the function. *)
Definition closed_cur (t : trans_t) : Prop :=
  forall b, bb t = Some b -> In b (fn_bbs (fn t)).

(** What lowering needs of each statement it visits: its label block
    and the block its goto jumps to are pending, and the init statement
    of a for loop is plain. *)
Definition wf_in (P : list bb_ptr) (s : ast_stmt_t) : Prop :=
  incl (own_label s) P /\ incl (own_goto s) P /\ plain_init s = true.

(** The lowering from the context [t] to the context [u] stayed in the
    block [p]: [p] is current, no branch was added, no other block was
    written to, no block was allocated or added to the function, and the
    jump targets and the reported errors are as before. *)
Definition stays_in_block (p : bb_ptr) (t u : trans_t) : Prop :=
  bb u = Some p /\
  (forall x, bb_brs (blocks u x) = bb_brs (blocks t x)) /\
  (forall x, x <> p -> blocks u x = blocks t x) /\
  next_bb_id u = next_bb_id t /\
  fn_bbs (fn u) = fn_bbs (fn t) /\
  entry_bb (fn u) = entry_bb (fn t) /\
  exit_bb (fn u) = exit_bb (fn t) /\
  cont_bb u = cont_bb t /\ break_bb u = break_bb t /\
  errors u = errors t.

(** The block a continue or a goto statement jumps to in a context: the
    continue target of the context, and the label block of the goto. *)
Definition jump_target (s : ast_stmt_t) (t : trans_t) : option bb_ptr :=
  match s with
  | STMT_CONTINUE _ => cont_bb t
  | STMT_GOTO _ j => j
  | _ => None
  end.

(** The statements that set the continue or break target while they
    are lowered: a for loop and a switch. *)
Definition is_for_or_switch (s : ast_stmt_t) : bool :=
  match s with
  | STMT_LOOP _ LOOP_FOR _ _ | STMT_SWITCH _ _ _ => true
  | _ => false
  end.

(** The value expression of a case statement; NULL for the default. *)
Definition case_val (c : ast_stmt_t) : option exp_ptr :=
  match c with
  | STMT_CASE _ v _ => v
  | _ => None
  end.

(** One branch per case, in the order of the cases: guarded by the
    value expression of the case, to the block of the case. *)
Definition case_branches (cases : list ast_stmt_t) (targets : list bb_ptr)
  : list ir_br_t :=
  map (fun ct => mk_br (case_val (fst ct)) (snd ct)) (combine cases targets).

(** The condition of an [else if] arm. *)
Definition elif_cond (e : ast_stmt_t) : option exp_ptr :=
  match e with
  | STMT_IF _ c _ _ _ => Some c
  | _ => None
  end.

(** One branch per arm of an if statement, in the order of the arms:
    guarded by the condition of the arm, to the block of the arm. *)
Definition arm_branches (conds : list (option exp_ptr))
           (targets : list bb_ptr) : list ir_br_t :=
  map (fun ct => mk_br (fst ct) (snd ct)) (combine conds targets).

(** The label blocks of the statements under the arms of an if
    statement. *)
Definition labels_under_if (ib : option (list ast_stmt_t))
           (el : list ast_stmt_t) (eb : option (list ast_stmt_t))
  : list bb_ptr :=
  labs (lowered_list (olist ib) ++ lowered_elifs el
          ++ lowered_list (olist eb)).

(** The label blocks of the statements under the cases of a switch. *)
Definition labels_under_cases (cases : list ast_stmt_t) : list bb_ptr :=
  flat_map own_label (lowered_cases cases).

(** What one round of the loop over the cases does once the statements
    under the case are lowered. *)
Definition case_close (next_bb : bb_ptr) (rest : list ast_stmt_t)
           (t : trans_t) : result trans_t :=
  match bb t, rest with
  | Some _, [] =>
      do t <- bb_add_branch (bb t) None (Some next_bb) t;
      fn_add_basic_blk (bb t) t
  | Some _, _ :: _ =>
      let '(case_bb, t) := bb_new t in
      do t <- bb_add_branch (bb t) None (Some case_bb) t;
      do t <- fn_add_basic_blk (bb t) t;
      Ok (set_bb (Some case_bb) t)
  | None, [] => Ok t
  | None, _ :: _ =>
      let '(b, t) := bb_new t in
      Ok (set_bb (Some b) t)
  end.

(** The statements under a case statement. *)
Definition case_stmts (c : ast_stmt_t) : list ast_stmt_t :=
  match c with
  | STMT_CASE _ _ ss => ss
  | _ => []
  end.

(** The context once the value expression of a case is lowered; the
    default case has none. *)
Definition lower_case_val {TE : TransExp} (c : ast_stmt_t) (t : trans_t)
  : trans_t :=
  match case_val c with
  | Some v => lower exp_trans v t
  | None => t
  end.

(** A block once the round of a case is over: the block [cur] that is
    still current after the statements of the case (there is no break
    statement) has got an unguarded branch to the block [fall]; every
    other block is as it was. *)
Definition fall_through (cur : option bb_ptr) (fall x : bb_ptr)
           (blk : ir_bb_t) : ir_bb_t :=
  match cur with
  | Some c =>
      if Nat.eqb x c
      then mk_bb (bb_stmts blk) (bb_brs blk ++ [mk_br None fall])
                 (bb_pgbacks blk)
      else blk
  | None => blk
  end.

(** The body of the case [c] of a switch became the sibling block [tg]
    off the predecessor [prev] on the way to the context [t']: there
    are the context [s] in which the round of the case starts to lower
    and the context [s'] in which the statements of the case are
    lowered, such that
    - in [s] the block [tg] is current and allocated and holds no
      statement yet, and the branches of the predecessor are [brs];
    - [s'] is what lowering the value expression and then the statements
      of the case from [s] answers;
    - in [t'], every block that was allocated in [s'], the predecessor
      and the label blocks of the cases [later] apart, is as in [s'],
      but for the branch to [fall] that the block still current in [s']
      has got. *)
Definition case_body_in {TE : TransExp} (prev : bb_ptr)
           (brs : list ir_br_t) (later : list ast_stmt_t) (c : ast_stmt_t)
           (tg fall : bb_ptr) (t' : trans_t) : Prop :=
  exists s s',
    bb s = Some tg /\ (tg < next_bb_id s)%nat /\
    bb_stmts (blocks s tg) = [] /\ bb_pgbacks (blocks s tg) = [] /\
    bb_brs (blocks s prev) = brs /\
    stmts_trans (case_stmts c) (lower_case_val c s) = Ok s' /\
    forall x, (x < next_bb_id s')%nat -> x <> prev ->
              ~ In x (labels_under_cases later) ->
              blocks t' x = fall_through (bb s') fall x (blocks s' x).

End Invariants.

(* ================================================================== *)
(** * Concrete collaborators and programs *)
(* ================================================================== *)

Module Examples.
Export Invariants.
Export Gen.

Definition type_eqb (a b : type_t) : bool :=
  (type_index a =? type_index b)%nat.

(** A lowering of expressions that rewrites nothing; metadata compare
    equal when the type tags and the element counts agree. *)
#[export] Instance plain_lowering : TransExp := {
  meta_cmp := fun a b =>
    if type_eqb (meta_type a) (meta_type b)
       && (elem_cnt a =? elem_cnt b)%nat then 0 else 1;
  exp_trans := fun cx _ => cx;
  exp_trans_to_lval := fun cx _ => cx;
  exp_trans_to_rval := fun cx _ => cx
}.

(** An emitter of expressions that answers with an opaque node per
    expression, and nothing for a NULL expression. *)
#[export] Instance plain_emitter : GenExp := {
  exp_gen := fun g e =>
    (g, match e with Some p => Some (BinaryenOther p) | None => None end);
  i32_gen := fun _ v => BinaryenOther (Z.to_nat v);
  type_gen := fun _ => BinaryenTypeInt32;
  meta_gen := fun _ => BinaryenTypeInt32
}.

Definition m_int32 : meta_t := mk_meta TYPE_INT32 0 0.
Definition m_map : meta_t := mk_meta TYPE_MAP 0 0.
Definition m_tuple (n : nat) : meta_t := mk_meta TYPE_TUPLE n 0.

Definition local_exp (idx : Z) : ast_exp_t :=
  mk_exp EXP_LOCAL None m_int32 [] None idx 0 0 0 TYPE_INT32.
Definition lit_exp : ast_exp_t :=
  mk_exp EXP_LIT None m_int32 [] None 0 0 0 0 TYPE_INT32.
Definition tuple_exp (elems : list exp_ptr) : ast_exp_t :=
  mk_exp EXP_TUPLE None (m_tuple (List.length elems)) elems None 0 0 0 0
         TYPE_TUPLE.
Definition call_exp (m : meta_t) : ast_exp_t :=
  mk_exp EXP_CALL None m [] None 0 0 0 0 TYPE_INT32.

Definition hd0 : stmt_hd := mk_hd (1, 1)%nat None.
Definition hd_at (line : nat) : stmt_hd := mk_hd (line, 1)%nat None.
Definition hd_lab (line : nat) (l : bb_ptr) : stmt_hd :=
  mk_hd (line, 1)%nat (Some l).

(** An arena of [int32] locals at addresses 0 to 9; address 10 is the
    tuple [(a, b, c)] of the locals 0, 1, 2; address 11 the tuple
    [(y, z)] of the locals 4, 5; address 12 the tuple [(x, (y, z))] of
    the local 3 and the tuple 11; address 13 a call that returns a
    3-tuple; address 14 the tuple [(x, y, z)] of the locals 3, 4, 5. *)
Definition arena (p : exp_ptr) : ast_exp_t :=
  match p with
  | 10 => tuple_exp [0; 1; 2]
  | 11 => tuple_exp [4; 5]
  | 12 => tuple_exp [3; 11]
  | 13 => call_exp (m_tuple 3)
  | 14 => tuple_exp [3; 4; 5]
  | _ => local_exp (Z.of_nat p)
  end%nat.

(** A context with an open current block 0. *)
Definition open_ctx : trans_t :=
  set_bb (Some O) (trans_new arena 1).

(** [(a, b, c) = (x, (y, z));] *)
Definition tuple_assign_flat : ast_stmt_t := STMT_ASSIGN hd0 10%nat 12%nat.
(** [(a, b, c) = (x, y, z);] *)
Definition tuple_assign_same : ast_stmt_t := STMT_ASSIGN hd0 10%nat 14%nat.
(** [(a, b, c) = f();] with the call left as a call. *)
Definition tuple_assign_call : ast_stmt_t := STMT_ASSIGN hd0 10%nat 13%nat.

(** [m[k] = v;] with [m] a map: the left side is an element access whose
    identifier is the map. *)
Definition map_id : ast_id_t := mk_id "m" m_map 4 false.
Definition map_arena (p : exp_ptr) : ast_exp_t :=
  match p with
  | O => mk_exp EXP_ARRAY (Some map_id) m_int32 [] None 0 0 0 0 TYPE_INT32
  | _ => local_exp (Z.of_nat p)
  end.
Definition map_assign : ast_stmt_t := STMT_ASSIGN hd0 0%nat 1%nat.
Definition map_gen : gen_t := mk_gen false map_arena.
Definition map_ctx : trans_t := set_bb (Some O) (trans_new map_arena 1).

(** An arena whose address 0 is a stack variable of type [int64] at
    offset 16 of the frame whose base address is in the local 2. *)
Definition stack_arena (p : exp_ptr) : ast_exp_t :=
  match p with
  | O => mk_exp EXP_STACK None (mk_meta TYPE_INT64 0 0) [] None 0 2 0 16
                TYPE_INT64
  | _ => local_exp (Z.of_nat p)
  end.

(** [return a; b = c; return b;] *)
Definition dead_code_body : list ast_stmt_t :=
  [STMT_RETURN (hd_at 1) (Some 0%nat); STMT_ASSIGN (hd_at 2) 1%nat 2%nat;
   STMT_RETURN (hd_at 3) (Some 1%nat)].

(** [for (;;) { break; }] *)
Definition loop_break_body : list ast_stmt_t :=
  [STMT_LOOP (hd_at 1) LOOP_FOR None [STMT_BREAK (hd_at 1) None]].

(** [switch { default: a = b; case c: d = e; }] *)
Definition switch_default_first : list ast_stmt_t :=
  [STMT_CASE (hd_at 2) None [STMT_ASSIGN (hd_at 2) 0%nat 1%nat];
   STMT_CASE (hd_at 3) (Some 2%nat) [STMT_ASSIGN (hd_at 3) 3%nat 4%nat]].

(** [switch { case c: d = e; break; default: a = b; }] *)
Definition switch_default_last : list ast_stmt_t :=
  [STMT_CASE (hd_at 2) (Some 2%nat)
             [STMT_ASSIGN (hd_at 2) 3%nat 4%nat; STMT_BREAK (hd_at 2) None];
   STMT_CASE (hd_at 3) None [STMT_ASSIGN (hd_at 3) 0%nat 1%nat]].

(** [for (;;) { for (;;) { break if c; } continue; }] *)
Definition nested_loop_continue : ast_stmt_t :=
  STMT_LOOP (hd_at 1) LOOP_FOR None
    [STMT_LOOP (hd_at 2) LOOP_FOR None [STMT_BREAK (hd_at 2) (Some 0%nat)];
     STMT_CONTINUE (hd_at 3)].

(** The result of a lowering that is known to succeed. *)
Definition ok_or (d : trans_t) (r : result trans_t) : trans_t :=
  match r with Ok t => t | Fatal _ => d end.

(** A context inside an enclosing loop: block 2 is current, the
    continue target is block 0 and the break target block 1. *)
Definition loop_ctx : trans_t :=
  set_cont_bb (Some 0%nat)
    (set_break_bb (Some 1%nat) (set_bb (Some 2%nat) (trans_new arena 3))).

Definition inner_loop : ast_stmt_t :=
  STMT_LOOP (hd_at 2) LOOP_FOR None [STMT_BREAK (hd_at 2) (Some 0%nat)].

Definition after_inner_loop : trans_t :=
  ok_or loop_ctx (stmt_trans inner_loop loop_ctx).

(** A function body with a labelled statement, a loop, a switch and a
    jump back:
    [a = b; L: c = d; for (i = 0;;) { break if e; f(); }
     switch { case g: h = i; default: ; } goto L;] *)
Definition sample_body : list ast_stmt_t :=
  [STMT_ASSIGN (hd_at 1) 0%nat 1%nat;
   STMT_ASSIGN (hd_lab 2 0%nat) 2%nat 3%nat;
   STMT_LOOP (hd_at 3) LOOP_FOR (Some (STMT_ASSIGN (hd_at 3) 4%nat 5%nat))
     [STMT_BREAK (hd_at 4) (Some 6%nat); STMT_EXP (hd_at 5) 13%nat];
   STMT_SWITCH (hd_at 6)
     [STMT_CASE (hd_at 7) (Some 7%nat) [STMT_ASSIGN (hd_at 7) 8%nat 9%nat];
      STMT_CASE (hd_at 8) None []] true;
   STMT_GOTO (hd_at 9) (Some 0%nat)].

(** The arms of [if (c) { a = b; } else if (d) { } else { e = f; }]. *)
Definition if_then : option (list ast_stmt_t) :=
  Some [STMT_ASSIGN (hd_at 2) 0%nat 1%nat].
Definition if_elifs : list ast_stmt_t :=
  [STMT_IF (hd_at 3) 7%nat (Some []) [] None].
Definition if_else : option (list ast_stmt_t) :=
  Some [STMT_ASSIGN (hd_at 4) 2%nat 3%nat].
Definition after_if : trans_t :=
  ok_or open_ctx (stmt_trans_if 6%nat if_then if_elifs if_else open_ctx).

(** The context of a function without label blocks once [return a;] has
    been lowered in its entry block: no block is current. *)
Definition fn_ctx : trans_t :=
  set_bb (Some O) (fn_new (trans_new arena 0)).
Definition after_return : trans_t :=
  ok_or fn_ctx (stmt_trans (STMT_RETURN (hd_at 1) (Some 0%nat)) fn_ctx).

(** The function with the body [dead_code_body] after lowering; it has
    no label block. *)
Definition dead_code_fn : trans_t :=
  ok_or (trans_new arena 0)
        (fn_trans (Some dead_code_body) (trans_new arena 0)).

(** The function with the body [sample_body] after lowering; it has one
    label block. *)
Definition sample_fn : trans_t :=
  ok_or (trans_new arena 1)
        (fn_trans (Some sample_body) (trans_new arena 1)).

(** The function with the body [loop_break_body] after lowering. *)
Definition loop_break_fn : trans_t :=
  ok_or (trans_new arena 0)
        (fn_trans (Some loop_break_body) (trans_new arena 0)).

End Examples.

(* ================================================================== *)
(** * Properties *)
(* ================================================================== *)

Module TypeTableFacts.
Import TypeTable.

(** C5. For every type tag the display-name, linear-memory-size and
    host-size lookups succeed (the index is inside each table); being
    functions of the tag alone they give the same value on every call;
    and the linear-memory size is the one of the section 6.3 table:
    4 for bool, byte, int8, int16, int32, float and the pointer types,
    8 for int64, map and double, 0 for void and none. *)
Theorem type_lookups_total (t : type_t) :
  (exists name, TYPE_NAME t = Some name) /\
  (exists bytes, TYPE_BYTES t = Some bytes) /\
  TYPE_SIZE t = Some (linear_memory_width t) /\
  (forall t', t' = t ->
     TYPE_NAME t' = TYPE_NAME t /\ TYPE_SIZE t' = TYPE_SIZE t /\
     TYPE_BYTES t' = TYPE_BYTES t).
Proof.
  repeat split; try (destruct t; cbn; eauto; fail);
    subst; reflexivity.
Qed.

Lemma type_index_lt_max (t : type_t) : (type_index t < TYPE_MAX)%nat.
Proof. destruct t; cbn; unfold TYPE_MAX; lia. Qed.

Lemma tables_have_TYPE_MAX_entries :
  List.length type_names_ = TYPE_MAX /\
  List.length type_sizes_ = TYPE_MAX /\
  List.length type_bytes_ = TYPE_MAX.
Proof. repeat split. Qed.

End TypeTableFacts.

Module ModifierFacts.
Import Modifier.

Lemma mod_test_lor (v w : Z) (m : modifier_e) :
  flag m -> mod_test (Z.lor v w) m = mod_test v m || mod_test w m.
Proof.
  intros Hm. unfold mod_test. rewrite Z.land_lor_distr_l.
  assert (Hbit : exists k, 0 <= k /\ mod_value m = 2 ^ k).
  { destruct m; [congruence | exists 0 | exists 1 | exists 2 | exists 3];
      cbn; split; (lia || reflexivity). }
  destruct Hbit as (k & Hk & ->).
  assert (Hone : forall x, (Z.land x (2 ^ k) =? 0) = negb (Z.testbit x k)).
  { intros x.
    destruct (Z.testbit x k) eqn:Hx; cbn.
    - apply Z.eqb_neq. intros H0.
      assert (Z.testbit (Z.land x (2 ^ k)) k = true).
      { rewrite Z.land_spec, Hx, Z.pow2_bits_true; auto. }
      rewrite H0, Z.bits_0 in H. discriminate.
    - apply Z.eqb_eq. apply Z.bits_inj'. intros n Hn.
      rewrite Z.land_spec, Z.bits_0.
      destruct (Z.eq_dec n k) as [-> | Hne].
      + rewrite Hx. reflexivity.
      + rewrite Z.pow2_bits_false by lia. apply andb_false_r. }
  rewrite !Hone.
  assert (Hlor : Z.lor (Z.land v (2 ^ k)) (Z.land w (2 ^ k))
                 = Z.land (Z.lor v w) (2 ^ k))
    by (rewrite Z.land_lor_distr_l; reflexivity).
  rewrite Hlor, Hone, Z.lor_spec.
  destruct (Z.testbit v k), (Z.testbit w k); reflexivity.
Qed.

(** C7, as the enumeration has it.  The modifiers local, shared,
    transfer and readonly are four distinct single bits, so every set
    of modifiers is held by one value and each of the four is tested
    independently of the others: the test of the value of a set answers
    whether the modifier is in the set.  The modifier global is the
    value zero and owns no bit. *)
Theorem modifier_flags_bit_set (ms : list modifier_e) (m : modifier_e) :
  flag m ->
  (exists k, 0 <= k /\ mod_value m = 2 ^ k /\
             forall m', flag m' -> mod_value m' = 2 ^ k -> m' = m) /\
  mod_test (mod_of ms) m = mem_mod m ms.
Proof.
  intros Hm. split.
  - destruct m; [congruence | exists 0 | exists 1 | exists 2 | exists 3];
      (split; [lia | split; [reflexivity |]]);
      intros m' Hm' Hv; destruct m'; cbn in Hv; try congruence;
      try discriminate.
  - induction ms as [| a ms IH].
    + reflexivity.
    + change (mod_of (a :: ms)) with (Z.lor (mod_value a) (mod_of ms)).
      change (mem_mod m (a :: ms)) with (modifier_eqb m a || mem_mod m ms).
      rewrite mod_test_lor by assumption. rewrite IH. f_equal.
      destruct m, a; cbn; try reflexivity; congruence.
Qed.

Lemma modifier_flags_bit_set_witness :
  flag MOD_TRANSFER /\
  ((exists k, 0 <= k /\ mod_value MOD_TRANSFER = 2 ^ k /\
              forall m', flag m' -> mod_value m' = 2 ^ k -> m' = MOD_TRANSFER)
   /\
   mod_test (mod_of [MOD_GLOBAL; MOD_TRANSFER; MOD_LOCAL]) MOD_TRANSFER
   = mem_mod MOD_TRANSFER [MOD_GLOBAL; MOD_TRANSFER; MOD_LOCAL]).
Proof.
  split.
  - unfold flag. discriminate.
  - apply (modifier_flags_bit_set [MOD_GLOBAL; MOD_TRANSFER; MOD_LOCAL]
                                  MOD_TRANSFER).
    unfold flag. discriminate.
Defined.

(** C7 fails as stated: the modifier global is not a bit.  Its value has
    no bit set, the set that holds only global and the empty set are the
    same value, and the test for global fails on every value. *)
Lemma modifier_global_is_not_a_bit :
  (forall k, Z.testbit (mod_value MOD_GLOBAL) k = false) /\
  mod_of [MOD_GLOBAL] = mod_of [] /\
  mod_of [MOD_GLOBAL; MOD_LOCAL] = mod_of [MOD_LOCAL] /\
  mod_test (mod_of [MOD_GLOBAL]) MOD_GLOBAL = false /\
  ~ (forall ms m, mod_test (mod_of ms) m = mem_mod m ms).
Proof.
  repeat split; try reflexivity.
  - intros k. apply Z.bits_0.
  - intros H. specialize (H [MOD_GLOBAL] MOD_GLOBAL). discriminate.
Qed.

End ModifierFacts.

(* ------------------------------------------------------------------ *)
(** ** Assignments, returns and array loops *)
(* ------------------------------------------------------------------ *)

Module StmtFacts.
Import Examples.

Lemma bind_ok {A B : Type} (m : result A) (k : A -> result B) (b : B) :
  bind m k = Ok b -> exists a, m = Ok a /\ k a = Ok b.
Proof. destruct m; cbn; intros H; [eauto | discriminate]. Qed.

Lemma upd_same {A : Type} (m : nat -> A) (k : nat) (v : A) : upd m k v k = v.
Proof. unfold upd. rewrite Nat.eqb_refl. reflexivity. Qed.

Lemma upd_other {A : Type} (m : nat -> A) (k x : nat) (v : A) :
  x <> k -> upd m k v x = m x.
Proof. unfold upd. intros H. apply Nat.eqb_neq in H. rewrite H. reflexivity. Qed.

Lemma mem_bb_In (p : bb_ptr) (l : list bb_ptr) :
  mem_bb p l = true <-> In p l.
Proof.
  unfold mem_bb. rewrite existsb_exists. split.
  - intros (x & Hx & He). apply Nat.eqb_eq in He. subst. assumption.
  - intros H. exists p. split; [assumption | apply Nat.eqb_refl].
Qed.

Lemma fn_add_basic_blk_spec (b : bb_ptr) (t : trans_t) :
  exists t', fn_add_basic_blk (Some b) t = Ok t' /\
             In b (fn_bbs (fn t')) /\
             incl (fn_bbs (fn t)) (fn_bbs (fn t')) /\
             (forall x, In x (fn_bbs (fn t')) -> In x (fn_bbs (fn t)) \/ x = b) /\
             entry_bb (fn t') = entry_bb (fn t) /\
             exit_bb (fn t') = exit_bb (fn t) /\
             bb t' = bb t /\ cont_bb t' = cont_bb t /\
             break_bb t' = break_bb t /\ blocks t' = blocks t /\
             next_bb_id t' = next_bb_id t /\ exps t' = exps t /\
             errors t' = errors t.
Proof.
  unfold fn_add_basic_blk.
  destruct (mem_bb b (fn_bbs (fn t))) eqn:Hm.
  - exists t. apply mem_bb_In in Hm. repeat split; auto using incl_refl.
  - eexists. split; [reflexivity |]. cbn.
    split; [apply in_or_app; right; apply in_eq |].
    split; [apply incl_appl, incl_refl |].
    split; [| repeat split].
    intros x Hx. apply in_app_or in Hx. destruct Hx as [Hx | [Hx | []]]; auto.
Qed.

Lemma stmt_enter_ok `{TE : TransExp} (s : ast_stmt_t) (t : trans_t) :
  exists t0 b, stmt_enter s t = Ok t0 /\ bb t0 = Some b.
Proof.
  unfold stmt_enter.
  destruct (stmt_label_bb s) as [l |]; destruct (bb t) as [b |] eqn:Hb; cbn.
  - rewrite Hb.
    match goal with
    | |- context [fn_add_basic_blk (Some b) ?t1] =>
        destruct (fn_add_basic_blk_spec b t1) as (t2 & -> & _)
    end.
    cbn. do 2 eexists. split; reflexivity.
  - do 2 eexists. split; reflexivity.
  - eauto.
  - do 2 eexists. split; reflexivity.
Qed.

Lemma stmt_enter_keeps `{TE : TransExp} (s : ast_stmt_t) (t t0 : trans_t) :
  stmt_enter s t = Ok t0 ->
  cont_bb t0 = cont_bb t /\ break_bb t0 = break_bb t.
Proof.
  unfold stmt_enter.
  destruct (stmt_label_bb s) as [l |]; destruct (bb t) as [b |] eqn:Hb; cbn.
  - rewrite Hb.
    match goal with
    | |- context [fn_add_basic_blk (Some b) ?t1] =>
        destruct (fn_add_basic_blk_spec b t1)
          as (t2 & -> & _ & _ & _ & _ & _ & _ & Hc & Hk & _)
    end.
    cbn. intros [= <-]. cbn. rewrite Hc, Hk. split; reflexivity.
  - intros [= <-]. split; reflexivity.
  - intros [= <-]. split; reflexivity.
  - intros [= <-]. split; reflexivity.
Qed.

(** [stmt_trans] is the entry into the statement followed by the handler
    of its kind. *)
Lemma stmt_trans_unfold `{TE : TransExp} (stmt : ast_stmt_t) (t : trans_t) :
  stmt_trans stmt t =
  do t <- stmt_enter stmt t;
  match stmt with
  | STMT_NULL _ => Ok t
  | STMT_EXP _ exp => stmt_trans_exp stmt exp t
  | STMT_ASSIGN _ l_exp r_exp => stmt_trans_assign stmt l_exp r_exp t
  | STMT_IF _ cond_exp if_blk elif_stmts else_blk =>
      stmt_trans_if cond_exp if_blk elif_stmts else_blk t
  | STMT_LOOP _ kind init_stmt blk =>
      stmt_trans_loop stmt kind init_stmt blk t
  | STMT_SWITCH _ blk has_dflt => stmt_trans_switch blk has_dflt t
  | STMT_CASE _ _ _ => Ok t
  | STMT_RETURN _ arg_exp => stmt_trans_return stmt arg_exp t
  | STMT_CONTINUE _ => stmt_trans_continue t
  | STMT_BREAK _ cond_exp => stmt_trans_break cond_exp t
  | STMT_GOTO _ jump_label_bb => stmt_trans_goto jump_label_bb t
  | STMT_DDL _ => stmt_trans_ddl stmt t
  | STMT_BLK _ blk => stmt_trans_blk blk t
  end.
Proof. destruct stmt; reflexivity. Qed.

(** C1, on the code.  The assignment [m[k] = v] to a map element is
    lowered to the assignment statement itself, appended unchanged to
    the current block, and emission answers NULL for it: no store is
    emitted, and no call to [map.set] either. *)
Theorem map_assign_emits_nothing :
  (exists t', stmt_trans map_assign map_ctx = Ok t' /\
              bb_stmts (blocks t' O) = [map_assign]) /\
  stmt_gen map_assign map_gen = Ok (map_gen, None) /\
  is_store (None : BinaryenExpressionRef) = false /\
  is_call (None : BinaryenExpressionRef) = false.
Proof.
  split; [| split; [| split]]; try reflexivity.
  eexists. split; vm_compute; reflexivity.
Qed.

(** X9. Emission answers NULL for every assignment whose left side carries
    a map-typed identifier, whatever expression emission does. *)
Lemma stmt_gen_assign_map `{GE : GenExp} (hd : stmt_hd) (l r : exp_ptr)
      (g : gen_t) (i : ast_id_t) :
  exp_id (gen_exps g l) = Some i ->
  is_map_meta (id_meta i) = true ->
  stmt_gen (STMT_ASSIGN hd l r) g = Ok (g, None).
Proof.
  intros Hid Hmap. cbn. unfold stmt_gen_assign. rewrite Hid, Hmap.
  reflexivity.
Qed.

(** Lowering appends an assignment whose left side is not a tuple
    unchanged, whatever expression lowering does. *)
Lemma stmt_trans_assign_plain `{TE : TransExp} (stmt : ast_stmt_t)
      (l r : exp_ptr) (t : trans_t) :
  let t1 := lower exp_trans_to_rval r (lower exp_trans_to_lval l t) in
  is_tuple_exp (exps t1 l) = false ->
  stmt_trans_assign stmt l r t = bb_add_stmt (bb t1) stmt t1.
Proof.
  intros t1 Hl. unfold stmt_trans_assign. fold t1. rewrite Hl. reflexivity.
Qed.

(** C2, on the code.  [(a, b, c) = (x, (y, z))]: for the value [x],
    which is not a tuple, the type of [x] is compared with the slot [a]
    and [x] is assigned to the slot [b], and the index moves on by two;
    then [y] is assigned to [c] and the slot for [z] lies beyond the
    left tuple, so the lowering stops.  No assignment to [a] is made. *)
Theorem tuple_assign_double_advance :
  (exists t1,
      assign_flatten (1, 1)%nat [0; 1; 2]%nat [3; 11]%nat 0
                     (O, open_ctx) = Ok (2%nat, t1) /\
      bb_stmts (blocks t1 O) = [stmt_new_assign 1%nat 3%nat (1, 1)%nat]) /\
  stmt_trans tuple_assign_flat open_ctx = Fatal ASSERT_array_index.
Proof.
  split.
  - eexists. split; vm_compute; reflexivity.
  - vm_compute. reflexivity.
Qed.

(** With tuples of the same length the assignments are made slot by
    slot. *)
Lemma tuple_assign_same_length :
  exists t', stmt_trans tuple_assign_same open_ctx = Ok t' /\
             bb_stmts (blocks t' O)
             = [stmt_new_assign 0 3 (1, 1); stmt_new_assign 1 4 (1, 1);
                stmt_new_assign 2 5 (1, 1)]%nat.
Proof. eexists. split; vm_compute; reflexivity. Qed.

(** C10. When the left side of an assignment is a tuple expression
    after lowering and the right side is not, lowering the assignment
    stops at the assertion on the right side; no state with an emitted
    assignment results. *)
Theorem tuple_assign_needs_tuple_rhs `{TE : TransExp} (stmt : ast_stmt_t)
        (l r : exp_ptr) (t : trans_t) :
  let t1 := lower exp_trans_to_rval r (lower exp_trans_to_lval l t) in
  is_tuple_exp (exps t1 l) = true ->
  is_tuple_exp (exps t1 r) = false ->
  stmt_trans_assign stmt l r t = Fatal ASSERT_tuple_rhs.
Proof.
  intros t1 Hl Hr. unfold stmt_trans_assign. fold t1.
  rewrite Hl, Hr. reflexivity.
Qed.

Lemma tuple_assign_needs_tuple_rhs_witness :
  stmt_trans_assign tuple_assign_call 10%nat 13%nat open_ctx
  = Fatal ASSERT_tuple_rhs.
Proof.
  apply (tuple_assign_needs_tuple_rhs tuple_assign_call 10%nat 13%nat
                                      open_ctx);
    vm_compute; reflexivity.
Defined.

Lemma tuple_assign_call_stops :
  stmt_trans tuple_assign_call open_ctx = Fatal ASSERT_tuple_rhs.
Proof. vm_compute. reflexivity. Qed.

(** Adding a block to the function writes the list of its blocks and
    nothing else. *)
Lemma fn_add_basic_blk_fields (b : bb_ptr) (t t' : trans_t) :
  fn_add_basic_blk (Some b) t = Ok t' ->
  is_lval t' = is_lval t /\ fn_types (fn t') = fn_types (fn t) /\
  heap_usage (fn t') = heap_usage (fn t) /\
  stack_usage (fn t') = stack_usage (fn t).
Proof.
  unfold fn_add_basic_blk.
  destruct (mem_bb b (fn_bbs (fn t))); intros [= <-]; repeat split.
Qed.

(** C6. A return statement is lowered in the block that is current once
    the statement is entered.  The argument, when there is one, is
    lowered there: the expression nodes, the lvalue flag, the piggyback
    statements of the block and the types and memory usage of the
    function are afterwards the ones that [exp_trans] answers for the
    argument in the entered context.  The return statement is appended
    to that block; the block gets an unguarded branch to the exit block
    of the function and is added to the function; no block is current
    afterwards; no other block is written to, no block is allocated, no
    error is reported and the jump targets stay.  Emission then answers
    one [Return] of the emitted argument. *)
Theorem return_lowering_and_emission `{TE : TransExp} `{GE : GenExp}
        (hd : stmt_hd) (arg_exp : option exp_ptr) (t : trans_t) (g : gen_t) :
  let stmt := STMT_RETURN hd arg_exp in
  exists t0 b t',
    stmt_enter stmt t = Ok t0 /\ bb t0 = Some b /\
    stmt_trans stmt t = Ok t' /\
    let t1 := match arg_exp with
              | Some a => lower exp_trans a t0
              | None => t0
              end in
    bb t' = None /\
    bb_stmts (blocks t' b) = bb_stmts (blocks t1 b) ++ [stmt] /\
    bb_brs (blocks t' b)
    = bb_brs (blocks t1 b) ++ [mk_br None (exit_bb (fn t1))] /\
    In b (fn_bbs (fn t')) /\
    (forall x, x <> b -> blocks t' x = blocks t1 x) /\
    (exps t' = exps t1 /\ is_lval t' = is_lval t1 /\
     bb_pgbacks (blocks t' b) = bb_pgbacks (blocks t1 b) /\
     fn_types (fn t') = fn_types (fn t1) /\
     heap_usage (fn t') = heap_usage (fn t1) /\
     stack_usage (fn t') = stack_usage (fn t1)) /\
    (forall a, arg_exp = Some a ->
               let cx := exp_trans (ctx_of t0) a in
               exps t' = cx_exps cx /\ is_lval t' = cx_is_lval cx /\
               bb_pgbacks (blocks t' b) = cx_pgbacks cx /\
               fn_types (fn t') = cx_types cx /\
               heap_usage (fn t') = cx_heap_usage cx /\
               stack_usage (fn t') = cx_stack_usage cx) /\
    (arg_exp = None ->
     exps t' = exps t0 /\ is_lval t' = is_lval t0 /\
     bb_pgbacks (blocks t' b) = bb_pgbacks (blocks t0 b)) /\
    (next_bb_id t' = next_bb_id t0 /\ errors t' = errors t0 /\
     cont_bb t' = cont_bb t0 /\ break_bb t' = break_bb t0) /\
    stmt_gen stmt g
    = Ok (fst (exp_gen g arg_exp),
          Some (BinaryenReturn (snd (exp_gen g arg_exp)))).
Proof.
  intros stmt.
  destruct (stmt_enter_ok stmt t) as (t0 & b & He & Hb).
  set (t1 := match arg_exp with
             | Some a => lower exp_trans a t0
             | None => t0
             end).
  assert (Hb1 : bb t1 = Some b).
  { subst t1. destruct arg_exp; [| assumption].
    unfold lower, ctx_put. rewrite Hb. cbn. assumption. }
  set (t2 := set_blocks
               (upd (blocks t1) b
                    (mk_bb (bb_stmts (blocks t1 b) ++ [stmt])
                           (bb_brs (blocks t1 b)) (bb_pgbacks (blocks t1 b))))
               t1).
  set (t3 := set_blocks
               (upd (blocks t2) b
                    (mk_bb (bb_stmts (blocks t2 b))
                           (bb_brs (blocks t2 b)
                              ++ [mk_br None (exit_bb (fn t2))])
                           (bb_pgbacks (blocks t2 b))))
               t2).
  destruct (fn_add_basic_blk_spec b t3)
    as (t4 & H4 & Hin & _ & _ & _ & _ & Hbb4 & Hc4 & Hk4 & Hblk4 & Hn4
        & Hex4 & Her4).
  destruct (fn_add_basic_blk_fields b t3 t4 H4) as (Hl4 & Hty4 & Hh4 & Hs4).
  exists t0, b, (set_bb None t4).
  split; [exact He |]. split; [exact Hb |].
  split.
  { rewrite stmt_trans_unfold, He. cbn [bind].
    change (stmt_trans_return stmt arg_exp t0 = Ok (set_bb None t4)).
    unfold stmt_trans_return.
    change (match arg_exp with
            | Some a => lower exp_trans a t0
            | None => t0
            end) with t1. rewrite Hb1. cbn [bb_add_stmt bind].
    fold t2. change (bb t2) with (bb t1). rewrite Hb1.
    cbn [bb_add_branch bind]. fold t3. change (bb t3) with (bb t1).
    rewrite Hb1, H4. reflexivity. }
  cbn zeta. fold t1.
  cbn [bb blocks set_bb fn exps is_lval next_bb_id errors cont_bb break_bb].
  rewrite Hblk4, Hex4, Hl4, Hty4, Hh4, Hs4, Hn4, Her4, Hc4, Hk4.
  assert (Hblk : blocks t3 b
                 = mk_bb (bb_stmts (blocks t1 b) ++ [stmt])
                         (bb_brs (blocks t1 b)
                            ++ [mk_br None (exit_bb (fn t1))])
                         (bb_pgbacks (blocks t1 b))).
  { subst t3 t2. cbn [blocks set_blocks fn]. rewrite !upd_same. reflexivity. }
  assert (Hoth : forall x, x <> b -> blocks t3 x = blocks t1 x).
  { intros x Hx. subst t3 t2. cbn [blocks set_blocks].
    rewrite !upd_other by assumption. reflexivity. }
  assert (Hfld : exps t3 = exps t1 /\ is_lval t3 = is_lval t1 /\
                 fn t3 = fn t1 /\ next_bb_id t3 = next_bb_id t1 /\
                 errors t3 = errors t1 /\ cont_bb t3 = cont_bb t1 /\
                 break_bb t3 = break_bb t1) by (repeat split).
  destruct Hfld as (Hex & Hlv & Hfn & Hnx & Her & Hco & Hbr).
  rewrite Hblk, Hex, Hlv, Hfn, Hnx, Her, Hco, Hbr.
  cbn [bb_stmts bb_brs bb_pgbacks].
  split; [reflexivity |]. split; [reflexivity |]. split; [reflexivity |].
  split; [exact Hin |]. split; [exact Hoth |].
  split; [repeat split |].
  split.
  { intros a ->. subst t1. unfold lower, ctx_put. rewrite Hb. cbn.
    rewrite upd_same. repeat split. }
  split.
  { intros ->. subst t1. repeat split. }
  split.
  { subst t1. destruct arg_exp as [a |]; [| repeat split].
    unfold lower, ctx_put. rewrite Hb. repeat split. }
  subst stmt. cbn [stmt_gen]. unfold stmt_gen_return.
  destruct (exp_gen g arg_exp). reflexivity.
Qed.

(** C8. Lowering an array loop reports the not-supported error at the
    position of the statement and changes nothing else: the function,
    every block and the current block are as before.  Through
    [stmt_trans] the same holds from the state in which the statement
    is entered. *)
Theorem array_loop_not_supported `{TE : TransExp} (hd : stmt_hd)
        (init_stmt : option ast_stmt_t) (blk : list ast_stmt_t)
        (t : trans_t) :
  let stmt := STMT_LOOP hd LOOP_ARRAY init_stmt blk in
  (exists t', stmt_trans_loop stmt LOOP_ARRAY init_stmt blk t = Ok t' /\
              errors t' = errors t ++ [(ERROR_NOT_SUPPORTED, pos hd)] /\
              fn t' = fn t /\ blocks t' = blocks t /\ bb t' = bb t /\
              next_bb_id t' = next_bb_id t) /\
  (exists t0, stmt_enter stmt t = Ok t0 /\
              stmt_trans stmt t
              = Ok (ERROR ERROR_NOT_SUPPORTED (pos hd) t0)).
Proof.
  intros stmt. split.
  - eexists. split; [reflexivity |]. cbn. repeat split.
  - destruct (stmt_enter_ok stmt t) as (t0 & b & He & _).
    exists t0. split; [exact He |].
    rewrite stmt_trans_unfold, He. reflexivity.
Qed.

End StmtFacts.

(* ------------------------------------------------------------------ *)
(** ** The statements lowering visits *)
(* ------------------------------------------------------------------ *)

Module LoweredFacts.
Import Examples.
Import StmtFacts.

Lemma lowered_list_cons (s : ast_stmt_t) (l : list ast_stmt_t) :
  lowered_list (s :: l) = lowered s ++ lowered_list l.
Proof. reflexivity. Qed.

Lemma lowered_unfold (s : ast_stmt_t) :
  lowered s =
  s :: match s with
       | STMT_IF _ _ ib el eb =>
           lowered_list (olist ib) ++ lowered_elifs el
                        ++ lowered_list (olist eb)
       | STMT_LOOP _ LOOP_FOR i b =>
           match i with Some x => lowered x | None => [] end
           ++ lowered_list b
       | STMT_SWITCH _ b _ => lowered_cases b
       | STMT_BLK _ (Some b) => lowered_list b
       | _ => []
       end.
Proof.
  assert (Hmany : forall l,
             (fix many (l : list ast_stmt_t) : list ast_stmt_t :=
                match l with
                | [] => []
                | x :: r => lowered x ++ many r
                end) l = lowered_list l).
  { induction l as [| x r IH]; [reflexivity |].
    rewrite lowered_list_cons, <- IH. reflexivity. }
  destruct s as [ | | | hd c ib el eb | hd k i b | hd b d | | | | | | | hd b];
    try reflexivity.
  - cbn [lowered]. f_equal. f_equal; [| f_equal].
    + destruct ib; [apply Hmany | reflexivity].
    + induction el as [| e r IH]; [reflexivity |].
      destruct e as [ | | | hd' c' ib' el' eb' | | | | | | | | | ];
        try exact IH.
      cbn [lowered_elifs flat_map]. fold (lowered_elifs r). rewrite IH.
      f_equal.
      destruct ib'; [apply Hmany | reflexivity].
    + destruct eb; [apply Hmany | reflexivity].
  - cbn [lowered]. f_equal.
    induction b as [| e r IH]; [reflexivity |].
    destruct e as [ | | | | | | hd' v' ss' | | | | | | ]; try exact IH.
    cbn [lowered_cases flat_map]. fold (lowered_cases r). rewrite IH.
    reflexivity.
Qed.

Lemma Forall_flat_map {A B : Type} (f : A -> list B) (Q : B -> Prop)
      (l : list A) :
  Forall Q (flat_map f l) <-> Forall (fun a => Forall Q (f a)) l.
Proof.
  induction l as [| a l IH]; cbn.
  - split; constructor.
  - rewrite Forall_app, IH. split.
    + intros [Ha Hl]. constructor; assumption.
    + intros H. inversion H; subst. split; assumption.
Qed.

Section every_facts.
Variable phi : ast_stmt_t -> Prop.

Lemma every_self (s : ast_stmt_t) : every phi s -> phi s.
Proof.
  unfold every. rewrite lowered_unfold. intros H. inversion H; assumption.
Qed.

Lemma every_list (l : list ast_stmt_t) :
  Forall phi (lowered_list l) <-> Forall (every phi) l.
Proof. unfold lowered_list. apply Forall_flat_map. Qed.

Lemma every_olist (b : option (list ast_stmt_t)) :
  Forall phi (lowered_list (olist b)) -> PB (every phi) b.
Proof. destruct b; cbn; [apply every_list | trivial]. Qed.

Lemma every_under_elifs (l : list ast_stmt_t) :
  Forall phi (lowered_elifs l) -> Forall (under_if (every phi)) l.
Proof.
  unfold lowered_elifs. rewrite Forall_flat_map.
  apply Forall_impl. intros e He. destruct e; cbn; trivial.
  apply every_olist. assumption.
Qed.

Lemma every_under_cases (l : list ast_stmt_t) :
  Forall phi (lowered_cases l) -> Forall (under_case (every phi)) l.
Proof.
  unfold lowered_cases. rewrite Forall_flat_map.
  apply Forall_impl. intros e He. destruct e; cbn; trivial.
  apply every_list. assumption.
Qed.

Lemma every_if hd c ib el eb :
  every phi (STMT_IF hd c ib el eb) ->
  PB (every phi) ib /\ Forall (under_if (every phi)) el /\
  PB (every phi) eb.
Proof.
  unfold every. rewrite lowered_unfold, Forall_cons_iff, !Forall_app.
  intros (_ & H1 & H2 & H3).
  auto using every_olist, every_under_elifs.
Qed.

Lemma every_for hd i b :
  every phi (STMT_LOOP hd LOOP_FOR i b) ->
  match i with Some s => every phi s | None => True end /\
  Forall (every phi) b.
Proof.
  unfold every. rewrite lowered_unfold, Forall_cons_iff, Forall_app.
  intros (_ & H1 & H2).
  split; [destruct i; trivial | apply every_list; assumption].
Qed.

Lemma every_switch hd b d :
  every phi (STMT_SWITCH hd b d) -> Forall (under_case (every phi)) b.
Proof.
  unfold every. rewrite lowered_unfold, Forall_cons_iff.
  intros (_ & H1). auto using every_under_cases.
Qed.

Lemma every_blk hd b :
  every phi (STMT_BLK hd b) -> PB (every phi) b.
Proof.
  unfold every. rewrite lowered_unfold, Forall_cons_iff.
  intros (_ & H1). destruct b; cbn; [apply every_list; assumption | trivial].
Qed.

End every_facts.

Lemma every_impl (phi psi : ast_stmt_t -> Prop) (s : ast_stmt_t) :
  (forall x, phi x -> psi x) -> every phi s -> every psi s.
Proof. intros H. unfold every. apply Forall_impl. assumption. Qed.

End LoweredFacts.

(* ------------------------------------------------------------------ *)
(** ** The footprint of lowering *)
(* ------------------------------------------------------------------ *)

Module FrameFacts.
Import Examples.
Import StmtFacts.
Import LoweredFacts.

Ltac inv_bind H :=
  let t := fresh "t" in
  let E := fresh "E" in
  apply bind_ok in H; destruct H as (t & E & H).

Lemma bb_new_eq (t : trans_t) :
  bb_new t = (next_bb_id t, snd (bb_new t)).
Proof. reflexivity. Qed.

Section unfoldings.
Context `{TE : TransExp}.
Variable rec : ast_stmt_t -> trans_t -> result trans_t.

Lemma stmts_trans_cons s r t :
  stmts_trans_ rec (s :: r) t = (do t1 <- rec s t; stmts_trans_ rec r t1).
Proof. reflexivity. Qed.

Lemma elif_arms_cons prev next e r t :
  elif_arms_ rec prev next (e :: r) t =
  match e with
  | STMT_IF _ cond_exp if_blk _ _ =>
      do t1 <- if_arm_ rec prev next (Some cond_exp) if_blk t;
      elif_arms_ rec prev next r t1
  | _ => Fatal ASSERT_invalid_stmt
  end.
Proof. destruct e; reflexivity. Qed.

Lemma switch_cases_cons prev next e r t :
  switch_cases_ rec prev next (e :: r) t =
  match e with
  | STMT_CASE _ val_exp stmts =>
      do t <- bb_add_branch prev val_exp (bb t) t;
      do t <- stmts_trans_ rec stmts
                (match val_exp with
                 | Some v => lower exp_trans v t
                 | None => t
                 end);
      do t <- case_close next r t;
      switch_cases_ rec prev next r t
  | _ => Fatal ASSERT_invalid_stmt
  end.
Proof. destruct e; reflexivity. Qed.

End unfoldings.

Lemma for_range_preserves {S : Type} (Q : S -> Prop)
      (body : nat -> S -> result S) :
  (forall i s s', body i s = Ok s' -> Q s -> Q s') ->
  forall k i s s', for_range i k body s = Ok s' -> Q s -> Q s'.
Proof.
  intros Hbody. induction k as [| k IH]; intros i s s' H HQ; cbn in H.
  - injection H as <-. assumption.
  - inv_bind H. eauto.
Qed.

Lemma stmts_trans_preserves `{TE : TransExp} (Q : trans_t -> Prop)
      (l : list ast_stmt_t) :
  Forall (fun s => forall t t', stmt_trans s t = Ok t' -> Q t -> Q t') l ->
  forall t t', stmts_trans l t = Ok t' -> Q t -> Q t'.
Proof.
  induction 1 as [| s l Hs Hl IH]; intros t t' H HQ; cbn in H.
  - injection H as <-. assumption.
  - inv_bind H. eauto.
Qed.

Lemma lower_bb `{TE : TransExp} f e t : bb (lower f e t) = bb t.
Proof.
  unfold lower, ctx_put. destruct (bb t) eqn:E; cbn; rewrite ?E; reflexivity.
Qed.
Lemma lower_cont_bb `{TE : TransExp} f e t :
  cont_bb (lower f e t) = cont_bb t.
Proof.
  unfold lower, ctx_put. destruct (bb t) eqn:E; cbn; rewrite ?E; reflexivity.
Qed.
Lemma lower_break_bb `{TE : TransExp} f e t :
  break_bb (lower f e t) = break_bb t.
Proof.
  unfold lower, ctx_put. destruct (bb t) eqn:E; cbn; rewrite ?E; reflexivity.
Qed.
Lemma lower_next_bb_id `{TE : TransExp} f e t :
  next_bb_id (lower f e t) = next_bb_id t.
Proof.
  unfold lower, ctx_put. destruct (bb t) eqn:E; cbn; rewrite ?E; reflexivity.
Qed.
Lemma lower_errors `{TE : TransExp} f e t : errors (lower f e t) = errors t.
Proof.
  unfold lower, ctx_put. destruct (bb t) eqn:E; cbn; rewrite ?E; reflexivity.
Qed.
Lemma lower_fn_bbs `{TE : TransExp} f e t :
  fn_bbs (fn (lower f e t)) = fn_bbs (fn t) /\
  entry_bb (fn (lower f e t)) = entry_bb (fn t) /\
  exit_bb (fn (lower f e t)) = exit_bb (fn t).
Proof. unfold lower, ctx_put. destruct (bb t) eqn:E; repeat split. Qed.

(** Expression lowering leaves the statements and the branches of every
    block as they are. *)
Lemma lower_blocks `{TE : TransExp} f e t b :
  bb_stmts (blocks (lower f e t) b) = bb_stmts (blocks t b) /\
  bb_brs (blocks (lower f e t) b) = bb_brs (blocks t b) /\
  (bb t <> Some b -> blocks (lower f e t) b = blocks t b).
Proof.
  unfold lower, ctx_put. destruct (bb t) as [p |] eqn:E; cbn; [| tauto].
  destruct (Nat.eq_dec b p) as [-> | Hne].
  - rewrite upd_same. cbn. repeat split. congruence.
  - rewrite upd_other by assumption. repeat split.
Qed.

Section frame.
Context `{TE : TransExp}.
Variables (L : list bb_ptr) (n : nat) (c : option bb_ptr)
          (B : bb_ptr -> ir_bb_t).

#[local] Abbreviation FI := (frame_inv L n c B).
#[local] Abbreviation OK := (allowed L n c).

Lemma fi_cur_allowed v w t : FI v w t -> OK (bb t).
Proof. intros H b Hb. eapply fi_cur; eauto. Qed.

Lemma fi_write v w t p x :
  FI v w t -> OK (Some p) -> FI v w (set_blocks (upd (blocks t) p x) t).
Proof.
  intros [H1 H2 H3 H4 H5] Hp. constructor; cbn; auto.
  intros b Hb Hc Hl. rewrite upd_other; auto.
  intros ->. destruct (Hp p eq_refl) as [? | [? | ?]];
    [contradiction | contradiction | lia].
Qed.

Lemma fi_bb_add_stmt v w b s t t' :
  bb_add_stmt b s t = Ok t' -> FI v w t -> OK b -> FI v w t'.
Proof.
  destruct b; cbn; [| discriminate]. intros [= <-] H Hb.
  apply fi_write; assumption.
Qed.

Lemma fi_bb_add_branch v w b cexp tg t t' :
  bb_add_branch b cexp tg t = Ok t' -> FI v w t -> OK b -> FI v w t'.
Proof.
  destruct b, tg; cbn; try discriminate. intros [= <-] H Hb.
  apply fi_write; assumption.
Qed.

Lemma fi_fn_add v w b t t' :
  fn_add_basic_blk b t = Ok t' -> FI v w t -> FI v w t'.
Proof.
  destruct b as [b |]; [| discriminate].
  destruct (fn_add_basic_blk_spec b t)
    as (t2 & -> & _ & _ & _ & _ & _ & Hb & Hc & Hk & Hbl & Hn & _).
  intros [= <-] [H1 H2 H3 H4 H5].
  constructor; rewrite ?Hb, ?Hc, ?Hk, ?Hbl, ?Hn; assumption.
Qed.

Lemma fi_bb_new v w t :
  FI v w t -> FI v w (snd (bb_new t)) /\ OK (Some (next_bb_id t)).
Proof.
  intros [H1 H2 H3 H4 H5].
  assert (Hok : OK (Some (next_bb_id t))).
  { intros b [= <-]. auto. }
  split; [| exact Hok].
  constructor; cbn; auto.
  intros b Hb Hc Hl. rewrite upd_other by lia. auto.
Qed.

Lemma fi_set_bb v w t p : FI v w t -> OK p -> FI v w (set_bb p t).
Proof. intros [H1 H2 H3 H4 H5] Hp. constructor; cbn; auto. Qed.

Lemma fi_set_is_lval v w t x : FI v w t -> FI v w (set_is_lval x t).
Proof. intros [H1 H2 H3 H4 H5]. constructor; cbn; auto. Qed.

Lemma fi_ERROR v w t ec p : FI v w t -> FI v w (ERROR ec p t).
Proof. intros [H1 H2 H3 H4 H5]. constructor; cbn; auto. Qed.

Lemma fi_set_jumps v w v' w' t x y :
  FI v w t -> (x = v' \/ x = None) -> (y = w' \/ y = None) ->
  FI v' w' (set_break_bb y (set_cont_bb x t)).
Proof. intros [H1 H2 H3 H4 H5] Hx Hy. constructor; cbn; auto. Qed.

Lemma fi_lower v w f e t : FI v w t -> FI v w (lower f e t).
Proof.
  intros H. pose proof (fi_cur_allowed _ _ _ H) as Hcur.
  destruct H as [H1 H2 H3 H4 H5].
  constructor; rewrite ?lower_bb, ?lower_cont_bb, ?lower_break_bb,
                 ?lower_next_bb_id; auto.
  intros b Hb Hc Hl.
  destruct (lower_blocks f e t b) as (_ & _ & Hsame).
  rewrite Hsame; auto.
  intros Hcurb. destruct (Hcur b Hcurb) as [? | [? | ?]];
    [contradiction | contradiction | lia].
Qed.

Lemma fi_ASSERT v w cnd f t t' :
  ASSERT cnd f t = Ok t' -> FI v w t -> FI v w t'.
Proof. unfold ASSERT. destruct cnd; [intros [= <-]; auto | discriminate]. Qed.

End frame.

(** From the invariant of a state and one step on it, the invariant of
    the next state. *)
Ltac fi_fwd :=
  repeat match goal with
  | H : bind _ _ = Ok _ |- _ => inv_bind H
  | H : Ok _ = Ok _ |- _ => inversion H; subst; clear H
  | H : array_get_exp _ _ = Ok _ |- _ => clear H
  | H : ASSERT _ _ ?t = Ok ?t', HF : frame_inv ?L ?n ?c ?B ?v ?w ?t |- _ =>
      assert (frame_inv L n c B v w t')
        by (eapply fi_ASSERT; [exact H | exact HF]);
      clear H
  | H : bb_add_stmt _ _ ?t = Ok ?t', HF : frame_inv ?L ?n ?c ?B ?v ?w ?t
    |- _ =>
      assert (frame_inv L n c B v w t')
        by (eapply fi_bb_add_stmt;
            [exact H | exact HF
             | first [assumption | eapply fi_cur_allowed; eassumption
                      | intros ? _; right; right; lia]]);
      clear H
  | H : bb_add_branch _ _ _ ?t = Ok ?t', HF : frame_inv ?L ?n ?c ?B ?v ?w ?t
    |- _ =>
      assert (frame_inv L n c B v w t')
        by (eapply fi_bb_add_branch;
            [exact H | exact HF
             | first [assumption | eapply fi_cur_allowed; eassumption
                      | intros ? _; right; right; lia]]);
      clear H
  | H : fn_add_basic_blk _ ?t = Ok ?t', HF : frame_inv ?L ?n ?c ?B ?v ?w ?t
    |- _ =>
      assert (frame_inv L n c B v w t')
        by (eapply fi_fn_add; [exact H | exact HF]);
      clear H
  end.

Section frame_stmts.
Context `{TE : TransExp}.
Variables (L : list bb_ptr) (n : nat) (c : option bb_ptr)
          (B : bb_ptr -> ir_bb_t).

#[local] Abbreviation FI := (frame_inv L n c B).
#[local] Abbreviation OK := (allowed L n c).

Lemma fi_stmt_enter v w s t t' :
  stmt_enter s t = Ok t' -> labelled_in L s -> FI v w t -> FI v w t'.
Proof.
  unfold stmt_enter, labelled_in, own_label. intros H Hl HF.
  assert (Hcur := fi_cur_allowed _ _ _ _ _ _ _ HF).
  destruct (stmt_label_bb s) as [l |].
  - assert (Hokl : OK (Some l)).
    { intros b [= <-]. right. left. apply Hl. apply in_eq. }
    destruct (bb t) eqn:Hb; fi_fwd; apply fi_set_bb; assumption.
  - destruct (bb t) eqn:Hb.
    + fi_fwd. assumption.
    + rewrite bb_new_eq in H. fi_fwd.
      destruct (fi_bb_new _ _ _ _ _ _ _ HF) as [HF1 Hok].
      apply fi_set_bb; assumption.
Qed.

Lemma fi_stmt_trans_exp v w stmt e t t' :
  stmt_trans_exp stmt e t = Ok t' -> FI v w t -> FI v w t'.
Proof.
  unfold stmt_trans_exp. intros H HF. cbv zeta in H.
  assert (HF1 : FI v w (set_is_lval false (lower exp_trans_to_lval e t))).
  { apply fi_set_is_lval, fi_lower, HF. }
  set (t1 := set_is_lval false (lower exp_trans_to_lval e t)) in *.
  assert (Hcur := fi_cur_allowed _ _ _ _ _ _ _ HF1).
  destruct (is_call_exp (exps t1 e)).
  - fi_fwd. assumption.
  - destruct (bb t1) as [p |] eqn:Hp; [| discriminate].
    destruct (has_piggyback (blocks t1 p)); fi_fwd; auto.
    apply (fi_write L n c B v w t1 p); assumption.
Qed.

Lemma fi_stmt_trans_assign v w stmt l r t t' :
  stmt_trans_assign stmt l r t = Ok t' -> FI v w t -> FI v w t'.
Proof.
  unfold stmt_trans_assign. intros H HF. cbv zeta in H.
  assert (HF1 : FI v w (lower exp_trans_to_rval r
                              (lower exp_trans_to_lval l t))).
  { apply fi_lower, fi_lower, HF. }
  set (t1 := lower exp_trans_to_rval r (lower exp_trans_to_lval l t)) in *.
  clearbody t1. clear HF.
  destruct (is_tuple_exp (exps t1 l)); [| fi_fwd; assumption].
  inv_bind H. fi_fwd.
  destruct (_ =? _)%nat.
  - eapply (for_range_preserves (FI v w)); [| eassumption | assumption].
    intros i s s' Hb Hs. unfold assign_pairwise in Hb. fi_fwd. assumption.
  - inv_bind H. fi_fwd.
    eapply (for_range_preserves (fun st => FI v w (snd st)));
      [| eassumption | assumption].
    intros i [k s] [k' s'] Hb Hs. cbn [snd] in *.
    unfold assign_flatten in Hb. inv_bind Hb.
    destruct (is_tuple_type _).
    + change (FI v w (snd (k', s'))).
      eapply (for_range_preserves (fun st => FI v w (snd st)));
        [| eassumption | assumption].
      intros j [k1 s1] [k2 s2] Hb' Hs1. cbn [snd] in *.
      unfold assign_flatten_elem in Hb'. fi_fwd. assumption.
    + fi_fwd. assumption.
Qed.

End frame_stmts.
End FrameFacts.

Module FrameThm.
Import Examples.
Import StmtFacts.
Import LoweredFacts.
Import FrameFacts.

(** The forward step extended with expression lowering and with
    functions already known to keep the invariant. *)
Ltac fi_more :=
  repeat first [progress fi_fwd |
    match goal with
    | H : context [lower ?f ?e ?t], HF : frame_inv ?L ?n ?c ?B ?v ?w ?t
      |- _ =>
        lazymatch goal with
        | _ : frame_inv L n c B v w (lower f e t) |- _ => fail
        | _ => assert (frame_inv L n c B v w (lower f e t))
                 by (apply fi_lower; exact HF)
        end
    | H : _ = Ok ?t', HF : frame_inv ?L ?n ?c ?B ?v ?w ?t |- _ =>
        assert (frame_inv L n c B v w t')
          by (match goal with
              | IH : forall _ _ _ _, _ -> _ -> _ |- _ =>
                  eapply IH; [exact H | exact HF]
              end);
        clear H
    end].

Lemma under_case_all (P : ast_stmt_t -> Prop) (l : list ast_stmt_t) :
  (forall s, P s) -> Forall (under_case P) l.
Proof.
  intros HP. apply Forall_forall. intros x _. destruct x; cbn; trivial.
  apply Forall_forall. intros y _. apply HP.
Qed.

(** With the base address 0 the footprint constrains nothing. *)
Lemma frame_inv_trivial (L : list bb_ptr) (B : bb_ptr -> ir_bb_t)
      (t : trans_t) :
  frame_inv L O None B (cont_bb t) (break_bb t) t.
Proof.
  constructor; auto.
  - lia.
  - intros b _. right. right. lia.
  - intros b Hb. lia.
Qed.

Section frame_thm.
Context `{TE : TransExp}.
Variables (L : list bb_ptr) (n : nat) (c : option bb_ptr)
          (B : bb_ptr -> ir_bb_t).

#[local] Abbreviation FI := (frame_inv L n c B).
#[local] Abbreviation OK := (allowed L n c).
#[local] Abbreviation keeps f :=
  (forall v w t t', f t = Ok t' -> FI v w t -> FI v w t').
#[local] Abbreviation FP :=
  (fun s => every (labelled_in L) s -> keeps (stmt_trans s)).

Lemma fi_stmts (l : list ast_stmt_t) :
  Forall FP l -> Forall (every (labelled_in L)) l -> keeps (stmts_trans l).
Proof.
  induction l as [| s l IH]; intros HP HE v w t t' H HF.
  - cbn in H. fi_fwd. assumption.
  - inversion HP; subst. inversion HE; subst.
    unfold stmts_trans in H. rewrite stmts_trans_cons in H. inv_bind H.
    eapply IH; eauto.
Qed.

Lemma fi_blk_opt (b : option (list ast_stmt_t)) :
  PB FP b -> PB (every (labelled_in L)) b ->
  keeps (fun t => match b with
                  | Some l => blk_trans l t
                  | None => Ok t
                  end).
Proof.
  intros HP HE v w t t' H HF. destruct b as [l |].
  - eapply fi_stmts; eauto.
  - fi_fwd. assumption.
Qed.

Lemma fi_fresh v w t :
  FI v w t -> FI v w (set_bb (Some (next_bb_id t)) (snd (bb_new t))).
Proof.
  intros HF. destruct (fi_bb_new _ _ _ _ _ _ _ HF) as [H1 H2].
  apply fi_set_bb; assumption.
Qed.

Lemma fi_if_arm prev next cond blk :
  PB FP blk -> PB (every (labelled_in L)) blk -> OK prev ->
  keeps (if_arm_ stmt_trans prev next cond blk).
Proof.
  intros HP HE Hprev v w t t' H HF.
  pose proof (fi_blk_opt blk HP HE) as Hblk.
  unfold if_arm_ in H. rewrite bb_new_eq in H. cbv beta iota zeta in H.
  pose proof (fi_fresh _ _ _ HF) as HF1.
  destruct cond; fi_more; assumption.
Qed.

Lemma fi_elifs prev next el :
  Forall (under_if FP) el -> Forall (under_if (every (labelled_in L))) el ->
  OK prev -> keeps (elif_arms_ stmt_trans prev next el).
Proof.
  induction el as [| e el IH]; intros HP HE Hprev v w t t' H HF.
  - cbn in H. fi_fwd. assumption.
  - inversion HP; subst. inversion HE; subst.
    rewrite elif_arms_cons in H. destruct e; try discriminate. inv_bind H.
    cbn [under_if] in *.
    eapply IH; try eassumption.
    eapply fi_if_arm; try eassumption.
Qed.

Lemma fi_if cond ib el eb :
  PB FP ib -> Forall (under_if FP) el -> PB FP eb ->
  PB (every (labelled_in L)) ib ->
  Forall (under_if (every (labelled_in L))) el ->
  PB (every (labelled_in L)) eb ->
  keeps (stmt_trans_if cond ib el eb).
Proof.
  intros P1 P2 P3 E1 E2 E3 v w t t' H HF.
  unfold stmt_trans_if, stmt_trans_if_ in H.
  rewrite bb_new_eq in H. cbv beta iota zeta in H.
  assert (Hprev := fi_cur_allowed _ _ _ _ _ _ _ HF).
  destruct (fi_bb_new _ _ _ _ _ _ _ HF) as [HF1 Hnext].
  pose proof (fi_if_arm (bb t) (next_bb_id t) (Some cond) ib P1 E1 Hprev)
    as Harm.
  pose proof (fi_elifs (bb t) (next_bb_id t) el P2 E2 Hprev) as Helif.
  destruct eb as [l |];
    [pose proof (fi_if_arm (bb t) (next_bb_id t) None (Some l) P3 E3 Hprev)
      as Helse |];
    fi_more; apply fi_set_bb; assumption.
Qed.

Lemma fi_for init blk :
  match init with Some s => FP s | None => True end -> Forall FP blk ->
  match init with
  | Some s => every (labelled_in L) s
  | None => True
  end ->
  Forall (every (labelled_in L)) blk ->
  keeps (stmt_trans_for_loop init blk).
Proof.
  intros P1 P2 E1 E2 v w t t' H HF.
  unfold stmt_trans_for_loop, stmt_trans_for_loop_ in H.
  rewrite bb_new_eq in H. cbv beta iota zeta in H.
  rewrite bb_new_eq in H. cbv beta iota zeta in H.
  assert (Hprev := fi_cur_allowed _ _ _ _ _ _ _ HF).
  destruct (fi_bb_new _ _ _ _ _ _ _ HF) as [HF1 Hcond].
  destruct (fi_bb_new _ _ _ _ _ _ _ HF1) as [HF2 Hnext].
  assert (Hnext' : OK (Some (next_bb_id t))).
  { intros b [= <-]. apply (Hcond _ eq_refl). }
  clear HF HF1.
  assert (Hinit : keeps (fun t => match init with
                                  | Some s => stmt_trans s t
                                  | None => Ok t
                                  end)).
  { intros v0 w0 t0 t0' H0 HF0.
    destruct init as [s |]; [eapply P1; eauto | fi_fwd; assumption]. }
  inv_bind H. eapply Hinit in E; [| exact HF2]. clear Hinit HF2.
  fi_fwd.
  match goal with
  | E : blk_trans_ _ _ ?tb = Ok _ |- _ =>
      assert (HFb : FI (Some (next_bb_id t))
                       (Some (next_bb_id (snd (bb_new t)))) tb)
        by (apply fi_set_jumps with (v := v) (w := w); auto;
            apply fi_set_bb; assumption);
      eapply (fi_stmts blk P2 E2) in E; [| exact HFb]; clear HFb
  end.
  match goal with
  | E : FI _ _ ?tb |- _ =>
      assert (HFe : FI v w (set_break_bb None (set_cont_bb None tb)))
        by (eapply fi_set_jumps; eauto);
      clear E
  end.
  assert (Hcur := fi_cur_allowed _ _ _ _ _ _ _ HFe).
  cbn [bb set_break_bb set_cont_bb] in *.
  destruct (bb _); fi_fwd; apply fi_set_bb; assumption.
Qed.

Lemma fi_case_close next rest :
  keeps (case_close next rest).
Proof.
  intros v w t t' H HF. unfold case_close in H.
  assert (Hcur := fi_cur_allowed _ _ _ _ _ _ _ HF).
  destruct (fi_bb_new _ _ _ _ _ _ _ HF) as [HF1 Hfresh].
  destruct (bb t) eqn:Hb, rest; try rewrite bb_new_eq in H;
    cbv beta iota zeta in H; cbn [bb set_bb snd bb_new] in H;
    try rewrite Hb in H; fi_fwd;
    try (apply fi_set_bb; [| assumption]); assumption.
Qed.

Lemma fi_switch_cases prev next l :
  Forall (under_case FP) l ->
  Forall (under_case (every (labelled_in L))) l ->
  OK prev ->
  keeps (switch_cases_ stmt_trans prev next l).
Proof.
  induction l as [| e l IH]; intros HP HE Hprev v w t t' H HF.
  - cbn in H. fi_fwd. assumption.
  - inversion HP; subst. inversion HE; subst.
    rewrite switch_cases_cons in H. destruct e; try discriminate.
    cbn [under_case] in *.
    pose proof (fi_stmts stmts ltac:(assumption) ltac:(assumption)) as Hss.
    pose proof (fi_case_close next l) as Hclose.
    specialize (IH ltac:(assumption) ltac:(assumption) Hprev).
    destruct val_exp; fi_more; assumption.
Qed.

Lemma fi_switch blk has_dflt :
  Forall (under_case FP) blk ->
  Forall (under_case (every (labelled_in L))) blk ->
  keeps (stmt_trans_switch blk has_dflt).
Proof.
  intros HP HE v w t t' H HF.
  unfold stmt_trans_switch, stmt_trans_switch_ in H.
  rewrite bb_new_eq in H. cbv beta iota zeta in H.
  rewrite bb_new_eq in H. cbv beta iota zeta in H.
  assert (Hprev := fi_cur_allowed _ _ _ _ _ _ _ HF).
  destruct (fi_bb_new _ _ _ _ _ _ _ HF) as [HF1 Hnext].
  clear HF. fi_fwd.
  match goal with
  | HF : FI v w ?t0 |- _ =>
      assert (HF2 : FI None (Some (next_bb_id t))
                       (set_break_bb (Some (next_bb_id t))
                                     (set_cont_bb None t0)))
        by (eapply fi_set_jumps; eauto);
      apply fi_fresh in HF2; clear HF
  end.
  pose proof (fi_switch_cases (bb t) (next_bb_id t) blk HP HE Hprev)
    as Hcases.
  inv_bind H.
  eapply Hcases in E; [| exact HF2]. clear HF2 Hcases.
  assert (HF3 : FI None (Some (next_bb_id t)) t').
  { destruct has_dflt; fi_fwd.
    - match goal with HF : FI _ _ ?x |- FI _ _ (set_bb _ (set_break_bb _ ?x)) =>
        destruct HF as [G1 G2 G3 G4 G5] end.
      constructor; cbn; auto.
    - match goal with HF : FI _ _ ?x |- FI _ _ (set_bb _ (set_break_bb _ ?x)) =>
        destruct HF as [G1 G2 G3 G4 G5] end.
      constructor; cbn; auto. }
  destruct HF3 as [G1 G2 G3 [G4 | G4] [G5 | G5]];
    constructor; auto;
    destruct has_dflt; fi_fwd; cbn in *; auto.
Qed.

Lemma fi_switch_clears blk has_dflt :
  Forall (under_case FP) blk ->
  Forall (under_case (every (labelled_in L))) blk ->
  forall v w t t',
    stmt_trans_switch blk has_dflt t = Ok t' -> FI v w t ->
    cont_bb t' = None /\ break_bb t' = None.
Proof.
  intros HP HE v w t t' H HF.
  unfold stmt_trans_switch, stmt_trans_switch_ in H.
  rewrite bb_new_eq in H. cbv beta iota zeta in H.
  rewrite bb_new_eq in H. cbv beta iota zeta in H.
  assert (Hprev := fi_cur_allowed _ _ _ _ _ _ _ HF).
  destruct (fi_bb_new _ _ _ _ _ _ _ HF) as [HF1 Hnext].
  clear HF. fi_fwd.
  match goal with
  | HF : FI v w ?t0 |- _ =>
      assert (HF2 : FI None (Some (next_bb_id t))
                       (set_break_bb (Some (next_bb_id t))
                                     (set_cont_bb None t0)))
        by (eapply fi_set_jumps; eauto);
      apply fi_fresh in HF2; clear HF
  end.
  pose proof (fi_switch_cases (bb t) (next_bb_id t) blk HP HE Hprev)
    as Hcases.
  inv_bind H.
  eapply Hcases in E; [| exact HF2]. clear HF2 Hcases.
  destruct has_dflt; fi_fwd; cbn;
    match goal with HF : FI _ _ ?x |- cont_bb ?x = None /\ _ =>
      destruct HF as [G1 G2 G3 [G4 | G4] G5] end; auto.
Qed.

Lemma fi_for_clears init blk t t' :
  stmt_trans_for_loop init blk t = Ok t' ->
  cont_bb t' = None /\ break_bb t' = None.
Proof.
  intros H.
  unfold stmt_trans_for_loop, stmt_trans_for_loop_ in H.
  rewrite bb_new_eq in H. cbv beta iota zeta in H.
  rewrite bb_new_eq in H. cbv beta iota zeta in H.
  do 4 inv_bind H.
  match goal with
  | E : blk_trans_ _ _ _ = Ok ?tb |- _ =>
      pose proof (frame_inv_trivial [] (blocks tb)
                    (set_break_bb None (set_cont_bb None tb))) as HFe;
      clear E;
      set (tx := set_break_bb None (set_cont_bb None tb)) in *
  end.
  assert (Hcur := fi_cur_allowed _ _ _ _ _ _ _ HFe).
  inv_bind H. injection H as <-. cbn [cont_bb break_bb set_bb].
  change (cont_bb tx) with (@None bb_ptr) in HFe.
  change (break_bb tx) with (@None bb_ptr) in HFe.
  clearbody tx.
  assert (HF : frame_inv [] O None (blocks t3) None None t4).
  { destruct (bb tx); fi_fwd; assumption. }
  destruct HF as [G1 G2 G3 [G4 | G4] [G5 | G5]]; auto.
Qed.

Lemma fi_return stmt arg : keeps (stmt_trans_return stmt arg).
Proof.
  intros v w t t' H HF. unfold stmt_trans_return in H.
  destruct arg; fi_more; apply fi_set_bb; try assumption; intros ? [=].
Qed.

Lemma fi_continue : keeps stmt_trans_continue.
Proof.
  intros v w t t' H HF. unfold stmt_trans_continue in H.
  fi_more; apply fi_set_bb; try assumption; intros ? [=].
Qed.

Lemma fi_break cond_exp : keeps (stmt_trans_break cond_exp).
Proof.
  intros v w t t' H HF. unfold stmt_trans_break in H.
  rewrite bb_new_eq in H. cbv beta iota zeta in H.
  destruct (fi_bb_new _ _ _ _ _ _ _ HF) as [HF1 Hnext].
  destruct cond_exp; fi_more; apply fi_set_bb; assumption.
Qed.

Lemma fi_goto jl : keeps (stmt_trans_goto jl).
Proof.
  intros v w t t' H HF. unfold stmt_trans_goto in H.
  fi_more; apply fi_set_bb; try assumption; intros ? [=].
Qed.

Lemma fi_ddl stmt : keeps (stmt_trans_ddl stmt).
Proof.
  intros v w t t' H HF. unfold stmt_trans_ddl in H. fi_more. assumption.
Qed.

(** Lowering a statement writes only to the block that is current when
    it starts, to the label blocks of the statements it visits and to
    blocks it allocates; the block current at the end is one of those;
    and the continue and break targets are as before or cleared. *)
Theorem stmt_trans_frame (s : ast_stmt_t) : FP s.
Proof.
  induction s as [ hd | hd e | hd l r | hd cnd ib el eb IHib IHel IHeb
                 | hd k i b IHi IHb | hd b d IHb | hd val ss | hd a | hd
                 | hd cnd | hd j | hd | hd b IHb ]
    using ast_stmt_ind';
    intros HE v w t t' Hrun HF;
    rewrite stmt_trans_unfold in Hrun; inv_bind Hrun;
    (eapply fi_stmt_enter in E; [| apply (every_self _ _ HE) | exact HF]);
    clear HF.
  - fi_fwd. assumption.
  - eapply fi_stmt_trans_exp; eassumption.
  - eapply fi_stmt_trans_assign; eassumption.
  - destruct (every_if _ _ _ _ _ _ HE) as (E1 & E2 & E3).
    eapply (fi_if cnd ib el eb); eassumption.
  - destruct k.
    + destruct (every_for _ _ _ _ HE) as (E1 & E2).
      eapply (fi_for i b); eassumption.
    + unfold stmt_trans_loop, stmt_trans_loop_, stmt_trans_array_loop
        in Hrun.
      fi_fwd. apply fi_ERROR. assumption.
  - pose proof (every_switch _ _ _ _ HE) as E1.
    eapply (fi_switch b d); eassumption.
  - fi_fwd. assumption.
  - eapply fi_return; eassumption.
  - eapply fi_continue; eassumption.
  - eapply fi_break; eassumption.
  - eapply fi_goto; eassumption.
  - eapply fi_ddl; eassumption.
  - pose proof (every_blk _ _ _ HE) as E1.
    eapply (fi_blk_opt b); eassumption.
Qed.

End frame_thm.

(** Every statement carries its labels in the set of all the labels of
    the statements lowered with it. *)
Lemma labelled_in_labels_of (l : list ast_stmt_t) :
  Forall (every (labelled_in (labels_of l))) l.
Proof.
  apply every_list. apply Forall_forall. intros x Hx.
  unfold labelled_in, labels_of. intros y Hy.
  apply in_flat_map. exists x. split; assumption.
Qed.

(** Lowering never restores a continue or break target: after a
    statement each is what it was or NULL. *)
Lemma stmt_trans_jump_targets `{TE : TransExp} (s : ast_stmt_t)
      (t t' : trans_t) :
  stmt_trans s t = Ok t' ->
  (cont_bb t' = cont_bb t \/ cont_bb t' = None) /\
  (break_bb t' = break_bb t \/ break_bb t' = None).
Proof.
  intros H.
  pose proof (labelled_in_labels_of [s]) as HL. inversion HL; subst.
  pose proof (frame_inv_trivial (labels_of [s]) (blocks t) t) as HF.
  eapply stmt_trans_frame in HF; [| eassumption | eassumption].
  destruct HF as [_ _ _ H4 H5]. split; assumption.
Qed.

Lemma stmts_trans_jump_targets `{TE : TransExp} (l : list ast_stmt_t) :
  forall t t', stmts_trans l t = Ok t' ->
  (cont_bb t' = cont_bb t \/ cont_bb t' = None) /\
  (break_bb t' = break_bb t \/ break_bb t' = None).
Proof.
  induction l as [| s l IH]; intros t t' H.
  - cbn in H. injection H as <-. auto.
  - unfold stmts_trans in H. rewrite stmts_trans_cons in H. inv_bind H.
    apply stmt_trans_jump_targets in E. apply IH in H.
    destruct E as [E1 E2], H as [H1 H2]. split.
    + destruct H1 as [H1 | H1]; [rewrite H1; exact E1 | auto].
    + destruct H2 as [H2 | H2]; [rewrite H2; exact E2 | auto].
Qed.

(** C9. Once a for loop or a switch has been lowered, the continue
    target and the break target of the context are NULL, whatever they
    were before: they are cleared, not restored.  They stay NULL through
    any statements lowered next, so a continue or a break that follows
    in the same block, even inside an enclosing loop, stops the
    compilation at the assertion on its target. *)
Theorem jump_targets_cleared `{TE : TransExp} (s : ast_stmt_t)
        (rest : list ast_stmt_t) (t t' t'' : trans_t) :
  is_for_or_switch s = true ->
  stmt_trans s t = Ok t' ->
  stmts_trans rest t' = Ok t'' ->
  (cont_bb t' = None /\ break_bb t' = None) /\
  (cont_bb t'' = None /\ break_bb t'' = None) /\
  (forall hd, stmt_trans (STMT_CONTINUE hd) t'' = Fatal ASSERT_cont_bb) /\
  (forall hd c, stmt_trans (STMT_BREAK hd c) t'' = Fatal ASSERT_break_bb).
Proof.
  intros Hs Hrun Hrest.
  assert (Hclr : cont_bb t' = None /\ break_bb t' = None).
  { rewrite stmt_trans_unfold in Hrun. inv_bind Hrun.
    destruct s as [ | | | | hd k i b | hd b d | | | | | | | ];
      try discriminate.
    - destruct k; [| discriminate].
      eapply fi_for_clears; eassumption.
    - pose proof (labelled_in_labels_of [STMT_SWITCH hd b d]) as HL.
      inversion HL; subst.
      eapply (fi_switch_clears (labels_of [STMT_SWITCH hd b d]) O None
                               (blocks t0) b d).
      + apply under_case_all. intros y. apply stmt_trans_frame.
      + eapply every_switch; eassumption.
      + eassumption.
      + instantiate (1 := break_bb t0). instantiate (1 := cont_bb t0).
        apply frame_inv_trivial. }
  destruct Hclr as [Hc Hb].
  destruct (stmts_trans_jump_targets rest _ _ Hrest) as [Hc' Hb'].
  rewrite Hc in Hc'. rewrite Hb in Hb'.
  assert (Hc2 : cont_bb t'' = None) by (destruct Hc'; assumption).
  assert (Hb2 : break_bb t'' = None) by (destruct Hb'; assumption).
  split; [auto |]. split; [auto |]. split.
  - intros hd. rewrite stmt_trans_unfold.
    destruct (stmt_enter_ok (STMT_CONTINUE hd) t'') as (t0 & b0 & He & _).
    rewrite He. cbn [bind].
    destruct (stmt_enter_keeps _ _ _ He) as (Hk & _).
    unfold stmt_trans_continue. rewrite Hk, Hc2. reflexivity.
  - intros hd cnd. rewrite stmt_trans_unfold.
    destruct (stmt_enter_ok (STMT_BREAK hd cnd) t'') as (t0 & b0 & He & _).
    rewrite He. cbn [bind].
    destruct (stmt_enter_keeps _ _ _ He) as (_ & Hk).
    unfold stmt_trans_break. rewrite bb_new_eq. cbv beta iota zeta.
    cbn [break_bb snd bb_new set_next_bb_id set_blocks].
    rewrite Hk, Hb2. reflexivity.
Qed.

Lemma jump_targets_cleared_witness :
  is_for_or_switch inner_loop = true /\
  stmt_trans inner_loop loop_ctx = Ok after_inner_loop /\
  stmts_trans [] after_inner_loop = Ok after_inner_loop /\
  cont_bb loop_ctx = Some 0%nat /\
  ((cont_bb after_inner_loop = None /\ break_bb after_inner_loop = None) /\
   (cont_bb after_inner_loop = None /\ break_bb after_inner_loop = None) /\
   (forall hd, stmt_trans (STMT_CONTINUE hd) after_inner_loop
               = Fatal ASSERT_cont_bb) /\
   (forall hd c, stmt_trans (STMT_BREAK hd c) after_inner_loop
                 = Fatal ASSERT_break_bb)).
Proof.
  assert (H1 : stmt_trans inner_loop loop_ctx = Ok after_inner_loop)
    by (vm_compute; reflexivity).
  assert (H2 : stmts_trans [] after_inner_loop = Ok after_inner_loop)
    by reflexivity.
  split; [reflexivity |]. split; [exact H1 |]. split; [exact H2 |].
  split; [reflexivity |].
  exact (jump_targets_cleared inner_loop [] loop_ctx after_inner_loop
                              after_inner_loop eq_refl H1 H2).
Defined.

(** The outer loop of [for (;;) { for (;;) { break if c; } continue; }]
    cannot be lowered. *)
Lemma nested_loop_continue_stops :
  stmt_trans nested_loop_continue open_ctx = Fatal ASSERT_cont_bb.
Proof. vm_compute. reflexivity. Qed.

End FrameThm.

(* ------------------------------------------------------------------ *)
(** ** The branches of a lowered switch *)
(* ------------------------------------------------------------------ *)

Module SwitchFacts.
Import Examples.
Import StmtFacts.
Import LoweredFacts.
Import FrameFacts.
Import FrameThm.

(** Relative to itself a context satisfies its footprint. *)
Lemma frame_inv_refl (L : list bb_ptr) (t : trans_t) :
  frame_inv L (next_bb_id t) (bb t) (blocks t) (cont_bb t) (break_bb t) t.
Proof. constructor; auto. Qed.

Lemma labels_under_cases_every (l : list ast_stmt_t) (L : list bb_ptr) :
  incl (labels_under_cases l) L ->
  Forall (under_case (every (labelled_in L))) l.
Proof.
  intros HL. apply every_under_cases. apply Forall_forall. intros x Hx.
  unfold labelled_in. intros y Hy. apply HL.
  unfold labels_under_cases. apply in_flat_map. exists x. split; assumption.
Qed.

Lemma labels_under_cases_cons (e : ast_stmt_t) (r : list ast_stmt_t) :
  incl (labels_under_cases r) (labels_under_cases (e :: r)).
Proof.
  unfold labels_under_cases, lowered_cases. cbn [flat_map].
  rewrite flat_map_app. apply incl_appr, incl_refl.
Qed.

Lemma case_close_fresh (next : bb_ptr) (x : ast_stmt_t)
      (r : list ast_stmt_t) (t t' : trans_t) :
  case_close next (x :: r) t = Ok t' ->
  bb t' = Some (next_bb_id t) /\ next_bb_id t' = S (next_bb_id t) /\
  bb_stmts (blocks t' (next_bb_id t)) = [] /\
  bb_pgbacks (blocks t' (next_bb_id t)) = [].
Proof.
  unfold case_close. intros H. rewrite bb_new_eq in H.
  destruct (bb t) as [b |] eqn:Hb; cbv beta iota zeta in H.
  - inv_bind H. inv_bind H. injection H as <-.
    change (bb (snd (bb_new t))) with (bb t) in E. rewrite Hb in E.
    cbn in E. injection E as <-.
    cbn [bb set_blocks set_next_bb_id snd bb_new] in E0. rewrite Hb in E0.
    match type of E0 with
    | fn_add_basic_blk (Some b) ?t1 = _ =>
        destruct (fn_add_basic_blk_spec b t1)
          as (t2' & E2 & _ & _ & _ & _ & _ & _ & _ & _ & Hblk & Hn & _)
    end.
    rewrite E2 in E0. injection E0 as <-.
    cbn. rewrite Hn, Hblk. cbn.
    split; [reflexivity |]. split; [reflexivity |].
    destruct (Nat.eq_dec (next_bb_id t) b) as [-> | Hne].
    + rewrite ?upd_same. cbn. rewrite ?upd_same. split; reflexivity.
    + rewrite upd_other by assumption. rewrite upd_same. split; reflexivity.
  - injection H as <-. cbn. rewrite upd_same. repeat split.
Qed.

(** The round of a case ends with the fall-through branch of the block
    that is still current, and writes to no other allocated block. *)
Lemma case_close_blocks (next : bb_ptr) (rest : list ast_stmt_t)
      (t t' : trans_t) :
  case_close next rest t = Ok t' ->
  forall x, (x < next_bb_id t)%nat ->
    blocks t' x
    = fall_through (bb t)
                   (match rest with [] => next | _ :: _ => next_bb_id t end)
                   x (blocks t x).
Proof.
  unfold case_close, fall_through. intros H x Hx.
  destruct (bb t) as [c |] eqn:Hb; destruct rest as [| y r].
  - cbn [bb_add_branch bind] in H. cbn [bb set_blocks] in H.
    rewrite Hb in H.
    match type of H with
    | fn_add_basic_blk (Some c) ?t1 = _ =>
        destruct (fn_add_basic_blk_spec c t1)
          as (t2 & E2 & _ & _ & _ & _ & _ & _ & _ & _ & Hblk & _)
    end.
    rewrite E2 in H. injection H as <-. rewrite Hblk. cbn.
    destruct (Nat.eqb_spec x c) as [-> | Hne].
    + rewrite upd_same. reflexivity.
    + rewrite upd_other by assumption. reflexivity.
  - rewrite bb_new_eq in H. cbv beta iota zeta in H.
    inv_bind H. inv_bind H. injection H as <-.
    change (bb (snd (bb_new t))) with (bb t) in E. rewrite Hb in E.
    cbn in E. injection E as <-.
    cbn [bb set_blocks set_next_bb_id snd bb_new] in E0. rewrite Hb in E0.
    match type of E0 with
    | fn_add_basic_blk (Some c) ?t1 = _ =>
        destruct (fn_add_basic_blk_spec c t1)
          as (t2 & E2 & _ & _ & _ & _ & _ & _ & _ & _ & Hblk & _)
    end.
    rewrite E2 in E0. injection E0 as <-. cbn. rewrite Hblk. cbn.
    destruct (Nat.eqb_spec x c) as [-> | Hne].
    + rewrite upd_same. rewrite upd_other by lia. reflexivity.
    + rewrite !upd_other by lia. reflexivity.
  - injection H as <-. reflexivity.
  - rewrite bb_new_eq in H. cbv beta iota zeta in H.
    injection H as <-. cbn. rewrite upd_other by lia. reflexivity.
Qed.

(** What is said of a case in one context holds in every context with
    the same blocks, the predecessor apart. *)
Lemma case_body_in_ext `{TE : TransExp} (prev : bb_ptr)
      (brs : list ir_br_t) (later : list ast_stmt_t) (c : ast_stmt_t)
      (tg fall : bb_ptr) (t u : trans_t) :
  (forall x, x <> prev -> blocks u x = blocks t x) ->
  case_body_in prev brs later c tg fall t ->
  case_body_in prev brs later c tg fall u.
Proof.
  intros Hext (s & s' & H1 & H2 & H3 & H4 & H5 & H6 & H7).
  exists s, s'. repeat (split; [assumption |]).
  intros x Hx Hp Hl. rewrite Hext by assumption. auto.
Qed.

Section switch.
Context `{TE : TransExp}.

Lemma switch_cases_branches (prev next : bb_ptr) (l : list ast_stmt_t) :
  forall t t' b0,
    bb t = Some b0 -> b0 <> prev ->
    (prev < next_bb_id t)%nat -> (b0 < next_bb_id t)%nat ->
    bb_stmts (blocks t b0) = [] -> bb_pgbacks (blocks t b0) = [] ->
    ~ In prev (labels_under_cases l) ->
    switch_cases_ stmt_trans (Some prev) next l t = Ok t' ->
    exists targets,
      List.length targets = List.length l /\
      bb_brs (blocks t' prev)
      = bb_brs (blocks t prev) ++ case_branches l targets /\
      StronglySorted lt targets /\
      Forall (fun tg => b0 <= tg)%nat targets /\
      (next_bb_id t <= next_bb_id t')%nat /\
      (forall d, nth 0 targets d = match l with [] => d | _ :: _ => b0 end) /\
      (forall x, (x < next_bb_id t)%nat -> x <> b0 -> x <> prev ->
                 ~ In x (labels_under_cases l) ->
                 blocks t' x = blocks t x) /\
      (forall i c tg,
          nth_error l i = Some c -> nth_error targets i = Some tg ->
          case_body_in prev
            (bb_brs (blocks t prev)
               ++ case_branches (firstn (S i) l) (firstn (S i) targets))
            (skipn (S i) l) c tg (nth (S i) targets next) t').
Proof.
  induction l as [| e r IH];
    intros t t' b0 Hb Hne Hprev Hb0 Hst0 Hpg0 Hlab H.
  - cbn in H. injection H as <-. exists []. cbn.
    rewrite app_nil_r.
    split; [reflexivity |]. split; [reflexivity |].
    split; [constructor |]. split; [constructor |]. split; [lia |].
    split; [reflexivity |]. split; [reflexivity |].
    intros [| i] c tg Hc; discriminate Hc.
  - rewrite switch_cases_cons in H.
    destruct e as [ | | | | | | hd val ss | | | | | | ]; try discriminate.
    rewrite Hb in H. inv_bind H. cbn in E. injection E as <-.
    inv_bind H. inv_bind H.
    set (L := labels_under_cases (STMT_CASE hd val ss :: r)) in *.
    set (s1 := set_blocks _ t) in *.
    set (s1' := match val with
                | Some v => lower exp_trans v s1
                | None => s1
                end) in *.
    assert (Hbs1 : bb s1 = Some b0) by exact Hb.
    assert (Hbb1 : bb s1' = Some b0).
    { subst s1'. destruct val; [rewrite lower_bb |]; exact Hb. }
    assert (Hn1 : next_bb_id s1' = next_bb_id t).
    { subst s1'. destruct val; [rewrite lower_next_bb_id |]; reflexivity. }
    assert (Hbrs0 : bb_brs (blocks s1 prev)
                    = bb_brs (blocks t prev) ++ [mk_br val b0]).
    { subst s1. cbn. rewrite upd_same. reflexivity. }
    assert (Hbrs1 : bb_brs (blocks s1' prev)
                    = bb_brs (blocks t prev) ++ [mk_br val b0]).
    { rewrite <- Hbrs0. subst s1'.
      destruct val as [v |];
        [destruct (lower_blocks exp_trans v s1 prev) as (_ & -> & _) |];
        reflexivity. }
    assert (Hoth1 : forall x, x <> b0 -> x <> prev ->
                              blocks s1' x = blocks t x).
    { intros x Hxb Hxp.
      assert (Hs1 : blocks s1 x = blocks t x).
      { subst s1. cbn. rewrite upd_other by assumption. reflexivity. }
      rewrite <- Hs1. subst s1'. destruct val as [v |]; [| reflexivity].
      apply lower_blocks. rewrite Hbs1. congruence. }
    pose proof (labels_under_cases_every _ L (incl_refl _)) as HE.
    inversion HE as [| ? ? HEss HEr]; subst. cbn [under_case] in HEss.
    pose proof (frame_inv_refl L s1') as HF.
    rewrite Hn1, Hbb1 in HF.
    eapply (fi_stmts L (next_bb_id t) (Some b0) (blocks s1') ss) in HF;
      [| apply Forall_forall; intros y _; apply stmt_trans_frame
       | exact HEss | exact E].
    pose proof (fi_next _ _ _ _ _ _ _ HF) as Hn01.
    pose proof (case_close_blocks _ _ _ _ E0) as Hclose.
    eapply fi_case_close in HF; [| exact E0].
    assert (Hblk3 : blocks t1 prev = blocks s1' prev).
    { apply (fi_blocks _ _ _ _ _ _ _ HF); [exact Hprev | congruence |].
      exact Hlab. }
    assert (Hfr1 : forall x, (x < next_bb_id t)%nat -> x <> b0 -> x <> prev ->
                             ~ In x L -> blocks t1 x = blocks t x).
    { intros x Hx Hxb Hxp HxL. rewrite <- (Hoth1 x Hxb Hxp).
      apply (fi_blocks _ _ _ _ _ _ _ HF); [exact Hx | congruence | exact HxL]. }
    assert (Hst1 : bb_stmts (blocks s1 b0) = [] /\
                   bb_pgbacks (blocks s1 b0) = []).
    { subst s1. cbn. rewrite upd_other by assumption. split; assumption. }
    assert (Hbody : stmts_trans (case_stmts (STMT_CASE hd val ss))
                                (lower_case_val (STMT_CASE hd val ss) s1)
                    = Ok t0) by exact E.
    destruct r as [| x r'].
    + cbn in H. injection H as <-. exists [b0].
      split; [reflexivity |].
      split; [cbn; rewrite Hblk3, Hbrs1; reflexivity |].
      split; [repeat constructor |]. split; [repeat constructor |].
      split; [apply (fi_next _ _ _ _ _ _ _ HF) |].
      split; [reflexivity |]. split; [exact Hfr1 |].
      intros [| i] c tg Hc Htg.
      * cbn in Hc, Htg. injection Hc as <-. injection Htg as <-.
        exists s1, t0.
        split; [exact Hbs1 |]. split; [exact Hb0 |].
        split; [apply Hst1 |]. split; [apply Hst1 |].
        split; [exact Hbrs0 |]. split; [exact Hbody |].
        intros y Hy _ _. apply Hclose. exact Hy.
      * cbn in Hc. destruct i; discriminate Hc.
    + destruct (case_close_fresh _ _ _ _ _ E0) as (Hbb3 & Hn3 & Hst3 & Hpg3).
      assert (HlabR : incl (labels_under_cases (x :: r')) L)
        by apply labels_under_cases_cons.
      destruct (IH t1 t' (next_bb_id t0))
        as (tgs & Hlen & Hbrs & Hs & Hge & Hn & Hhd & Hfr & Hbd);
        try assumption; try lia.
      { intros Hin. apply Hlab. apply HlabR. exact Hin. }
      exists (b0 :: tgs). cbn [List.length] in Hlen.
      split; [cbn [List.length]; lia |].
      split.
      { cbn [case_branches combine map fst snd].
        fold (case_branches (x :: r') tgs).
        rewrite Hbrs, Hblk3, Hbrs1, <- app_assoc. reflexivity. }
      split.
      { constructor; [exact Hs |].
        eapply Forall_impl; [| exact Hge]. cbn. intros; lia. }
      split.
      { constructor; [lia |].
        eapply Forall_impl; [| exact Hge]. cbn. intros; lia. }
      split; [lia |]. split; [reflexivity |].
      split.
      { intros y Hy Hyb Hyp HyL. rewrite <- (Hfr1 y Hy Hyb Hyp HyL).
        apply Hfr; [lia | lia | exact Hyp |].
        intros Hin. apply HyL. apply HlabR. exact Hin. }
      intros [| i] c tg Hc Htg.
      * cbn in Hc, Htg. injection Hc as <-. injection Htg as <-.
        exists s1, t0.
        split; [exact Hbs1 |]. split; [exact Hb0 |].
        split; [apply Hst1 |]. split; [apply Hst1 |].
        split; [exact Hbrs0 |]. split; [exact Hbody |].
        intros y Hy Hyp HyL.
        change (nth 1 (b0 :: tgs) next) with (nth 0 tgs next).
        rewrite Hhd, <- (Hclose y Hy).
        apply Hfr; [lia | lia | exact Hyp | exact HyL].
      * cbn [nth_error] in Hc, Htg.
        specialize (Hbd i c tg Hc Htg).
        rewrite Hblk3, Hbrs1, <- app_assoc in Hbd.
        exact Hbd.
Qed.

(** C4, as the code has it.  Lowering a switch appends to the
    predecessor block one branch per case, in the order of the cases:
    the branch of a case is guarded by the value expression of the case
    and goes to the sibling block of the case, a fresh block distinct
    from the blocks of the other cases and from the join block; the
    branch of the default case is unguarded and stands at the position
    of the default case among the cases.  When the switch has no default
    a last, unguarded branch to the join block follows.  The body of
    every case becomes its sibling block: the round of the case starts
    with that block current and without a statement, the predecessor
    having the branches of the cases up to this one; the value
    expression and then the statements of the case are lowered from
    there; and what this lowering leaves in the blocks allocated so far
    is what the lowered switch holds, together with the branch by which
    a body that ends with a block still current falls through to the
    block of the next case, or to the join block after the last case.
    The join block is current afterwards. *)
Theorem switch_branches (blk : list ast_stmt_t) (has_dflt : bool)
        (t t' : trans_t) (prev : bb_ptr) :
  bb t = Some prev ->
  (prev < next_bb_id t)%nat ->
  ~ In prev (labels_under_cases blk) ->
  stmt_trans_switch blk has_dflt t = Ok t' ->
  let next_bb := next_bb_id t in
  exists targets,
    List.length targets = List.length blk /\
    bb_brs (blocks t' prev)
    = bb_brs (blocks t prev) ++ case_branches blk targets
      ++ (if has_dflt then [] else [mk_br None next_bb]) /\
    NoDup targets /\
    Forall (fun tg => next_bb < tg)%nat targets /\
    bb t' = Some next_bb /\
    (forall i c tg,
        nth_error blk i = Some c -> nth_error targets i = Some tg ->
        case_body_in prev
          (bb_brs (blocks t prev)
             ++ case_branches (firstn (S i) blk) (firstn (S i) targets))
          (skipn (S i) blk) c tg (nth (S i) targets next_bb) t').
Proof.
  intros Hb Hprev Hlab H next_bb.
  unfold stmt_trans_switch, stmt_trans_switch_ in H.
  rewrite bb_new_eq in H. cbv beta iota zeta in H.
  rewrite Hb in H. inv_bind H.
  destruct (fn_add_basic_blk_spec prev (snd (bb_new t)))
    as (t1 & E1 & _ & _ & _ & _ & _ & _ & _ & _ & Hblk1 & Hn1 & _).
  rewrite E1 in E. injection E as <-. cbn in Hn1.
  rewrite bb_new_eq in H. cbv beta iota zeta in H.
  inv_bind H.
  set (t2 := set_bb _ _) in *.
  assert (Hbb2 : bb t2 = Some (S (next_bb_id t))).
  { subst t2. cbn. rewrite Hn1. reflexivity. }
  assert (Hn2 : next_bb_id t2 = S (S (next_bb_id t))).
  { subst t2. cbn. rewrite Hn1. reflexivity. }
  assert (Hblk2 : blocks t2 prev = blocks t prev).
  { subst t2. cbn. rewrite Hblk1, Hn1. cbn.
    rewrite !upd_other by lia. reflexivity. }
  assert (Hnew2 : blocks t2 (S (next_bb_id t)) = empty_bb).
  { subst t2. cbn. rewrite Hn1. apply upd_same. }
  destruct (switch_cases_branches prev (next_bb_id t) blk t2 t0
                                  (S (next_bb_id t)))
    as (tgs & Hlen & Hbrs & Hs & Hge & Hn & _ & _ & Hbd);
    try assumption; try lia; try (rewrite Hnew2; reflexivity).
  exists tgs. rewrite Hblk2 in Hbrs.
  assert (Hnd : NoDup tgs).
  { clear - Hs. induction Hs as [| a l Hs IH Ha]; constructor; auto.
    intros Hin. rewrite Forall_forall in Ha. specialize (Ha _ Hin). lia. }
  assert (Hfresh : Forall (fun tg => next_bb < tg)%nat tgs).
  { eapply Forall_impl; [| exact Hge]. cbn. subst next_bb. intros; lia. }
  assert (Hext : forall x, x <> prev -> blocks t' x = blocks t0 x).
  { intros x Hx. destruct has_dflt.
    - inv_bind H. injection E0 as <-. injection H as <-. reflexivity.
    - inv_bind H. cbn in E0. injection E0 as <-. injection H as <-. cbn.
      rewrite upd_other by assumption. reflexivity. }
  assert (Hbodies : forall i c tg,
             nth_error blk i = Some c -> nth_error tgs i = Some tg ->
             case_body_in prev
               (bb_brs (blocks t prev)
                  ++ case_branches (firstn (S i) blk) (firstn (S i) tgs))
               (skipn (S i) blk) c tg (nth (S i) tgs next_bb) t').
  { intros i c tg Hc Htg. apply (case_body_in_ext _ _ _ _ _ _ t0 t' Hext).
    rewrite <- Hblk2. apply Hbd; assumption. }
  destruct has_dflt.
  - inv_bind H. injection E0 as <-. injection H as <-.
    split; [exact Hlen |].
    split; [cbn; rewrite Hbrs, app_nil_r; reflexivity |].
    split; [exact Hnd |]. split; [exact Hfresh |].
    split; [reflexivity | exact Hbodies].
  - inv_bind H. cbn in E0. injection E0 as <-. injection H as <-.
    split; [exact Hlen |].
    split; [cbn; rewrite upd_same; cbn; rewrite Hbrs, <- app_assoc;
            reflexivity |].
    split; [exact Hnd |]. split; [exact Hfresh |].
    split; [reflexivity | exact Hbodies].
Qed.

End switch.

(** [switch { case c: d = e; break; default: a = b; }] lowered in a
    context whose current block is block 0. *)
Lemma switch_branches_witness :
  bb open_ctx = Some O /\
  (O < next_bb_id open_ctx)%nat /\
  ~ In O (labels_under_cases switch_default_last) /\
  stmt_trans_switch switch_default_last true open_ctx
  = Ok (ok_or open_ctx (stmt_trans_switch switch_default_last true open_ctx))
  /\
  exists targets,
    List.length targets = List.length switch_default_last /\
    bb_brs (blocks (ok_or open_ctx
                      (stmt_trans_switch switch_default_last true open_ctx))
                   O)
    = bb_brs (blocks open_ctx O) ++ case_branches switch_default_last targets
      ++ [] /\
    NoDup targets /\
    Forall (fun tg => next_bb_id open_ctx < tg)%nat targets /\
    bb (ok_or open_ctx (stmt_trans_switch switch_default_last true open_ctx))
    = Some (next_bb_id open_ctx) /\
    (forall i c tg,
        nth_error switch_default_last i = Some c ->
        nth_error targets i = Some tg ->
        case_body_in O
          (bb_brs (blocks open_ctx O)
             ++ case_branches (firstn (S i) switch_default_last)
                              (firstn (S i) targets))
          (skipn (S i) switch_default_last) c tg
          (nth (S i) targets (next_bb_id open_ctx))
          (ok_or open_ctx
                 (stmt_trans_switch switch_default_last true open_ctx))).
Proof.
  assert (H1 : bb open_ctx = Some O) by reflexivity.
  assert (H2 : (O < next_bb_id open_ctx)%nat) by (cbn; lia).
  assert (H3 : ~ In O (labels_under_cases switch_default_last))
    by (cbn; tauto).
  assert (H4 : stmt_trans_switch switch_default_last true open_ctx
               = Ok (ok_or open_ctx
                      (stmt_trans_switch switch_default_last true open_ctx)))
    by (vm_compute; reflexivity).
  split; [exact H1 |]. split; [exact H2 |]. split; [exact H3 |].
  split; [exact H4 |].
  exact (switch_branches switch_default_last true open_ctx _ O H1 H2 H3 H4).
Defined.

(** C4 fails as stated: the branch of the default case is not always the
    last branch of the predecessor.  For
    [switch { default: a = b; case c: d = e; }] the predecessor block 0
    gets the unguarded branch of the default first and the guarded
    branch of the case after it. *)
Lemma switch_default_branch_not_last :
  exists t',
    stmt_trans (STMT_SWITCH hd0 switch_default_first true) open_ctx = Ok t' /\
    bb_brs (blocks t' O) = [mk_br None 2%nat; mk_br (Some 2%nat) 3%nat] /\
    last (bb_brs (blocks t' O)) (mk_br None O) <> mk_br None 2%nat.
Proof.
  eexists. split; [vm_compute; reflexivity |].
  split; [vm_compute; reflexivity |].
  vm_compute. discriminate.
Qed.

(** The bodies of the two cases of
    [switch { default: a = b; case c: d = e; }]: block 2, the block of
    the default case, holds [a = b] and falls through to block 3, the
    block of the case, which holds [d = e] and goes on to the join
    block 1. *)
Lemma switch_bodies_in_sibling_blocks :
  exists t',
    stmt_trans (STMT_SWITCH hd0 switch_default_first true) open_ctx = Ok t' /\
    blocks t' 2%nat
    = mk_bb [STMT_ASSIGN (hd_at 2) 0%nat 1%nat] [mk_br None 3%nat] [] /\
    blocks t' 3%nat
    = mk_bb [STMT_ASSIGN (hd_at 3) 3%nat 4%nat] [mk_br None 1%nat] [].
Proof.
  eexists. split; [vm_compute; reflexivity |].
  split; vm_compute; reflexivity.
Qed.

End SwitchFacts.

(* ------------------------------------------------------------------ *)
(** ** Branch targets, placed labels and simple statements *)
(* ------------------------------------------------------------------ *)

Module CfgFacts.
Import Examples.
Import StmtFacts.
Import LoweredFacts.
Import FrameFacts.

Lemma simple_app (l1 l2 : list ast_stmt_t) :
  simple_stmts l1 -> simple_stmts l2 -> simple_stmts (l1 ++ l2).
Proof. unfold simple_stmts. intros. apply Forall_app. auto. Qed.

Lemma simple_one (s : ast_stmt_t) :
  is_structured s = false -> simple_stmts [s].
Proof. intros H. constructor; [exact H | constructor]. Qed.

Section prims.
Context `{TE : TransExp}.
Variable E : bb_ptr * bb_ptr.
#[local] Abbreviation CI := (cfg_inv E).

Lemma branchable_weaken P P' t x :
  incl P P' -> branchable P t x -> branchable P' t x.
Proof. unfold branchable. intros HP [H | [H | H]]; auto. Qed.

Lemma ci_exit_bb P X t : CI P X t -> exit_bb (fn t) = snd E.
Proof. intros H. rewrite <- (ci_exit _ _ _ _ H). reflexivity. Qed.

Lemma ci_entry_bb P X t : CI P X t -> entry_bb (fn t) = fst E.
Proof. intros H. rewrite <- (ci_exit _ _ _ _ H). reflexivity. Qed.

Lemma ci_weaken P P' X X' t :
  incl P P' -> incl X' X -> CI P X t -> CI P' X' t.
Proof.
  intros HP HX [H1 H2 H3 H4 H4' H5 H6].
  constructor; eauto using branchable_weaken.
Qed.

(** Any change to the statements and piggybacks of one block. *)
Lemma ci_write_stmts P X t p ss pg :
  CI P X t -> simple_stmts ss -> simple_stmts pg ->
  CI P X (set_blocks (upd (blocks t) p
                               (mk_bb ss (bb_brs (blocks t p)) pg)) t).
Proof.
  intros [H1 H2 H3 H4 H4' H5 H6] Hss Hpg. constructor; cbn; auto.
  - intros b br. destruct (Nat.eq_dec b p) as [-> | Hne].
    + rewrite upd_same. cbn. apply H1.
    + rewrite upd_other by assumption. apply H1.
  - intros b. destruct (Nat.eq_dec b p) as [-> | Hne].
    + rewrite upd_same. cbn. auto.
    + rewrite upd_other by assumption. apply H5.
Qed.

Lemma ci_bb_add_stmt P X b s t t' :
  bb_add_stmt b s t = Ok t' -> CI P X t -> is_structured s = false ->
  CI P X t'.
Proof.
  destruct b as [p |]; cbn; [| discriminate]. intros [= <-] H Hs.
  apply ci_write_stmts; [assumption | | apply (ci_simple _ _ _ _ H)].
  apply simple_app; [apply (ci_simple _ _ _ _ H) | apply simple_one, Hs].
Qed.

Lemma ci_bb_add_branch P X b cexp tgo t t' :
  bb_add_branch b cexp tgo t = Ok t' -> CI P X t ->
  (forall tg, tgo = Some tg -> branchable P t tg) ->
  CI P X t'.
Proof.
  destruct b as [p |], tgo as [tg |]; cbn; try discriminate.
  intros [= <-] [H1 H2 H3 H4 H4' H5 H6] Htg. constructor; cbn; auto.
  - intros b br. destruct (Nat.eq_dec b p) as [-> | Hne].
    + rewrite upd_same. cbn. intros Hin. apply in_app_or in Hin.
      destruct Hin as [Hin | [<- | []]]; [eapply H1; eassumption |].
      cbn. apply Htg. reflexivity.
    + rewrite upd_other by assumption. apply H1.
  - intros b. destruct (Nat.eq_dec b p) as [-> | Hne].
    + rewrite upd_same. cbn. apply H5.
    + rewrite upd_other by assumption. apply H5.
Qed.

Lemma ci_fn_add P X b t t' :
  fn_add_basic_blk b t = Ok t' -> CI P X t ->
  CI P X t' /\ (bb t' = bb t /\ b = bb t -> closed_cur t').
Proof.
  destruct b as [b |]; [| discriminate].
  destruct (fn_add_basic_blk_spec b t)
    as (t2 & -> & Hin & Hincl & _ & Hen & Hex & Hb & Hc & Hk & Hbl & Hn & _).
  intros [= <-] [H1 H2 H3 H4 H4' H5 H6].
  assert (Hbr : forall x, branchable P t x -> branchable P t2 x).
  { unfold branchable. rewrite Hb. intros x [H | [H | H]]; auto. }
  split.
  - constructor; rewrite ?Hb, ?Hc, ?Hk, ?Hbl, ?Hen, ?Hex; auto.
    + intros b0 br Hbr0. apply Hbr. eapply H1; eassumption.
    + intros x Hx. destruct (H6 x Hx); auto.
  - intros [Hbb Heq] x Hx. rewrite Hbb, <- Heq in Hx.
    injection Hx as <-. exact Hin.
Qed.

Lemma ci_bb_new P X t : CI P X t -> CI P X (snd (bb_new t)).
Proof.
  intros [H1 H2 H3 H4 H4' H5 H6]. constructor; cbn; auto.
  - intros b br. destruct (Nat.eq_dec b (next_bb_id t)) as [-> | Hne].
    + rewrite upd_same. cbn. tauto.
    + rewrite upd_other by assumption. apply H1.
  - intros b. destruct (Nat.eq_dec b (next_bb_id t)) as [-> | Hne].
    + rewrite upd_same. cbn. split; constructor.
    + rewrite upd_other by assumption. apply H5.
Qed.

(** Making another block current, once the current one is closed. *)
Lemma ci_set_bb P X t p :
  CI P X t -> closed_cur t -> CI P X (set_bb p t).
Proof.
  intros [H1 H2 H3 H4 H4' H5 H6] Hc.
  assert (Hbr : forall x, branchable P t x -> branchable P (set_bb p t) x).
  { unfold branchable. cbn. intros x [H | [H | H]]; auto. }
  constructor; cbn; auto.
  - intros b br Hin. apply Hbr. eapply H1; eassumption.
  - intros x Hx. destruct (H6 x Hx); auto.
Qed.

Lemma ci_set_bb_placed P X t x :
  CI P X t -> closed_cur t -> CI P (x :: X) (set_bb (Some x) t).
Proof.
  intros H Hc. apply (ci_set_bb _ _ _ (Some x)) in H; [| exact Hc].
  destruct H as [H1 H2 H3 H4 H4' H5 H6]. constructor; auto.
  intros y [<- | Hy]; [right; reflexivity | auto].
Qed.

(** Making a pending block current discharges it; the block joins the
    blocks that have been current. *)
Lemma ci_set_bb_pending P X t x :
  CI (x :: P) X t -> closed_cur t -> In (snd E) P ->
  CI P (x :: X) (set_bb (Some x) t).
Proof.
  intros [H1 H2 H3 H4 H4' H5 H6] Hc Hex.
  assert (Hbr : forall y, branchable (x :: P) t y ->
                          branchable P (set_bb (Some x) t) y).
  { unfold branchable. cbn. intros y [H | [H | [H | H]]]; auto;
      right; left; congruence. }
  constructor; cbn; auto.
  - intros b br Hin. apply Hbr. eapply H1; eassumption.
  - intros y [<- | Hy]; [auto |]. destruct (H6 y Hy); auto.
Qed.

(** A pending block that has become a block of the function is
    discharged. *)
Lemma ci_discharge P X t x :
  CI (x :: P) X t -> In x (fn_bbs (fn t)) -> In (snd E) P -> CI P X t.
Proof.
  intros [H1 H2 H3 H4 H4' H5 H6] Hx Hex.
  assert (Hbr : forall y, branchable (x :: P) t y -> branchable P t y).
  { unfold branchable. cbn. intros y [H | [H | [H | H]]]; auto;
      left; congruence. }
  constructor; auto.
  intros b br Hin. apply Hbr. eapply H1; eassumption.
Qed.

Lemma ci_set_jumps P X t c k :
  CI P X t ->
  (forall x, c = Some x -> branchable P t x) ->
  (forall x, k = Some x -> branchable P t x) ->
  CI P X (set_break_bb k (set_cont_bb c t)).
Proof. intros [H1 H2 H3 H4 H4' H5 H6] Hc Hk. constructor; cbn; auto. Qed.

Lemma ci_set_is_lval P X t v : CI P X t -> CI P X (set_is_lval v t).
Proof. intros [H1 H2 H3 H4 H4' H5 H6]. constructor; cbn; auto. Qed.

Lemma ci_ERROR P X t ec p : CI P X t -> CI P X (ERROR ec p t).
Proof. intros [H1 H2 H3 H4 H4' H5 H6]. constructor; cbn; auto. Qed.

Lemma ci_ASSERT P X cnd f t t' :
  ASSERT cnd f t = Ok t' -> CI P X t -> CI P X t'.
Proof. unfold ASSERT. destruct cnd; [intros [= <-]; auto | discriminate]. Qed.

Lemma ci_lower P X f e t :
  (forall cx, simple_stmts (cx_pgbacks cx) ->
              simple_stmts (cx_pgbacks (f cx e))) ->
  CI P X t -> CI P X (lower f e t).
Proof.
  intros Hf [H1 H2 H3 H4 H4' H5 H6].
  destruct (lower_fn_bbs f e t) as (Hbbs & Hen & Hex).
  assert (Hbr : forall x, branchable P t x -> branchable P (lower f e t) x).
  { unfold branchable. rewrite lower_bb, Hbbs. auto. }
  constructor; rewrite ?lower_bb, ?lower_cont_bb, ?lower_break_bb, ?Hbbs,
                 ?Hen, ?Hex; auto.
  - intros b br. destruct (lower_blocks f e t b) as (_ & -> & _).
    intros Hin. apply Hbr. eapply H1; eassumption.
  - intros b. destruct (lower_blocks f e t b) as (-> & _ & Hsame).
    split; [apply H5 |].
    destruct (bb t) as [p |] eqn:Hcur;
      [destruct (Nat.eq_dec p b) as [-> | Hne] |].
    + unfold lower, ctx_put. rewrite Hcur. cbn. rewrite upd_same. cbn.
      apply Hf. unfold ctx_of, cur_pgbacks. rewrite Hcur. cbn. apply H5.
    + rewrite Hsame by congruence. apply H5.
    + rewrite Hsame by congruence. apply H5.
Qed.

End prims.
End CfgFacts.

Module CfgThm.
Import Examples.
Import StmtFacts.
Import LoweredFacts.
Import FrameFacts.
Import CfgFacts.

Lemma closed_fn_add_cur (t t' : trans_t) :
  fn_add_basic_blk (bb t) t = Ok t' -> closed_cur t'.
Proof.
  destruct (bb t) as [b |] eqn:Hb; [| discriminate].
  destruct (fn_add_basic_blk_spec b t) as (t2 & -> & Hin & _ & _ & _ & _ & Hbb & _).
  intros [= <-] x Hx. rewrite Hbb, Hb in Hx. injection Hx as <-. exact Hin.
Qed.

Lemma closed_fn_add (b : option bb_ptr) (t t' : trans_t) :
  fn_add_basic_blk b t = Ok t' -> closed_cur t -> closed_cur t'.
Proof.
  destruct b as [b |]; [| discriminate].
  destruct (fn_add_basic_blk_spec b t)
    as (t2 & -> & _ & Hincl & _ & _ & _ & Hbb & _).
  intros [= <-] Hc x Hx. rewrite Hbb in Hx. apply Hincl, Hc, Hx.
Qed.

Lemma closed_bb_add_branch b c tgo (t t' : trans_t) :
  bb_add_branch b c tgo t = Ok t' -> closed_cur t -> closed_cur t'.
Proof.
  destruct b, tgo; cbn; try discriminate. intros [= <-] Hc. exact Hc.
Qed.

Lemma closed_bb_add_stmt b s (t t' : trans_t) :
  bb_add_stmt b s t = Ok t' -> closed_cur t -> closed_cur t'.
Proof. destruct b; cbn; try discriminate. intros [= <-] Hc. exact Hc. Qed.

Lemma closed_ASSERT cnd f (t t' : trans_t) :
  ASSERT cnd f t = Ok t' -> closed_cur t -> closed_cur t'.
Proof. unfold ASSERT. destruct cnd; [intros [= <-]; auto | discriminate]. Qed.

Lemma closed_none (t : trans_t) : bb t = None -> closed_cur t.
Proof. intros H b Hb. congruence. Qed.

Lemma closed_bb_new (t : trans_t) : closed_cur t -> closed_cur (snd (bb_new t)).
Proof. intros H. exact H. Qed.

Lemma ASSERT_ok cnd f (t t' : trans_t) : ASSERT cnd f t = Ok t' -> t' = t.
Proof. unfold ASSERT. destruct cnd; congruence. Qed.

Ltac unbind :=
  repeat match goal with
  | H : bind _ _ = Ok _ |- _ => inv_bind H
  | H : ASSERT _ _ _ = Ok _ |- _ => apply ASSERT_ok in H; subst
  | H : Ok (_, _) = Ok (_, _) |- _ => injection H as <- <-
  | H : array_get_exp _ _ = Ok _ |- _ => clear H
  end.

Lemma labs_app (l1 l2 : list ast_stmt_t) : labs (l1 ++ l2) = labs l1 ++ labs l2.
Proof. apply flat_map_app. Qed.

Lemma closed_fn_add_eq (b : option bb_ptr) (t t' : trans_t) :
  fn_add_basic_blk b t = Ok t' -> bb t = b -> closed_cur t'.
Proof. intros H <-. eapply closed_fn_add_cur; eassumption. Qed.

Lemma wf_in_weaken (P P' : list bb_ptr) (s : ast_stmt_t) :
  incl P P' -> wf_in P s -> wf_in P' s.
Proof.
  unfold wf_in. intros HP (H1 & H2 & H3).
  repeat split; eauto using incl_tran.
Qed.

Lemma every_wf_weaken (P P' : list bb_ptr) (l : list ast_stmt_t) :
  incl P P' -> Forall (every (wf_in P)) l -> Forall (every (wf_in P')) l.
Proof.
  intros HP. apply Forall_impl. intros s. apply every_impl.
  intros x. apply wf_in_weaken. exact HP.
Qed.

Lemma pb_wf_weaken (P P' : list bb_ptr) (b : option (list ast_stmt_t)) :
  incl P P' -> PB (every (wf_in P)) b -> PB (every (wf_in P')) b.
Proof. destruct b; cbn; [apply every_wf_weaken | trivial]. Qed.

Lemma under_if_wf_weaken (P P' : list bb_ptr) (l : list ast_stmt_t) :
  incl P P' ->
  Forall (under_if (every (wf_in P))) l ->
  Forall (under_if (every (wf_in P'))) l.
Proof.
  intros HP. apply Forall_impl. intros e. destruct e; cbn; trivial.
  apply pb_wf_weaken. exact HP.
Qed.

Lemma under_case_wf_weaken (P P' : list bb_ptr) (l : list ast_stmt_t) :
  incl P P' ->
  Forall (under_case (every (wf_in P))) l ->
  Forall (under_case (every (wf_in P'))) l.
Proof.
  intros HP. apply Forall_impl. intros e. destruct e; cbn; trivial.
  apply every_wf_weaken. exact HP.
Qed.

Ltac incl_solve :=
  unfold incl; intros ?;
  repeat (rewrite ?labs_app, ?lowered_list_cons, ?in_app_iff; cbn [In]);
  tauto.


Section cfg.
Context `{TE : TransExp}.
Hypothesis Hpg : pgbacks_simple TE.
Variable E : bb_ptr * bb_ptr.

#[local] Abbreviation CI := (cfg_inv E).

Lemma ci_lower_exp_trans P X e t : CI P X t -> CI P X (lower exp_trans e t).
Proof. apply ci_lower. intros cx Hcx. apply (Hpg cx e Hcx). Qed.

Lemma ci_lower_to_lval P X e t :
  CI P X t -> CI P X (lower exp_trans_to_lval e t).
Proof. apply ci_lower. intros cx Hcx. apply (Hpg cx e Hcx). Qed.

Lemma ci_lower_to_rval P X e t :
  CI P X t -> CI P X (lower exp_trans_to_rval e t).
Proof. apply ci_lower. intros cx Hcx. apply (Hpg cx e Hcx). Qed.

Lemma closed_lower f e t : closed_cur t -> closed_cur (lower f e t).
Proof.
  intros H b Hb. rewrite lower_bb in Hb.
  destruct (lower_fn_bbs f e t) as (-> & _). auto.
Qed.

Ltac ci_side :=
  first [ assumption
        | reflexivity
        | intros ? [= <-];
          first [ assumption | right; right; cbn; tauto ]
        | intros ? [= <-]; right; right;
          erewrite ci_exit_bb by eassumption; eapply ci_pending; eassumption
        | intros ? ?; right; left; assumption
        | intros ? ?; eapply ci_cont; eassumption
        | intros ? ?; eapply ci_break; eassumption ].

Ltac ci_fwd :=
  repeat match goal with
  | H : bind _ _ = Ok _ |- _ => inv_bind H
  | H : Ok _ = Ok _ |- _ => inversion H; subst; clear H
  | H : array_get_exp _ _ = Ok _ |- _ => clear H
  | H : context [lower ?f ?e ?t], HC : cfg_inv ?E0 ?P ?X ?t |- _ =>
      lazymatch goal with
      | _ : cfg_inv E0 P X (lower f e t) |- _ => fail
      | _ =>
          assert (cfg_inv E0 P X (lower f e t))
            by (first [ apply ci_lower_exp_trans | apply ci_lower_to_lval
                      | apply ci_lower_to_rval ]; exact HC);
          try (assert (closed_cur (lower f e t))
                by (apply closed_lower; assumption))
      end
  | H : ASSERT _ _ ?t = Ok ?t', HC : cfg_inv ?E0 ?P ?X ?t |- _ =>
      assert (cfg_inv E0 P X t') by (eapply ci_ASSERT; [exact H | exact HC]);
      try (assert (closed_cur t')
            by (eapply closed_ASSERT; [exact H | assumption]));
      clear H
  | H : bb_add_stmt _ _ ?t = Ok ?t', HC : cfg_inv ?E0 ?P ?X ?t |- _ =>
      assert (cfg_inv E0 P X t')
        by (eapply ci_bb_add_stmt; [exact H | exact HC | ci_side]);
      try (assert (closed_cur t')
            by (eapply closed_bb_add_stmt; [exact H | assumption]));
      clear H
  | H : bb_add_branch _ _ _ ?t = Ok ?t', HC : cfg_inv ?E0 ?P ?X ?t |- _ =>
      assert (cfg_inv E0 P X t')
        by (eapply ci_bb_add_branch; [exact H | exact HC | ci_side]);
      try (assert (closed_cur t')
            by (eapply closed_bb_add_branch; [exact H | assumption]));
      clear H
  | H : fn_add_basic_blk _ ?t = Ok ?t', HC : cfg_inv ?E0 ?P ?X ?t |- _ =>
      assert (cfg_inv E0 P X t')
        by (eapply ci_fn_add; [exact H | exact HC]);
      first [ assert (closed_cur t') by (eapply closed_fn_add_cur; exact H)
            | try (assert (closed_cur t')
                    by (eapply closed_fn_add; [exact H | assumption])) ];
      clear H
  end.

Lemma ci_stmt_enter P X s t t' :
  stmt_enter s t = Ok t' -> wf_in P s -> CI P X t ->
  CI P (own_label s ++ X) t' /\ exists b, bb t' = Some b.
Proof.
  unfold stmt_enter, wf_in, own_label. intros H (Hl & _) HC.
  destruct (stmt_label_bb s) as [l |].
  - assert (Hin : In l P) by (apply Hl, in_eq).
    split; [| inv_bind H; injection H as <-; cbn; eauto].
    destruct (bb t) eqn:Hb.
    + rewrite <- Hb in H. ci_fwd. apply ci_set_bb_placed; assumption.
    + ci_fwd. apply ci_set_bb_placed; [assumption |].
      apply closed_none. assumption.
  - destruct (bb t) eqn:Hb.
    + ci_fwd. split; [assumption | eauto].
    + rewrite bb_new_eq in H. ci_fwd. split; [| cbn; eauto].
      apply ci_set_bb; [apply ci_bb_new; assumption |].
      apply closed_none. exact Hb.
Qed.

Lemma ci_stmt_trans_exp P X stmt e t t' :
  stmt_trans_exp stmt e t = Ok t' -> is_structured stmt = false ->
  CI P X t -> CI P X t' /\ bb t' = bb t.
Proof.
  unfold stmt_trans_exp. intros H Hs HC. cbv zeta in H.
  assert (HC1 : CI P X (set_is_lval false (lower exp_trans_to_lval e t))).
  { apply ci_set_is_lval, ci_lower_to_lval, HC. }
  assert (Hbb : bb (set_is_lval false (lower exp_trans_to_lval e t)) = bb t).
  { cbn. apply lower_bb. }
  set (t1 := set_is_lval false (lower exp_trans_to_lval e t)) in *.
  clearbody t1. clear HC.
  destruct (is_call_exp (exps t1 e)).
  - destruct (bb t1) eqn:Hb1; cbn in H; [| discriminate].
    injection H as <-. split; [| cbn; congruence].
    apply ci_write_stmts; [assumption | | apply (ci_simple _ _ _ _ HC1)].
    apply simple_app; [apply (ci_simple _ _ _ _ HC1) | apply simple_one, Hs].
  - destruct (bb t1) as [p |] eqn:Hp; [| discriminate].
    destruct (has_piggyback (blocks t1 p)); injection H as <-;
      (split; [| cbn; congruence]); auto.
    apply ci_write_stmts; [assumption | | constructor].
    apply simple_app; apply (ci_simple _ _ _ _ HC1).
Qed.

Lemma ci_stmt_trans_assign P X stmt l r t t' :
  stmt_trans_assign stmt l r t = Ok t' -> is_structured stmt = false ->
  CI P X t -> CI P X t' /\ bb t' = bb t.
Proof.
  unfold stmt_trans_assign. intros H Hs HC. cbv zeta in H.
  assert (HC1 : CI P X (lower exp_trans_to_rval r
                              (lower exp_trans_to_lval l t))).
  { apply ci_lower_to_rval, ci_lower_to_lval, HC. }
  assert (Hbb : bb (lower exp_trans_to_rval r (lower exp_trans_to_lval l t))
                = bb t).
  { rewrite !lower_bb. reflexivity. }
  set (t1 := lower exp_trans_to_rval r (lower exp_trans_to_lval l t)) in *.
  clearbody t1. clear HC. rewrite <- Hbb. clear Hbb.
  assert (Hadd : forall s0 u u', bb_add_stmt (bb u) s0 u = Ok u' ->
                                 is_structured s0 = false ->
                                 CI P X u /\ bb u = bb t1 ->
                                 CI P X u' /\ bb u' = bb t1).
  { intros s0 u u' Hu Hs0 [Hc Hb]. split.
    - eapply ci_bb_add_stmt; eassumption.
    - destruct (bb u) eqn:Hbu; cbn in Hu; [| discriminate].
      injection Hu as <-. cbn. congruence. }
  destruct (is_tuple_exp (exps t1 l)); [| eapply Hadd; eauto].
  inv_bind H. apply ASSERT_ok in E0. subst.
  destruct (_ =? _)%nat.
  - eapply (for_range_preserves (fun u => CI P X u /\ bb u = bb t1));
      [| eassumption | auto].
    intros i u u' Hb Hu. unfold assign_pairwise in Hb.
    unbind. eapply Hadd; eauto.
  - unbind. injection H as <-.
    eapply (for_range_preserves
              (fun st => CI P X (snd st) /\ bb (snd st) = bb t1));
      [| eassumption | auto].
    intros i [k u] [k' u'] Hb Hu. cbn [snd] in *.
    unfold assign_flatten in Hb. inv_bind Hb.
    destruct (is_tuple_type _).
    + change (CI P X (snd (k', u')) /\ bb (snd (k', u')) = bb t1).
      eapply (for_range_preserves
                (fun st => CI P X (snd st) /\ bb (snd st) = bb t1));
        [| eassumption | auto].
      intros j [k1 u1] [k2 u2] Hb' Hu1. cbn [snd] in *.
      unfold assign_flatten_elem in Hb'.
      unbind. eapply Hadd; eauto.
    + unbind. eapply Hadd; eauto.
Qed.

#[local] Abbreviation CP :=
  (fun s => forall P X t t',
       every (wf_in P) s -> stmt_trans s t = Ok t' -> CI P X t ->
       CI P (labs (lowered s) ++ X) t').

Lemma ci_stmts (l : list ast_stmt_t) :
  Forall CP l ->
  forall P X t t',
    Forall (every (wf_in P)) l -> stmts_trans l t = Ok t' -> CI P X t ->
    CI P (labs (lowered_list l) ++ X) t'.
Proof.
  induction l as [| s l IH]; intros HP P X t t' HE H HC.
  - cbn in H. injection H as <-. exact HC.
  - inversion HP as [| ? ? Hs Hl]; subst.
    inversion HE as [| ? ? HEs HEl]; subst.
    unfold stmts_trans in H. rewrite stmts_trans_cons in H.
    apply bind_ok in H. destruct H as (t0 & E0 & H).
    eapply Hs in E0; [| eassumption ..].
    eapply IH in H; [| eassumption ..].
    eapply ci_weaken; [apply incl_refl | | exact H]. incl_solve.
Qed.

Lemma ci_blk_opt (b : option (list ast_stmt_t)) :
  PB CP b ->
  forall P X t t',
    PB (every (wf_in P)) b ->
    match b with Some l => blk_trans l t | None => Ok t end = Ok t' ->
    CI P X t -> CI P (labs (lowered_list (olist b)) ++ X) t'.
Proof.
  intros HP P X t t' HE H HC. destruct b as [l |]; cbn [olist].
  - eapply ci_stmts; eassumption.
  - injection H as <-. exact HC.
Qed.

Lemma ci_if_arm prev next cond blk :
  PB CP blk ->
  forall P X t t',
    PB (every (wf_in P)) blk -> In next P ->
    if_arm_ stmt_trans prev next cond blk t = Ok t' ->
    CI P X t -> closed_cur t ->
    CI P (labs (lowered_list (olist blk)) ++ X) t' /\ closed_cur t'.
Proof.
  intros HP P X t t' HE Hnext H HC Hcl.
  unfold if_arm_ in H. rewrite bb_new_eq in H. cbv beta iota zeta in H.
  assert (HC1 : CI P X (set_bb (Some (next_bb_id t)) (snd (bb_new t)))).
  { apply ci_set_bb; [apply ci_bb_new; exact HC | exact Hcl]. }
  clear HC Hcl.
  apply bind_ok in H. destruct H as (t0 & E0 & H).
  assert (HC2 : CI P X t0).
  { eapply ci_bb_add_branch; [exact E0 | exact HC1 |].
    intros tg Htg. right. left. exact Htg. }
  clear E0 HC1.
  assert (HC3 : CI P X match cond with
                       | Some c => lower exp_trans c t0
                       | None => t0
                       end).
  { destruct cond; [apply ci_lower_exp_trans |]; exact HC2. }
  clear HC2.
  apply bind_ok in H. destruct H as (t3 & E3 & H).
  eapply (ci_blk_opt blk HP) in E3; [| eassumption ..].
  clear HC3. ci_fwd. split; assumption.
Qed.

Lemma ci_elifs prev next el :
  Forall (under_if CP) el ->
  forall P X t t',
    Forall (under_if (every (wf_in P))) el -> In next P ->
    elif_arms_ stmt_trans prev next el t = Ok t' ->
    CI P X t -> closed_cur t ->
    CI P (labs (lowered_elifs el) ++ X) t' /\ closed_cur t'.
Proof.
  induction el as [| e el IH]; intros HP P X t t' HE Hnext H HC Hcl.
  - cbn in H. injection H as <-. split; assumption.
  - inversion HP as [| ? ? Hs Hl]; subst.
    inversion HE as [| ? ? HEs HEl]; subst.
    rewrite elif_arms_cons in H. destruct e; try discriminate.
    cbn [under_if] in *.
    apply bind_ok in H. destruct H as (t0 & E0 & H).
    eapply ci_if_arm in E0; [| eassumption ..].
    destruct E0 as [HC1 Hcl1].
    eapply IH in H; [| eassumption ..].
    destruct H as [HC2 Hcl2]. split; [| exact Hcl2].
    eapply ci_weaken; [apply incl_refl | | exact HC2].
    unfold lowered_elifs. cbn [flat_map]. fold (lowered_elifs el).
    incl_solve.
Qed.

Lemma ci_if cond ib el eb :
  PB CP ib -> Forall (under_if CP) el -> PB CP eb ->
  forall P X t t',
    PB (every (wf_in P)) ib ->
    Forall (under_if (every (wf_in P))) el ->
    PB (every (wf_in P)) eb ->
    stmt_trans_if cond ib el eb t = Ok t' -> CI P X t ->
    CI P (labs (lowered_list (olist ib) ++ lowered_elifs el
                  ++ lowered_list (olist eb)) ++ X) t'.
Proof.
  intros P1 P2 P3 P X t t' E1 E2 E3 H HC.
  unfold stmt_trans_if, stmt_trans_if_ in H.
  rewrite bb_new_eq in H. cbv beta iota zeta in H.
  pose proof (ci_pending _ _ _ _ HC) as HEP.
  assert (Hincl : incl P (next_bb_id t :: P)) by apply incl_tl, incl_refl.
  assert (Hnext : In (next_bb_id t) (next_bb_id t :: P)) by apply in_eq.
  apply (pb_wf_weaken _ _ _ Hincl) in E1.
  apply (under_if_wf_weaken _ _ _ Hincl) in E2.
  apply (pb_wf_weaken _ _ _ Hincl) in E3.
  apply ci_bb_new in HC.
  apply (ci_weaken _ _ _ _ X _ Hincl (incl_refl _)) in HC.
  apply bind_ok in H. destruct H as (t1 & F1 & H).
  assert (Hcl1 : closed_cur t1)
    by (eapply closed_fn_add_eq; [exact F1 | reflexivity]).
  eapply ci_fn_add in HC; [| exact F1]. destruct HC as [HC _]. clear F1.
  apply bind_ok in H. destruct H as (t2 & F2 & H).
  eapply ci_if_arm in F2; [| eassumption ..]. destruct F2 as [HC2 Hcl2].
  clear HC Hcl1.
  apply bind_ok in H. destruct H as (t3 & F3 & H).
  eapply ci_elifs in F3; [| eassumption ..]. destruct F3 as [HC3 Hcl3].
  clear HC2 Hcl2.
  apply bind_ok in H. destruct H as (t4 & F4 & H). injection H as <-.
  assert (H4 : CI (next_bb_id t :: P)
                  (labs (lowered_list (olist eb))
                     ++ labs (lowered_elifs el)
                     ++ labs (lowered_list (olist ib)) ++ X) t4
               /\ closed_cur t4).
  { destruct eb as [l |].
    - eapply (ci_if_arm _ _ None (Some l)) in F4; [| eassumption ..].
      exact F4.
    - cbn [olist lowered_list flat_map labs app]. ci_fwd. split; assumption. }
  destruct H4 as [HC4 Hcl4].
  apply ci_set_bb_pending in HC4; [| assumption ..].
  eapply ci_weaken; [apply incl_refl | | exact HC4]. incl_solve.
Qed.

Lemma stmt_enter_plain (s : ast_stmt_t) (t : trans_t) :
  stmt_label_bb s = None -> (exists b, bb t = Some b) ->
  stmt_enter s t = Ok t.
Proof. unfold stmt_enter. intros -> (b & ->). reflexivity. Qed.

Lemma ci_plain (s : ast_stmt_t) P X t t' :
  is_plain s = true -> stmt_trans s t = Ok t' ->
  (exists b, bb t = Some b) -> CI P X t ->
  CI P X t' /\ bb t' = bb t /\ labs (lowered s) = [].
Proof.
  intros Hp H Hb HC. rewrite stmt_trans_unfold in H.
  unfold is_plain in Hp.
  destruct (stmt_label_bb s) eqn:Hl; [discriminate |].
  rewrite (stmt_enter_plain s t Hl Hb) in H. cbn [bind] in H.
  assert (Hlabs : labs (lowered s) = []).
  { rewrite lowered_unfold.
    destruct s; try discriminate; cbn; unfold own_label; rewrite Hl;
      reflexivity. }
  destruct s; try discriminate.
  - injection H as <-. auto.
  - eapply ci_stmt_trans_exp in H; [| reflexivity | exact HC]. tauto.
  - eapply ci_stmt_trans_assign in H; [| reflexivity | exact HC]. tauto.
  - unfold stmt_trans_ddl in H. split; [| split; [| exact Hlabs]].
    + eapply ci_bb_add_stmt; [exact H | exact HC | reflexivity].
    + destruct (bb t) eqn:Hbt; cbn in H; [| discriminate].
      injection H as <-. cbn. exact Hbt.
Qed.

Lemma ci_for init blk :
  Forall CP blk ->
  forall P X t t',
    match init with Some s => is_plain s = true | None => True end ->
    Forall (every (wf_in P)) blk ->
    (exists b, bb t = Some b) ->
    stmt_trans_for_loop init blk t = Ok t' -> CI P X t ->
    CI P (labs (match init with Some s => lowered s | None => [] end
                ++ lowered_list blk) ++ X) t'.
Proof.
  intros P2 P X t t' Hp E2 Hb H HC.
  unfold stmt_trans_for_loop, stmt_trans_for_loop_ in H.
  rewrite bb_new_eq in H. cbv beta iota zeta in H.
  rewrite (bb_new_eq (snd (bb_new t))) in H. cbv beta iota zeta in H.
  pose proof (ci_pending _ _ _ _ HC) as HEP.
  set (cond_bb := next_bb_id t) in *.
  set (next_bb := next_bb_id (snd (bb_new t))) in *.
  assert (Hincl : incl P (cond_bb :: next_bb :: P))
    by apply incl_tl, incl_tl, incl_refl.
  assert (Hincl' : incl P (next_bb :: P)) by apply incl_tl, incl_refl.
  apply ci_bb_new, ci_bb_new in HC.
  apply (ci_weaken _ _ _ _ X _ Hincl (incl_refl _)) in HC.
  apply bind_ok in H. destruct H as (t0 & F0 & H).
  assert (H0 : CI (cond_bb :: next_bb :: P) X t0 /\ bb t0 = bb t /\
               labs (match init with Some s => lowered s | None => [] end)
               = []).
  { destruct init as [s |].
    - eapply ci_plain in F0; [| assumption | exact Hb | exact HC]. exact F0.
    - injection F0 as <-. auto. }
  clear F0 HC. destruct H0 as (HC & Hbb0 & Hlabs).
  rewrite labs_app, Hlabs. cbn [app].
  apply bind_ok in H. destruct H as (t1 & F1 & H).
  assert (Hbb1 : bb t1 = bb t).
  { destruct (bb t) as [p |]; cbn in F1; [| discriminate].
    injection F1 as <-. exact Hbb0. }
  eapply ci_bb_add_branch in HC; [| exact F1 |];
    [| intros tg [= <-]; right; right; apply in_eq].
  clear F1.
  apply bind_ok in H. destruct H as (t2 & F2 & H).
  assert (Hcl2 : closed_cur t2)
    by (eapply closed_fn_add_eq; [exact F2 | exact Hbb1]).
  eapply ci_fn_add in HC; [| exact F2]. destruct HC as [HC _]. clear F2.
  apply ci_set_bb_pending in HC; [| exact Hcl2 | right; exact HEP].
  apply (ci_set_jumps _ _ _ _ (Some cond_bb) (Some next_bb)) in HC;
    [| intros x [= <-]; right; left; reflexivity
     | intros x [= <-]; right; right; apply in_eq].
  apply bind_ok in H. destruct H as (t3 & F3 & H).
  eapply (ci_stmts blk P2) in F3;
    [| eapply every_wf_weaken; [exact Hincl' | exact E2] | exact HC].
  clear HC.
  apply (ci_set_jumps _ _ _ _ None None) in F3;
    [| intros x [=] | intros x [=]].
  apply bind_ok in H. destruct H as (t4 & F4 & H). injection H as <-.
  assert (Hcond : forall u, CI (next_bb :: P)
                               (labs (lowered_list blk) ++ cond_bb :: X) u ->
                            forall tg, Some cond_bb = Some tg ->
                                       branchable (next_bb :: P) u tg).
  { intros u Hu tg [= <-].
    destruct (ci_placed _ _ _ _ Hu cond_bb) as [Hin | Hin].
    - apply in_or_app. right. apply in_eq.
    - left. exact Hin.
    - right. left. exact Hin. }
  assert (H4 : CI (next_bb :: P) (labs (lowered_list blk) ++ cond_bb :: X) t4
               /\ closed_cur t4).
  { cbn [bb set_break_bb set_cont_bb] in F4.
    pose proof (Hcond _ F3) as Hc3.
    destruct (bb t3) eqn:Hb3.
    - rewrite <- Hb3 in F4. ci_fwd. split; assumption.
    - assert (closed_cur (set_break_bb None (set_cont_bb None t3)))
        by (apply closed_none; exact Hb3).
      ci_fwd. split; assumption. }
  destruct H4 as [HC4 Hcl4].
  apply ci_set_bb_pending in HC4; [| assumption ..].
  eapply ci_weaken; [apply incl_refl | | exact HC4]. incl_solve.
Qed.

Lemma ci_case_close next rest :
  forall P X t t',
    In next P -> case_close next rest t = Ok t' -> CI P X t ->
    CI P X t' /\ (rest = [] -> closed_cur t').
Proof.
  intros P X t t' Hnext H HC. unfold case_close in H.
  pose proof (ci_pending _ _ _ _ HC) as HEP.
  destruct (bb t) eqn:Hb, rest as [| x r].
  - rewrite <- Hb in H. ci_fwd. split; auto.
  - rewrite bb_new_eq in H. cbv beta iota zeta in H.
    apply ci_bb_new in HC.
    apply (ci_weaken _ _ (next_bb_id t :: P) _ X _
                     (incl_tl _ (incl_refl _)) (incl_refl _)) in HC.
    change (bb (snd (bb_new t))) with (bb t) in H. ci_fwd.
    split; [| discriminate].
    match goal with
    | HC' : cfg_inv _ _ _ ?u, Hcl : closed_cur ?u |- _ =>
        apply ci_set_bb_pending in HC'; [| exact Hcl | exact HEP];
        eapply ci_weaken; [apply incl_refl | | exact HC']
    end.
    apply incl_tl, incl_refl.
  - injection H as <-. split; [exact HC |]. intros _.
    apply closed_none. exact Hb.
  - rewrite bb_new_eq in H. cbv beta iota zeta in H. injection H as <-.
    split; [| discriminate].
    apply ci_set_bb; [apply ci_bb_new; exact HC |].
    apply closed_none. exact Hb.
Qed.

Lemma ci_switch_cases prev next l :
  Forall (under_case CP) l ->
  forall P X t t',
    Forall (under_case (every (wf_in P))) l -> In next P ->
    switch_cases_ stmt_trans prev next l t = Ok t' -> CI P X t ->
    CI P (labs (lowered_cases l) ++ X) t' /\ (l <> [] -> closed_cur t').
Proof.
  induction l as [| e l IH]; intros HP P X t t' HE Hnext H HC.
  - cbn in H. injection H as <-. split; [exact HC | congruence].
  - inversion HP as [| ? ? Hs Hl]; subst.
    inversion HE as [| ? ? HEs HEl]; subst.
    rewrite switch_cases_cons in H. destruct e; try discriminate.
    cbn [under_case] in *.
    apply bind_ok in H. destruct H as (t0 & F0 & H).
    eapply ci_bb_add_branch in HC; [| exact F0 |];
      [| intros tg Htg; right; left; exact Htg].
    clear F0.
    assert (HC1 : CI P X match val_exp with
                         | Some v => lower exp_trans v t0
                         | None => t0
                         end).
    { destruct val_exp; [apply ci_lower_exp_trans |]; exact HC. }
    clear HC.
    apply bind_ok in H. destruct H as (t1 & F1 & H).
    eapply (ci_stmts stmts Hs) in F1; [| eassumption ..]. clear HC1.
    apply bind_ok in H. destruct H as (t2 & F2 & H).
    eapply ci_case_close in F2; [| eassumption ..].
    destruct F2 as [HC2 Hcl2]. pose proof H as H'.
    eapply IH in H; [| eassumption ..]. destruct H as [HC3 Hcl3].
    split.
    + eapply ci_weaken; [apply incl_refl | | exact HC3].
      unfold lowered_cases. cbn [flat_map]. fold (lowered_cases l).
      incl_solve.
    + intros _. destruct l as [| x r].
      * cbn in H'. injection H' as <-. apply Hcl2. reflexivity.
      * apply Hcl3. discriminate.
Qed.

Lemma ci_switch blk has_dflt :
  Forall (under_case CP) blk ->
  forall P X t t',
    Forall (under_case (every (wf_in P))) blk ->
    stmt_trans_switch blk has_dflt t = Ok t' -> CI P X t ->
    CI P (labs (lowered_cases blk) ++ X) t'.
Proof.
  intros HP P X t t' HE H HC.
  unfold stmt_trans_switch, stmt_trans_switch_ in H.
  rewrite bb_new_eq in H. cbv beta iota zeta in H.
  pose proof (ci_pending _ _ _ _ HC) as HEP.
  set (next_bb := next_bb_id t) in *.
  assert (Hincl : incl P (next_bb :: P)) by apply incl_tl, incl_refl.
  assert (Hnext : In next_bb (next_bb :: P)) by apply in_eq.
  apply (under_case_wf_weaken _ _ _ Hincl) in HE.
  apply ci_bb_new in HC.
  apply (ci_weaken _ _ _ _ X _ Hincl (incl_refl _)) in HC.
  apply bind_ok in H. destruct H as (t1 & F1 & H).
  assert (Hcl1 : closed_cur t1)
    by (eapply closed_fn_add_eq; [exact F1 | reflexivity]).
  assert (Hprev : exists p, bb t = Some p).
  { destruct (bb t) as [p |]; [eauto | discriminate]. }
  destruct Hprev as (p & Hp). rewrite Hp in H.
  eapply ci_fn_add in HC; [| exact F1]. destruct HC as [HC _]. clear F1.
  apply (ci_set_jumps _ _ _ _ None (Some next_bb)) in HC;
    [| intros x [=] | intros x [= <-]; right; right; apply in_eq].
  assert (Hcl1' : closed_cur (set_break_bb (Some next_bb)
                                           (set_cont_bb None t1)))
    by exact Hcl1.
  clear Hcl1.
  rewrite bb_new_eq in H. cbv beta iota zeta in H.
  apply ci_bb_new in HC. apply closed_bb_new in Hcl1'.
  pose (u1 := snd (bb_new (set_break_bb (Some next_bb)
                                        (set_cont_bb None t1)))).
  change (CI (next_bb :: P) X u1) in HC.
  change (closed_cur u1) in Hcl1'.
  apply bind_ok in H. destruct H as (t3 & F3 & H).
  apply bind_ok in H. destruct H as (t4 & F4 & H). injection H as <-.
  destruct blk as [| c0 blk'].
  - (* no case at all: the fresh block is dropped *)
    cbn in F3. injection F3 as <-.
    cbn [lowered_cases flat_map labs app].
    assert (H4 : exists u4,
               CI (next_bb :: P) X u4 /\ closed_cur u4 /\
               set_bb (Some next_bb) (set_break_bb None t4)
               = set_bb (Some next_bb) (set_break_bb None u4)).
    { destruct has_dflt.
      - injection F4 as <-. exists u1.
        split; [exact HC | split; [exact Hcl1' | reflexivity]].
      - cbn in F4. injection F4 as <-.
        exists (match bb_add_branch (Some p) None (Some next_bb) u1 with
                | Ok x => x
                | Fatal _ => u1
                end).
        split; [| split; [| reflexivity]].
        + eapply (ci_bb_add_branch _ _ _ (Some p) None (Some next_bb));
            [reflexivity | exact HC |].
          intros tg [= <-]. right. right. apply in_eq.
        + exact Hcl1'. }
    destruct H4 as (u4 & HC4 & Hcl4 & Heq).
    change (CI P X (set_bb (Some next_bb) (set_break_bb None t4))).
    rewrite Heq.
    apply (ci_set_jumps _ _ _ _ (cont_bb u4) None) in HC4;
      [| apply (ci_cont _ _ _ _ HC4) | intros x [=]].
    apply ci_set_bb_pending in HC4; [| exact Hcl4 | exact HEP].
    eapply ci_weaken; [apply incl_refl | | exact HC4].
    apply incl_tl, incl_refl.
  - eapply ci_switch_cases in F3;
      [| exact HP | exact HE | exact Hnext |
       apply ci_set_bb; [exact HC | exact Hcl1']].
    destruct F3 as [HC3 Hcl3]. specialize (Hcl3 ltac:(discriminate)).
    assert (H4 : CI (next_bb :: P)
                    (labs (lowered_cases (c0 :: blk')) ++ X) t4
                 /\ closed_cur t4).
    { destruct has_dflt; ci_fwd; split; assumption. }
    destruct H4 as [HC4 Hcl4].
    apply (ci_set_jumps _ _ _ _ (cont_bb t4) None) in HC4;
      [| apply (ci_cont _ _ _ _ HC4) | intros x [=]].
    apply ci_set_bb_pending in HC4; [| exact Hcl4 | exact HEP].
    eapply ci_weaken; [apply incl_refl | | exact HC4]. incl_solve.
Qed.

Lemma ci_return stmt arg P X t t' :
  is_structured stmt = false ->
  stmt_trans_return stmt arg t = Ok t' -> CI P X t -> CI P X t'.
Proof.
  intros Hs H HC. unfold stmt_trans_return in H.
  destruct arg; ci_fwd; apply ci_set_bb; assumption.
Qed.

Lemma ci_continue P X t t' :
  stmt_trans_continue t = Ok t' -> CI P X t -> CI P X t'.
Proof.
  intros H HC. unfold stmt_trans_continue in H.
  ci_fwd; apply ci_set_bb; assumption.
Qed.

Lemma ci_goto jl P X t t' :
  (forall l, jl = Some l -> In l P) ->
  stmt_trans_goto jl t = Ok t' -> CI P X t -> CI P X t'.
Proof.
  intros Hj H HC. unfold stmt_trans_goto in H.
  assert (Hside : forall u tg, jl = Some tg -> branchable P u tg).
  { intros u tg Htg. right. right. auto. }
  apply bind_ok in H. destruct H as (t0 & F0 & H).
  apply ASSERT_ok in F0. subst t0.
  apply bind_ok in H. destruct H as (t1 & F1 & H).
  eapply ci_bb_add_branch in HC; [| exact F1 | apply Hside].
  ci_fwd; apply ci_set_bb; assumption.
Qed.

Lemma ci_break cond_exp P X t t' :
  stmt_trans_break cond_exp t = Ok t' -> CI P X t -> CI P X t'.
Proof.
  intros H HC. unfold stmt_trans_break in H.
  rewrite bb_new_eq in H. cbv beta iota zeta in H.
  pose proof (ci_pending _ _ _ _ HC) as HEP.
  apply ci_bb_new in HC.
  apply (ci_weaken _ _ (next_bb_id t :: P) _ X _
                   (incl_tl _ (incl_refl _)) (incl_refl _)) in HC.
  destruct cond_exp; ci_fwd;
    match goal with
    | HC' : cfg_inv _ _ _ ?u, Hcl : closed_cur ?u
      |- cfg_inv _ _ _ (set_bb _ ?u) =>
        apply ci_set_bb_pending in HC'; [| exact Hcl | exact HEP];
        eapply ci_weaken; [apply incl_refl | | exact HC'];
        apply incl_tl, incl_refl
    end.
Qed.

(** The invariant of the control flow graph holds after every
    statement that is lowered without a fatal error. *)
Theorem stmt_trans_cfg (s : ast_stmt_t) : CP s.
Proof.
  induction s as [ hd | hd e | hd l r | hd cnd ib el eb IHib IHel IHeb
                 | hd k i b IHi IHb | hd b d IHb | hd val ss | hd a | hd
                 | hd cnd | hd j | hd | hd b IHb ]
    using ast_stmt_ind';
    intros P X t t' HE Hrun HC;
    pose proof (every_self _ _ HE) as Hwf;
    rewrite stmt_trans_unfold in Hrun;
    apply bind_ok in Hrun; destruct Hrun as (t0 & F0 & Hrun);
    (eapply ci_stmt_enter in F0; [| exact Hwf | exact HC]);
    destruct F0 as [HC0 Hb0]; clear HC;
    rewrite lowered_unfold; cbn [labs flat_map];
    fold (labs []); cbn [labs flat_map app] in *.
  - injection Hrun as <-. rewrite app_nil_r. exact HC0.
  - rewrite app_nil_r.
    eapply ci_stmt_trans_exp in Hrun; [| reflexivity | exact HC0]. tauto.
  - rewrite app_nil_r.
    eapply ci_stmt_trans_assign in Hrun; [| reflexivity | exact HC0]. tauto.
  - destruct (every_if _ _ _ _ _ _ HE) as (E1 & E2 & E3).
    eapply (ci_if cnd ib el eb) in Hrun; [| eassumption ..].
    eapply ci_weaken; [apply incl_refl | | exact Hrun].
    fold (labs (lowered_list (olist ib) ++ lowered_elifs el
                  ++ lowered_list (olist eb))).
    incl_solve.
  - destruct k.
    + destruct (every_for _ _ _ _ HE) as (E1 & E2).
      destruct Hwf as (_ & _ & Hpl). cbn in Hpl.
      eapply (ci_for i b) in Hrun;
        [| exact IHb | destruct i; [exact Hpl | exact I] | exact E2
         | exact Hb0 | exact HC0].
      eapply ci_weaken; [apply incl_refl | | exact Hrun].
      fold (labs (match i with Some x => lowered x | None => [] end
                  ++ lowered_list b)).
      incl_solve.
    + unfold stmt_trans_loop, stmt_trans_loop_, stmt_trans_array_loop
        in Hrun.
      rewrite app_nil_r. injection Hrun as <-.
      apply ci_ERROR. assumption.
  - pose proof (every_switch _ _ _ _ HE) as E1.
    eapply (ci_switch b d) in Hrun; [| eassumption ..].
    eapply ci_weaken; [apply incl_refl | | exact Hrun].
    fold (labs (lowered_cases b)). incl_solve.
  - injection Hrun as <-. rewrite app_nil_r. exact HC0.
  - rewrite app_nil_r. eapply ci_return; [| exact Hrun | exact HC0].
    reflexivity.
  - rewrite app_nil_r. eapply ci_continue; eassumption.
  - rewrite app_nil_r. eapply ci_break; eassumption.
  - rewrite app_nil_r. eapply ci_goto; [| exact Hrun | exact HC0].
    intros l ->. destruct Hwf as (_ & Hg & _). apply Hg. apply in_eq.
  - rewrite app_nil_r. unfold stmt_trans_ddl in Hrun.
    eapply ci_bb_add_stmt; [exact Hrun | exact HC0 | reflexivity].
  - pose proof (every_blk _ _ _ HE) as E1.
    destruct b as [l |].
    + eapply (ci_blk_opt (Some l)) in Hrun; [| eassumption ..].
      eapply ci_weaken; [apply incl_refl | | exact Hrun].
      cbn [olist]. fold (labs (lowered_list l)). incl_solve.
    + injection Hrun as <-. rewrite app_nil_r. exact HC0.
Qed.

End cfg.
(** ** Lowering a whole function *)

(** What the front end guarantees of a body holds of every statement
    that lowering visits, relative to any set of pending blocks that
    holds the labels. *)
Lemma wf_body_every (n : nat) (body : list ast_stmt_t) (P : list bb_ptr) :
  wf_body n body = true -> incl (labels_of body) P ->
  Forall (every (wf_in P)) body.
Proof.
  unfold wf_body. rewrite !andb_true_iff, !forallb_forall.
  intros [[_ Hg] Hp] HP. apply every_list. apply Forall_forall.
  intros s Hs. split; [| split].
  - intros x Hx. apply HP. unfold labels_of. apply in_flat_map. eauto.
  - intros x Hx. apply HP. apply mem_bb_In. apply Hg.
    unfold gotos_of. apply in_flat_map. eauto.
  - apply Hp. exact Hs.
Qed.

Lemma wf_body_labels (n : nat) (body : list ast_stmt_t) (x : bb_ptr) :
  wf_body n body = true -> In x (labels_of body) -> (x < n)%nat.
Proof.
  unfold wf_body. rewrite !andb_true_iff, !forallb_forall.
  intros [[Hl _] _] Hx. apply Nat.ltb_lt. apply Hl. exact Hx.
Qed.

(** The context in which the body of a function is lowered: the entry
    block [n] is current, the exit block [S n] is pending, and every
    block is empty. *)
Lemma fn_new_blocks `{TE : TransExp} ex n b :
  blocks (fn_new (trans_new ex n)) b = empty_bb.
Proof.
  cbn. unfold upd.
  destruct (Nat.eqb b (S n)); [reflexivity |].
  destruct (Nat.eqb b n); reflexivity.
Qed.

Lemma ci_fn_new `{TE : TransExp} ex n P :
  In (S n) P ->
  cfg_inv (n, S n) P [n] (set_bb (Some n) (fn_new (trans_new ex n))).
Proof.
  intros HP. constructor.
  - intros b br. change (blocks (set_bb (Some n) (fn_new (trans_new ex n))))
      with (blocks (fn_new (trans_new ex n))).
    rewrite fn_new_blocks. intros [].
  - intros x [=].
  - intros x [=].
  - reflexivity.
  - exact HP.
  - intros b. change (blocks (set_bb (Some n) (fn_new (trans_new ex n))))
      with (blocks (fn_new (trans_new ex n))).
    rewrite fn_new_blocks. split; constructor.
  - intros x [<- | []]. right. reflexivity.
Qed.

(** The block that is open at the end of the body is closed with a
    branch to the exit block. *)
Lemma ci_close E P X t t' :
  match bb t with
  | Some _ =>
      do t <- bb_add_branch (bb t) None (Some (exit_bb (fn t))) t;
      fn_add_basic_blk (bb t) t
  | None => Ok t
  end = Ok t' ->
  cfg_inv E P X t -> cfg_inv E P X t' /\ closed_cur t'.
Proof.
  intros H HC. destruct (bb t) as [b |] eqn:Hb.
  - apply bind_ok in H. destruct H as (t1 & F1 & H).
    pose proof F1 as F1'. cbn in F1'. injection F1' as F1'.
    assert (Hb1 : bb t1 = Some b) by (rewrite <- F1'; exact Hb).
    eapply ci_bb_add_branch in F1; [| exact HC |].
    + split.
      * eapply ci_fn_add; eassumption.
      * eapply closed_fn_add_cur. exact H.
    + intros tg [= <-]. right. right.
      rewrite (ci_exit_bb _ _ _ _ HC). eapply ci_pending. exact HC.
  - injection H as <-. split; [exact HC | apply closed_none; exact Hb].
Qed.

(** The same closing step leaves every block but the current one as it
    was. *)
Lemma close_blocks (t t' : trans_t) (x : bb_ptr) :
  match bb t with
  | Some _ =>
      do t <- bb_add_branch (bb t) None (Some (exit_bb (fn t))) t;
      fn_add_basic_blk (bb t) t
  | None => Ok t
  end = Ok t' ->
  bb t <> Some x -> blocks t' x = blocks t x.
Proof.
  intros H Hx. destruct (bb t) as [b |] eqn:Hb.
  - apply bind_ok in H. destruct H as (t1 & F1 & H).
    cbn in F1. injection F1 as <-. cbn in H. rewrite Hb in H.
    destruct (fn_add_basic_blk_spec b
                (set_blocks
                   (upd (blocks t) b
                        (mk_bb (bb_stmts (blocks t b))
                               (bb_brs (blocks t b)
                                  ++ [mk_br None (exit_bb (fn t))])
                               (bb_pgbacks (blocks t b)))) t))
      as (t2 & F2 & _ & _ & _ & _ & _ & _ & _ & _ & Hbl & _).
    rewrite F2 in H. injection H as <-. rewrite Hbl. cbn.
    apply upd_other. intros ->. apply Hx. reflexivity.
  - injection H as <-. reflexivity.
Qed.

(** C3 (amended): after a function is lowered without a fatal error,
    every branch target is a block of the function, the entry and the
    exit block are blocks of the function, the exit block has no outgoing
    branch, and no block holds a structured statement.  (That every block
    is reachable from the entry block is not part of it.) *)
Theorem fn_trans_cfg_well_formed `{TE : TransExp}
        (ex : exp_ptr -> ast_exp_t) (n : nat)
        (body : option (list ast_stmt_t)) (t' : trans_t) :
  pgbacks_simple TE ->
  wf_body n (olist body) = true ->
  fn_trans body (trans_new ex n) = Ok t' ->
  cfg_well_formed_but_reach t'.
Proof.
  intros Hpg Hwf H. unfold fn_trans in H.
  change (entry_bb (fn (fn_new (trans_new ex n)))) with n in H.
  remember (set_bb (Some n) (fn_new (trans_new ex n))) as T0 eqn:HT0.
  apply bind_ok in H. destruct H as (t1 & F1 & H).
  apply bind_ok in H. destruct H as (t2 & F2 & H).
  apply bind_ok in H. destruct H as (t3 & F3 & H). injection H as <-.
  set (L := labels_of (olist body)).
  set (P := S n :: L).
  assert (HE : PB (every (wf_in P)) body).
  { destruct body as [l |]; [| exact I].
    apply (wf_body_every n); [exact Hwf |]. apply incl_tl, incl_refl. }
  (* the control flow graph after the body *)
  assert (HC1 : cfg_inv (n, S n) P (labs (lowered_list (olist body)) ++ [n])
                        t1).
  { eapply (ci_blk_opt (n, S n) body); [| exact HE | exact F1 |].
    - destruct body as [l |]; [| exact I].
      apply Forall_forall. intros s _. apply stmt_trans_cfg. exact Hpg.
    - subst T0. apply ci_fn_new. apply in_eq. }
  (* the exit block after the body *)
  assert (HF1 : frame_inv L (S (S n)) (Some n) (blocks T0) None None t1).
  { eapply (FrameThm.fi_blk_opt L (S (S n)) (Some n) (blocks T0) body);
      [| | exact F1 |].
    - destruct body as [l |]; [| exact I].
      apply Forall_forall. intros s _. apply FrameThm.stmt_trans_frame.
    - destruct body as [l |]; [| exact I].
      apply FrameThm.labelled_in_labels_of.
    - subst T0. constructor; cbn; auto. }
  assert (HnL : ~ In (S n) L).
  { intros Hin. apply (wf_body_labels n) in Hin; [lia | exact Hwf]. }
  assert (Hx1 : bb_brs (blocks t1 (S n)) = []).
  { rewrite (fi_blocks _ _ _ _ _ _ _ HF1 (S n));
      [| lia | intros [= Hsn]; lia | exact HnL].
    subst T0.
    change (blocks (set_bb (Some n) (fn_new (trans_new ex n))))
      with (blocks (fn_new (trans_new ex n))).
    rewrite fn_new_blocks. reflexivity. }
  assert (Hcur1 : bb t1 <> Some (S n)).
  { intros Hb. destruct (fi_cur _ _ _ _ _ _ _ HF1 (S n) Hb)
      as [[= Hsn] | [Hin | Hle]]; [lia | contradiction | lia]. }
  (* closing the last block and adding the exit block *)
  pose proof (close_blocks t1 t2 (S n) F2 Hcur1) as Hbl2.
  eapply ci_close in F2; [| exact HC1]. destruct F2 as [HC2 Hcl2].
  pose proof (ci_exit_bb _ _ _ _ HC2) as Hex2. cbn [snd] in Hex2.
  pose proof (ci_entry_bb _ _ _ _ HC2) as Hen2. cbn [fst] in Hen2.
  rewrite Hex2 in F3.
  destruct (fn_add_basic_blk_spec (S n) t2)
    as (t3' & F3' & Hin3 & Hincl3 & _ & Hen3 & Hex3 & Hb3 & _ & _ & Hbl3 & _).
  rewrite F3' in F3. injection F3 as <-.
  assert (Hfn : forall x, branchable P t2 x -> In x (fn_bbs (fn t3'))).
  { intros x [Hx | [Hx | [<- | Hx]]].
    - apply Hincl3. exact Hx.
    - apply Hincl3. apply Hcl2. exact Hx.
    - exact Hin3.
    - assert (Hxx : In x (labs (lowered_list (olist body)) ++ [n]))
        by (apply in_or_app; left; exact Hx).
      destruct (ci_placed _ _ _ _ HC2 x Hxx) as [Hp | Hp];
        apply Hincl3; [exact Hp | apply Hcl2; exact Hp]. }
  unfold cfg_well_formed_but_reach, targets_in_fn, no_structured.
  cbn [fn blocks set_bb]. rewrite Hbl3, Hen3, Hex3, Hen2, Hex2.
  split; [| split; [| split; [| split]]].
  - intros b br _ Hbr. apply Hfn. eapply ci_targets; eassumption.
  - assert (Hxx : In n (labs (lowered_list (olist body)) ++ [n]))
      by (apply in_or_app; right; apply in_eq).
    destruct (ci_placed _ _ _ _ HC2 n Hxx) as [Hp | Hp];
      apply Hincl3; [exact Hp | apply Hcl2; exact Hp].
  - exact Hin3.
  - rewrite Hbl2. exact Hx1.
  - intros b _. apply (ci_simple _ _ _ _ HC2 b).
Qed.

Lemma fn_trans_cfg_well_formed_witness :
  pgbacks_simple plain_lowering /\
  wf_body 1 sample_body = true /\
  fn_trans (Some sample_body) (trans_new arena 1) = Ok sample_fn /\
  cfg_well_formed_but_reach sample_fn.
Proof.
  assert (H1 : pgbacks_simple plain_lowering)
    by (intros cx e H; repeat split; exact H).
  assert (H2 : wf_body 1 (olist (Some sample_body)) = true)
    by (vm_compute; reflexivity).
  assert (H3 : fn_trans (Some sample_body) (trans_new arena 1)
               = Ok sample_fn) by (vm_compute; reflexivity).
  split; [exact H1 |]. split; [exact H2 |]. split; [exact H3 |].
  exact (fn_trans_cfg_well_formed arena 1 (Some sample_body) sample_fn
                                  H1 H2 H3).
Defined.

(** A set of blocks that holds the entry block and the successors of
    each of its members holds every reachable block. *)
Lemma reachable_in_closed (t : trans_t) (S : list bb_ptr) :
  succ_closed t S = true -> In (entry_bb (fn t)) S ->
  forall b, reachable t b -> In b S.
Proof.
  intros Hc He b Hr. induction Hr as [| b br _ IH Hbr]; [exact He |].
  unfold succ_closed in Hc. rewrite forallb_forall in Hc.
  specialize (Hc b IH). rewrite forallb_forall in Hc.
  apply mem_bb_In. apply Hc. exact Hbr.
Qed.

(** C3 fails as stated: not every block is reachable from the entry
    block.  For [return a; b = c; return b;] the statements after the
    first return are lowered into a fresh block 2, which the second
    return adds to the blocks of the function, and no branch goes to
    it. *)
Lemma dead_code_block_unreachable :
  fn_trans (Some dead_code_body) (trans_new arena 0) = Ok dead_code_fn /\
  entry_bb (fn dead_code_fn) = 0%nat /\
  fn_bbs (fn dead_code_fn) = [0; 2; 1]%nat /\
  ~ reachable dead_code_fn 2%nat /\
  ~ cfg_well_formed dead_code_fn.
Proof.
  assert (Hun : ~ reachable dead_code_fn 2%nat).
  { intros Hr.
    apply (reachable_in_closed dead_code_fn [0; 1]%nat) in Hr;
      [| vm_compute; reflexivity | left; reflexivity].
    destruct Hr as [Hr | [Hr | []]]; discriminate. }
  split; [vm_compute; reflexivity |].
  split; [reflexivity |]. split; [vm_compute; reflexivity |].
  split; [exact Hun |].
  intros (_ & _ & _ & _ & Hall & _). apply Hun. apply Hall.
  vm_compute. auto.
Qed.

End CfgThm.

(* ------------------------------------------------------------------ *)
(** ** More on the tables, the modifiers and the helper macros *)
(* ------------------------------------------------------------------ *)

Module EnumFacts.
Import TypeTable.

(** X1. The display names of the type table are pairwise different: the
    name of a type determines its tag. *)
Theorem type_name_determines_tag (a b : type_t) :
  TYPE_NAME a = TYPE_NAME b -> a = b.
Proof.
  destruct a, b; intros H; try reflexivity; vm_compute in H; discriminate H.
Qed.

Lemma type_name_determines_tag_witness :
  TYPE_NAME TYPE_MAP = TYPE_NAME TYPE_MAP /\ TYPE_MAP = TYPE_MAP.
Proof.
  split; [reflexivity |].
  exact (type_name_determines_tag TYPE_MAP TYPE_MAP eq_refl).
Defined.

(** X2. The host size of a type is never above its linear-memory size; the
    two differ exactly for the types narrower than a word (bool, byte,
    int8, int16), for map, whose host size is the one of a 32-bit
    integer, and for tuple, whose host size is zero. *)
Theorem host_size_within_memory_size (t : type_t) :
  exists hs ms,
    TYPE_BYTES t = Some hs /\ TYPE_SIZE t = Some ms /\
    0 <= hs <= ms /\
    (hs <> ms <->
     In t [TYPE_BOOL; TYPE_BYTE; TYPE_INT8; TYPE_INT16; TYPE_MAP;
           TYPE_TUPLE]).
Proof.
  assert (Hle : forall a b, (a <=? b) = true -> a <= b)
    by (intros a b; apply Z.leb_le).
  destruct t; do 2 eexists;
    (split; [reflexivity | split; [reflexivity | split;
       [split; apply Hle; reflexivity |]]]);
    split; intros H;
    try (exfalso; apply H; reflexivity);
    try (intros Heq; discriminate Heq);
    try (cbn; tauto);
    repeat (destruct H as [H | H]; [discriminate H |]); destruct H.
Qed.

End EnumFacts.

Module ModifierAlgebra.
Import Modifier.

(** X3. The value of a list of modifiers is the sum of the bits of the
    flags that occur in it: the order of the list, repetitions and the
    modifier global make no difference, and the value is between 0 and
    0x0F. *)
Theorem mod_of_is_sum_of_flags (ms : list modifier_e) :
  mod_of ms
  = (if mem_mod MOD_LOCAL ms then 1 else 0)
    + (if mem_mod MOD_SHARED ms then 2 else 0)
    + (if mem_mod MOD_TRANSFER ms then 4 else 0)
    + (if mem_mod MOD_READONLY ms then 8 else 0)
  /\ 0 <= mod_of ms <= 15.
Proof.
  assert (Hsum : mod_of ms
                 = (if mem_mod MOD_LOCAL ms then 1 else 0)
                   + (if mem_mod MOD_SHARED ms then 2 else 0)
                   + (if mem_mod MOD_TRANSFER ms then 4 else 0)
                   + (if mem_mod MOD_READONLY ms then 8 else 0)).
  { induction ms as [| a ms IH]; [reflexivity |].
    change (mod_of (a :: ms)) with (Z.lor (mod_value a) (mod_of ms)).
    rewrite IH.
    change (mem_mod MOD_LOCAL (a :: ms))
      with (modifier_eqb MOD_LOCAL a || mem_mod MOD_LOCAL ms).
    change (mem_mod MOD_SHARED (a :: ms))
      with (modifier_eqb MOD_SHARED a || mem_mod MOD_SHARED ms).
    change (mem_mod MOD_TRANSFER (a :: ms))
      with (modifier_eqb MOD_TRANSFER a || mem_mod MOD_TRANSFER ms).
    change (mem_mod MOD_READONLY (a :: ms))
      with (modifier_eqb MOD_READONLY a || mem_mod MOD_READONLY ms).
    destruct a, (mem_mod MOD_LOCAL ms), (mem_mod MOD_SHARED ms),
      (mem_mod MOD_TRANSFER ms), (mem_mod MOD_READONLY ms); reflexivity. }
  split; [exact Hsum |]. rewrite Hsum.
  destruct (mem_mod MOD_LOCAL ms), (mem_mod MOD_SHARED ms),
    (mem_mod MOD_TRANSFER ms), (mem_mod MOD_READONLY ms); lia.
Qed.

End ModifierAlgebra.

(* ------------------------------------------------------------------ *)
(** ** What statement emission builds *)
(* ------------------------------------------------------------------ *)

Module EmitFacts.
Import Examples.
Import StmtFacts.

Section emit.
Context `{GE : GenExp}.

(** Emission of an assignment stops only at the assertions on the left
    side, never at the one on the statement kind. *)
Lemma stmt_gen_assign_fatal (l r : exp_ptr) (g : gen_t) (f : fatal_t) :
  stmt_gen_assign l r g = Fatal f -> f = ASSERT_gen_lvalue.
Proof.
  unfold stmt_gen_assign. intros H.
  destruct (exp_gen g (Some r)) as [g1 value].
  repeat match type of H with
         | context [match ?x with _ => _ end] => destruct x
         | Ok _ = Fatal _ => discriminate H
         | Fatal _ = Fatal _ => injection H as <-; reflexivity
         end.
Qed.

(** X5. Whatever emission builds for an assignment writes the generated
    value of the right side to a global, to a local with an index that
    is not negative, or to memory; it is never a call. *)
Theorem stmt_gen_assign_writes_value (l r : exp_ptr) (g g' : gen_t)
        (e : BinaryenExpression) :
  stmt_gen_assign l r g = Ok (g', Some e) ->
  is_call (Some e) = false /\
  (exists g1 v, exp_gen g (Some r) = (g1, Some v) /\
                written_value e = Some v) /\
  (forall i v, e = BinaryenSetLocal i v -> 0 <= i).
Proof.
  unfold stmt_gen_assign. intros H.
  destruct (exp_gen g (Some r)) as [g1 value] eqn:Hv.
  repeat match type of H with
         | context [match ?x with _ => _ end] => destruct x eqn:?
         | Fatal _ = Ok _ => discriminate H
         | Ok (_, None) = Ok (_, Some _) => discriminate H
         end;
    injection H as <- <-;
    (split; [reflexivity | split; [do 2 eexists; split; reflexivity |]]);
    intros i v Heq; try discriminate Heq.
  injection Heq as <- _.
  match goal with
  | Hneg : (?x <? 0) = false |- 0 <= ?x => apply Z.ltb_ge in Hneg; exact Hneg
  end.
Qed.

(** X6. Every store that emission builds for an assignment has alignment 0
    and the width of a linear-memory size of the type table: 0, 4 or 8
    bytes. *)
Theorem stmt_gen_assign_store_width (l r : exp_ptr) (g g' : gen_t)
        (bytes offset align : Z) (ptr : option BinaryenExpression)
        (v : BinaryenExpression) (ty : BinaryenType) :
  stmt_gen_assign l r g
  = Ok (g', Some (BinaryenStore bytes offset align ptr v ty)) ->
  align = 0 /\ In bytes [0; 4; 8] /\
  exists t, TYPE_SIZE t = Some bytes.
Proof.
  assert (Hsz : forall t, In (type_size t) [0; 4; 8] /\
                          exists t0, TYPE_SIZE t0 = Some (type_size t)).
  { intros t. split; [destruct t; cbn; tauto |].
    exists t. destruct t; reflexivity. }
  unfold stmt_gen_assign. intros H.
  destruct (exp_gen g (Some r)) as [g1 value] eqn:Hv.
  repeat match type of H with
         | context [match ?x with _ => _ end] => destruct x eqn:?
         | Fatal _ = Ok _ => discriminate H
         | Ok (_, None) = Ok (_, Some _) => discriminate H
         | Ok (_, Some (BinaryenSetGlobal _ _)) = _ => discriminate H
         | Ok (_, Some (BinaryenSetLocal _ _)) = _ => discriminate H
         end;
    injection H as <- <- <- <- <- <- <-;
    (split; [reflexivity | apply Hsz]).
Qed.

Lemma stmt_gen_accepts (s : ast_stmt_t) (g : gen_t) :
  is_emittable s = true -> stmt_gen s g <> Fatal ASSERT_invalid_stmt.
Proof.
  intros Hs H. destruct s; try discriminate Hs; cbn in H.
  - discriminate H.
  - apply stmt_gen_assign_fatal in H. discriminate H.
  - unfold stmt_gen_return in H. destruct (exp_gen g arg_exp). discriminate H.
  - discriminate H.
Qed.

(** X7. The emitter stops at the assertion on the statement kind exactly for
    the statements that are not expression, assignment, return or DDL
    statements. *)
Theorem stmt_gen_invalid_iff (s : ast_stmt_t) (g : gen_t) :
  stmt_gen s g = Fatal ASSERT_invalid_stmt <-> is_emittable s = false.
Proof.
  destruct s; cbn; split; intros H;
    try reflexivity; try discriminate H.
  - apply stmt_gen_assign_fatal in H. discriminate H.
  - unfold stmt_gen_return in H.
    destruct (exp_gen g arg_exp). discriminate H.
Qed.

(** X8. A DDL statement is lowered in every context: it becomes the last
    statement of the block that is current after it; and emission builds
    nothing for it. *)
Theorem ddl_lowered_and_dropped `{TE : TransExp} (hd : stmt_hd)
        (t : trans_t) (g : gen_t) :
  exists t' b l,
    stmt_trans (STMT_DDL hd) t = Ok t' /\ bb t' = Some b /\
    bb_stmts (blocks t' b) = l ++ [STMT_DDL hd] /\
    stmt_gen (STMT_DDL hd) g = Ok (g, None).
Proof.
  rewrite stmt_trans_unfold.
  destruct (stmt_enter_ok (STMT_DDL hd) t) as (t0 & b & -> & Hb).
  cbn [bind]. unfold stmt_trans_ddl, bb_add_stmt. rewrite Hb.
  eexists. exists b. eexists. split; [reflexivity |].
  cbn. rewrite upd_same. cbn. auto.
Qed.

End emit.

(** [a = b;] with two locals: emission sets the local [a]. *)
Lemma stmt_gen_assign_writes_value_witness :
  stmt_gen_assign 0%nat 1%nat (mk_gen false arena)
  = Ok (mk_gen false arena, Some (BinaryenSetLocal 0 (BinaryenOther 1))) /\
  (is_call (Some (BinaryenSetLocal 0 (BinaryenOther 1))) = false /\
   (exists g1 v, exp_gen (mk_gen false arena) (Some 1%nat) = (g1, Some v) /\
                 written_value (BinaryenSetLocal 0 (BinaryenOther 1))
                 = Some v) /\
   (forall i v, BinaryenSetLocal 0 (BinaryenOther 1) = BinaryenSetLocal i v ->
                0 <= i)).
Proof.
  assert (H : stmt_gen_assign 0%nat 1%nat (mk_gen false arena)
              = Ok (mk_gen false arena,
                    Some (BinaryenSetLocal 0 (BinaryenOther 1))))
    by reflexivity.
  split; [exact H |].
  exact (stmt_gen_assign_writes_value 0%nat 1%nat _ _ _ H).
Defined.

(** [s = v;] with [s] a stack variable of type [int64] at offset 16 of
    the frame whose base is the local 2: emission stores 8 bytes. *)
Lemma stmt_gen_assign_store_width_witness :
  stmt_gen_assign 0%nat 1%nat (mk_gen false stack_arena)
  = Ok (mk_gen false stack_arena,
        Some (BinaryenStore 8 16 0
                (Some (BinaryenGetLocal 2 BinaryenTypeInt32))
                (BinaryenOther 1) BinaryenTypeInt32)) /\
  (0 = 0 /\ In 8 [0; 4; 8] /\ exists t, TYPE_SIZE t = Some 8).
Proof.
  assert (H : stmt_gen_assign 0%nat 1%nat (mk_gen false stack_arena)
              = Ok (mk_gen false stack_arena,
                    Some (BinaryenStore 8 16 0
                            (Some (BinaryenGetLocal 2 BinaryenTypeInt32))
                            (BinaryenOther 1) BinaryenTypeInt32)))
    by reflexivity.
  split; [exact H |].
  exact (stmt_gen_assign_store_width 0%nat 1%nat _ _ _ _ _ _ _ _ H).
Defined.

(** [m[k] = v;] with [m] a map. *)
Lemma stmt_gen_assign_map_witness :
  exp_id (gen_exps map_gen 0%nat) = Some map_id /\
  is_map_meta (id_meta map_id) = true /\
  stmt_gen (STMT_ASSIGN hd0 0%nat 1%nat) map_gen = Ok (map_gen, None).
Proof.
  split; [reflexivity |]. split; [reflexivity |].
  exact (stmt_gen_assign_map hd0 0%nat 1%nat map_gen map_id
                             eq_refl eq_refl).
Defined.

End EmitFacts.

(* ------------------------------------------------------------------ *)
(** ** What the handlers of the simple statements do *)
(* ------------------------------------------------------------------ *)

Module HandlerFacts.
Import Examples.
Import StmtFacts.
Import LoweredFacts.
Import FrameFacts.

(** X13. An expression statement is kept only when it is a call.  A call is
    appended to the current block and the piggybacks stay where they
    are; for any other expression the statement itself is dropped and
    the piggybacks that lowering the expression left are moved, in
    order, to the statements of the block.  The [is_lval] flag is off
    afterwards and the branches of the block are as before. *)
Theorem stmt_trans_exp_effect `{TE : TransExp} (stmt : ast_stmt_t)
        (e : exp_ptr) (t t' : trans_t) (p : bb_ptr) :
  bb t = Some p ->
  stmt_trans_exp stmt e t = Ok t' ->
  let t1 := lower exp_trans_to_lval e t in
  is_lval t' = false /\ bb t' = Some p /\
  bb_brs (blocks t' p) = bb_brs (blocks t p) /\
  if is_call_exp (exps t1 e)
  then bb_stmts (blocks t' p) = bb_stmts (blocks t p) ++ [stmt] /\
       bb_pgbacks (blocks t' p) = bb_pgbacks (blocks t1 p)
  else bb_stmts (blocks t' p)
       = bb_stmts (blocks t p) ++ bb_pgbacks (blocks t1 p) /\
       bb_pgbacks (blocks t' p) = [].
Proof.
  intros Hb H t1. unfold stmt_trans_exp in H. fold t1 in H.
  cbv zeta in H.
  assert (Hb1 : bb t1 = Some p) by (unfold t1; rewrite lower_bb; exact Hb).
  destruct (lower_blocks exp_trans_to_lval e t p) as (Hs & Hr & _).
  fold t1 in Hs, Hr.
  change (exps (set_is_lval false t1)) with (exps t1) in H.
  change (bb (set_is_lval false t1)) with (bb t1) in H.
  change (blocks (set_is_lval false t1)) with (blocks t1) in H.
  rewrite Hb1 in H.
  destruct (is_call_exp (exps t1 e)).
  - cbn in H. injection H as <-. cbn. rewrite upd_same. cbn.
    rewrite Hs, Hr. auto.
  - unfold has_piggyback in H.
    destruct (bb_pgbacks (blocks t1 p)) as [| x r] eqn:Hpg.
    + injection H as <-. cbn. rewrite app_nil_r, Hs, Hr. auto.
    + injection H as <-. cbn. rewrite upd_same. cbn. rewrite Hs, Hr. auto.
Qed.

(** [f();] with [f()] a call. *)
Lemma stmt_trans_exp_effect_witness :
  let stmt := STMT_EXP hd0 13%nat in
  let t' := ok_or open_ctx (stmt_trans_exp stmt 13%nat open_ctx) in
  bb open_ctx = Some O /\
  stmt_trans_exp stmt 13%nat open_ctx = Ok t' /\
  is_lval t' = false /\ bb t' = Some O /\
  bb_brs (blocks t' O) = bb_brs (blocks open_ctx O) /\
  if is_call_exp (exps (lower exp_trans_to_lval 13%nat open_ctx) 13%nat)
  then bb_stmts (blocks t' O) = bb_stmts (blocks open_ctx O) ++ [stmt] /\
       bb_pgbacks (blocks t' O)
       = bb_pgbacks (blocks (lower exp_trans_to_lval 13%nat open_ctx) O)
  else bb_stmts (blocks t' O)
       = bb_stmts (blocks open_ctx O)
         ++ bb_pgbacks (blocks (lower exp_trans_to_lval 13%nat open_ctx) O) /\
       bb_pgbacks (blocks t' O) = [].
Proof.
  intros stmt t'.
  assert (H1 : bb open_ctx = Some O) by reflexivity.
  assert (H2 : stmt_trans_exp stmt 13%nat open_ctx = Ok t')
    by (vm_compute; reflexivity).
  split; [exact H1 |]. split; [exact H2 |].
  exact (stmt_trans_exp_effect stmt 13%nat open_ctx t' O H1 H2).
Defined.

(** X14. A tuple assignment whose left side has fewer elements than its
    right side stops the compilation at the assertion on the element
    counts. *)
Theorem tuple_assign_fewer_targets `{TE : TransExp} (stmt : ast_stmt_t)
        (l r : exp_ptr) (t : trans_t) :
  let t1 := lower exp_trans_to_rval r (lower exp_trans_to_lval l t) in
  is_tuple_exp (exps t1 l) = true ->
  is_tuple_exp (exps t1 r) = true ->
  (List.length (u_tup_exps (exps t1 l))
   < List.length (u_tup_exps (exps t1 r)))%nat ->
  stmt_trans_assign stmt l r t = Fatal ASSERT_tuple_arity.
Proof.
  intros t1 Hl Hr Hlen. unfold stmt_trans_assign. fold t1.
  rewrite Hl, Hr. cbn [ASSERT bind].
  destruct (Nat.eqb_spec (List.length (u_tup_exps (exps t1 l)))
                         (List.length (u_tup_exps (exps t1 r))));
    [lia |].
  destruct (Nat.ltb_spec (List.length (u_tup_exps (exps t1 r)))
                         (List.length (u_tup_exps (exps t1 l))));
    [lia | reflexivity].
Qed.

(** [(y, z) = (x, y, z);] *)
Lemma tuple_assign_fewer_targets_witness :
  stmt_trans_assign (STMT_ASSIGN hd0 11%nat 14%nat) 11%nat 14%nat open_ctx
  = Fatal ASSERT_tuple_arity.
Proof.
  apply (tuple_assign_fewer_targets (STMT_ASSIGN hd0 11%nat 14%nat)
                                    11%nat 14%nat open_ctx);
    [reflexivity | reflexivity | cbn; lia].
Defined.

(** X15. In a tuple assignment whose left side is the longer one, a value
    that is not a tuple moves the index into the left side on by two:
    its type is compared with the element at the index, and it is
    assigned to the element after that one. *)
Theorem assign_flatten_scalar_advances_twice `{TE : TransExp}
        (pos : errpos_t) (vars vals : list exp_ptr) (i v v' : nat)
        (val : exp_ptr) (t t' : trans_t) (p : bb_ptr) :
  nth_error vals i = Some val ->
  is_tuple_type (exp_meta (exps t val)) = false ->
  bb t = Some p ->
  assign_flatten pos vars vals i (v, t) = Ok (v', t') ->
  v' = S (S v) /\
  exists a1 a2,
    nth_error vars v = Some a1 /\ nth_error vars (S v) = Some a2 /\
    meta_cmp (exp_meta (exps t a1)) (exp_meta (exps t val)) = 0 /\
    bb_stmts (blocks t' p)
    = bb_stmts (blocks t p) ++ [stmt_new_assign a2 val pos].
Proof.
  intros Hval Htup Hb H. unfold assign_flatten, array_get_exp in H.
  rewrite Hval in H. cbn [bind] in H. rewrite Htup in H.
  destruct (nth_error vars v) as [a1 |] eqn:H1; [| discriminate H].
  cbn [bind] in H. unfold ASSERT in H.
  destruct (Z.eqb_spec (meta_cmp (exp_meta (exps t a1))
                                 (exp_meta (exps t val))) 0) as [Hcmp |];
    [| discriminate H].
  cbn [bind] in H.
  destruct (nth_error vars (S v)) as [a2 |] eqn:H2; [| discriminate H].
  cbn [bind] in H. rewrite Hb in H. cbn in H. injection H as <- <-.
  split; [reflexivity |]. exists a1, a2.
  split; [reflexivity |]. split; [reflexivity |]. split; [exact Hcmp |].
  cbn. rewrite upd_same. reflexivity.
Qed.

(** The first value of [(a, b, c) = (x, (y, z));]. *)
Lemma assign_flatten_scalar_advances_twice_witness :
  let t' := snd (match assign_flatten (1, 1)%nat [0; 1; 2]%nat [3; 11]%nat
                                      0 (O, open_ctx) with
                 | Ok st => st
                 | Fatal _ => (O, open_ctx)
                 end) in
  assign_flatten (1, 1)%nat [0; 1; 2]%nat [3; 11]%nat 0 (O, open_ctx)
  = Ok (2%nat, t') /\
  2%nat = 2%nat /\
  exists a1 a2,
    nth_error [0; 1; 2]%nat 0 = Some a1 /\
    nth_error [0; 1; 2]%nat 1 = Some a2 /\
    meta_cmp (exp_meta (exps open_ctx a1)) (exp_meta (exps open_ctx 3%nat))
    = 0 /\
    bb_stmts (blocks t' O)
    = bb_stmts (blocks open_ctx O) ++ [stmt_new_assign a2 3%nat (1, 1)%nat].
Proof.
  intros t'.
  assert (H : assign_flatten (1, 1)%nat [0; 1; 2]%nat [3; 11]%nat 0
                             (O, open_ctx) = Ok (2%nat, t'))
    by (vm_compute; reflexivity).
  split; [exact H |].
  exact (assign_flatten_scalar_advances_twice
           (1, 1)%nat [0; 1; 2]%nat [3; 11]%nat 0 0 2 3%nat open_ctx t' O
           eq_refl eq_refl eq_refl H).
Defined.

(** X16. A break closes the current block and always opens a new one.  With
    a condition the block gets a branch to the break target guarded by
    the condition and then an unguarded branch to the new block; without
    one it gets an unguarded branch to the break target only, and no
    branch leads to the new block.  The new block is empty and is the
    current block afterwards. *)
Theorem stmt_trans_break_effect `{TE : TransExp} (cond : option exp_ptr)
        (t : trans_t) (b k : bb_ptr) :
  bb t = Some b -> (b < next_bb_id t)%nat -> break_bb t = Some k ->
  exists t',
    stmt_trans_break cond t = Ok t' /\
    bb t' = Some (next_bb_id t) /\
    next_bb_id t' = S (next_bb_id t) /\
    blocks t' (next_bb_id t) = empty_bb /\
    bb_brs (blocks t' b)
    = bb_brs (blocks t b)
      ++ match cond with
         | Some c => [mk_br (Some c) k; mk_br None (next_bb_id t)]
         | None => [mk_br None k]
         end /\
    bb_stmts (blocks t' b) = bb_stmts (blocks t b) /\
    In b (fn_bbs (fn t')) /\ break_bb t' = Some k.
Proof.
  intros Hb Hlt Hk. unfold stmt_trans_break. rewrite bb_new_eq.
  cbv beta iota zeta.
  set (n := next_bb_id t).
  set (t0 := snd (bb_new t)).
  assert (Hb0 : bb t0 = Some b) by exact Hb.
  assert (Hk0 : break_bb t0 = Some k) by exact Hk.
  assert (Hn0 : next_bb_id t0 = S n) by reflexivity.
  assert (Hbl0 : blocks t0 = upd (blocks t) n empty_bb) by reflexivity.
  assert (Hne : b <> n) by (unfold n; lia).
  rewrite Hk0. cbn [ASSERT bind].
  set (t1 := match cond with
             | Some c => lower exp_trans c t0
             | None => t0
             end).
  assert (Hb1 : bb t1 = Some b)
    by (unfold t1; destruct cond; [rewrite lower_bb |]; exact Hb0).
  assert (Hk1 : break_bb t1 = Some k)
    by (unfold t1; destruct cond; [rewrite lower_break_bb |]; exact Hk0).
  assert (Hn1 : next_bb_id t1 = S n)
    by (unfold t1; destruct cond; [rewrite lower_next_bb_id |]; exact Hn0).
  assert (Hs1 : bb_stmts (blocks t1 b) = bb_stmts (blocks t b)).
  { unfold t1. destruct cond as [c |];
      [destruct (lower_blocks exp_trans c t0 b) as (-> & _ & _) |];
      rewrite Hbl0, upd_other by exact Hne; reflexivity. }
  assert (Hr1 : bb_brs (blocks t1 b) = bb_brs (blocks t b)).
  { unfold t1. destruct cond as [c |];
      [destruct (lower_blocks exp_trans c t0 b) as (_ & -> & _) |];
      rewrite Hbl0, upd_other by exact Hne; reflexivity. }
  assert (Hf1 : blocks t1 n = empty_bb).
  { unfold t1. destruct cond as [c |].
    - destruct (lower_blocks exp_trans c t0 n) as (_ & _ & Hsame).
      rewrite Hsame; [rewrite Hbl0; apply upd_same |].
      rewrite Hb0. intros [= Heq]. exact (Hne Heq).
    - rewrite Hbl0. apply upd_same. }
  destruct cond as [c |].
  - change (lower exp_trans c t0) with t1. cbv zeta. clearbody t1.
    unfold bb_add_branch at 1. rewrite Hb1, Hk1. cbn [bind].
    unfold bb_add_branch at 1. cbn [bb set_blocks]. rewrite Hb1.
    cbn [bind bb set_blocks]. rewrite ?Hb1.
    match goal with
    | |- context [fn_add_basic_blk (Some b) ?u] =>
        destruct (fn_add_basic_blk_spec b u)
          as (t3 & -> & Hin & _ & _ & _ & _ & Hb3 & _ & Hk3 & Hbl3 & Hn3 & _)
    end.
    cbn [bind]. eexists. split; [reflexivity |].
    cbn [bb next_bb_id blocks break_bb fn set_bb].
    rewrite Hbl3, Hn3, Hk3. cbn.
    rewrite upd_same. cbn. rewrite upd_same. cbn.
    rewrite !upd_other by (intros Heq; apply Hne; symmetry; exact Heq).
    rewrite Hf1, Hr1, Hs1, <- app_assoc. cbn.
    repeat split; try assumption; reflexivity.
  - change t0 with t1. clearbody t1.
    unfold bb_add_branch at 1. rewrite Hb1, Hk1. cbn [bind].
    cbn [bb set_blocks]. rewrite ?Hb1.
    match goal with
    | |- context [fn_add_basic_blk (Some b) ?u] =>
        destruct (fn_add_basic_blk_spec b u)
          as (t3 & -> & Hin & _ & _ & _ & _ & Hb3 & _ & Hk3 & Hbl3 & Hn3 & _)
    end.
    cbn [bind]. eexists. split; [reflexivity |].
    cbn [bb next_bb_id blocks break_bb fn set_bb].
    rewrite Hbl3, Hn3, Hk3. cbn.
    rewrite upd_same. cbn.
    rewrite !upd_other by (intros Heq; apply Hne; symmetry; exact Heq).
    rewrite Hf1, Hr1, Hs1.
    repeat split; try assumption; reflexivity.
Qed.


End HandlerFacts.

(* ------------------------------------------------------------------ *)
(** ** Properties of the context that every lowering step keeps *)
(* ------------------------------------------------------------------ *)

Module Preserve.
Import Examples.
Import StmtFacts.
Import LoweredFacts.
Import FrameFacts.

Lemma ASSERT_same cnd f (t t' : trans_t) : ASSERT cnd f t = Ok t' -> t' = t.
Proof. unfold ASSERT. destruct cnd; congruence. Qed.

(** A property [Q] of the context that the steps of the simple
    statements keep is kept by their handlers. *)
Section simple.
Context `{TE : TransExp}.
Variable Q : trans_t -> Prop.
Hypothesis Q_lower_exp : forall e t, Q t -> Q (lower exp_trans e t).
Hypothesis Q_lower_lval :
  forall e t, Q t -> Q (lower exp_trans_to_lval e t).
Hypothesis Q_lower_rval :
  forall e t, Q t -> Q (lower exp_trans_to_rval e t).
Hypothesis Q_is_lval : forall v t, Q t -> Q (set_is_lval v t).
Hypothesis Q_add_stmt :
  forall s t t', is_emittable s = true -> Q t ->
                 bb_add_stmt (bb t) s t = Ok t' -> Q t'.
Hypothesis Q_flush :
  forall p t, bb t = Some p -> Q t ->
    Q (set_blocks
         (upd (blocks t) p
              (mk_bb (bb_stmts (blocks t p) ++ bb_pgbacks (blocks t p))
                     (bb_brs (blocks t p)) []))
         t).

Lemma q_stmt_trans_exp stmt e t t' :
  is_emittable stmt = true ->
  stmt_trans_exp stmt e t = Ok t' -> Q t -> Q t'.
Proof.
  intros Hs H HQ. unfold stmt_trans_exp in H. cbv zeta in H.
  assert (HQ1 : Q (set_is_lval false (lower exp_trans_to_lval e t)))
    by (apply Q_is_lval, Q_lower_lval, HQ).
  set (t1 := set_is_lval false (lower exp_trans_to_lval e t)) in *.
  clearbody t1.
  destruct (is_call_exp (exps t1 e)).
  - eapply Q_add_stmt; eassumption.
  - destruct (bb t1) as [p |] eqn:Hb; [| discriminate H].
    destruct (has_piggyback (blocks t1 p)).
    + injection H as <-. apply Q_flush; assumption.
    + injection H as <-. assumption.
Qed.

Lemma q_stmt_trans_assign stmt l r t t' :
  is_emittable stmt = true ->
  stmt_trans_assign stmt l r t = Ok t' -> Q t -> Q t'.
Proof.
  intros Hs H HQ. unfold stmt_trans_assign in H. cbv zeta in H.
  assert (HQ1 : Q (lower exp_trans_to_rval r (lower exp_trans_to_lval l t)))
    by (apply Q_lower_rval, Q_lower_lval, HQ).
  set (t1 := lower exp_trans_to_rval r (lower exp_trans_to_lval l t)) in *.
  clearbody t1. clear HQ.
  destruct (is_tuple_exp (exps t1 l)); [| eapply Q_add_stmt; eassumption].
  inv_bind H. apply ASSERT_same in E. subst.
  destruct (_ =? _)%nat.
  - eapply (for_range_preserves Q); [| eassumption | assumption].
    intros i u u' Hb Hu. unfold assign_pairwise in Hb.
    inv_bind Hb. inv_bind Hb. inv_bind Hb. apply ASSERT_same in E1. subst.
    eapply Q_add_stmt; [| | eassumption]; [reflexivity | assumption].
  - inv_bind H. apply ASSERT_same in E. subst. inv_bind H.
    injection H as <-.
    eapply (for_range_preserves (fun st => Q (snd st)));
      [| eassumption | assumption].
    intros i [k u] [k' u'] Hb Hu. cbn [snd] in *.
    unfold assign_flatten in Hb. inv_bind Hb.
    destruct (is_tuple_type _).
    + change (Q (snd (k', u'))).
      eapply (for_range_preserves (fun st => Q (snd st)));
        [| eassumption | assumption].
      intros j [k1 u1] [k2 u2] Hb' Hu1. cbn [snd] in *.
      unfold assign_flatten_elem in Hb'.
      inv_bind Hb'. inv_bind Hb'. inv_bind Hb'. apply ASSERT_same in E3.
      subst. inv_bind Hb'. injection Hb' as <- <-.
      eapply Q_add_stmt; [| | eassumption]; [reflexivity | assumption].
    + inv_bind Hb. inv_bind Hb. apply ASSERT_same in E2. subst.
      inv_bind Hb. inv_bind Hb. injection Hb as <- <-.
      eapply Q_add_stmt; [| | eassumption]; [reflexivity | assumption].
Qed.

End simple.

(** A property [Q] of the context that every step of the lowering
    pass keeps is kept by the lowering of every statement. *)
Section full.
Context `{TE : TransExp}.
Variable Q : trans_t -> Prop.
Hypothesis Q_lower_exp : forall e t, Q t -> Q (lower exp_trans e t).
Hypothesis Q_lower_lval :
  forall e t, Q t -> Q (lower exp_trans_to_lval e t).
Hypothesis Q_lower_rval :
  forall e t, Q t -> Q (lower exp_trans_to_rval e t).
Hypothesis Q_is_lval : forall v t, Q t -> Q (set_is_lval v t).
Hypothesis Q_add_stmt :
  forall s t t', is_emittable s = true -> Q t ->
                 bb_add_stmt (bb t) s t = Ok t' -> Q t'.
Hypothesis Q_flush :
  forall p t, bb t = Some p -> Q t ->
    Q (set_blocks
         (upd (blocks t) p
              (mk_bb (bb_stmts (blocks t p) ++ bb_pgbacks (blocks t p))
                     (bb_brs (blocks t p)) []))
         t).
Hypothesis Q_bb_new : forall t, Q t -> Q (snd (bb_new t)).
Hypothesis Q_add_branch :
  forall b c tg t t', Q t -> bb_add_branch b c tg t = Ok t' -> Q t'.
Hypothesis Q_fn_add :
  forall b t t', Q t -> fn_add_basic_blk b t = Ok t' -> Q t'.
Hypothesis Q_set_bb : forall p t, Q t -> Q (set_bb p t).
Hypothesis Q_set_cont : forall p t, Q t -> Q (set_cont_bb p t).
Hypothesis Q_set_break : forall p t, Q t -> Q (set_break_bb p t).
Hypothesis Q_ERROR :
  forall p t, Q t -> Q (ERROR ERROR_NOT_SUPPORTED p t).

Ltac q_solve :=
  solve [ repeat first
            [ assumption
            | apply Q_set_bb | apply Q_set_cont | apply Q_set_break
            | apply Q_is_lval | apply Q_bb_new | apply Q_lower_exp
            | apply Q_lower_lval | apply Q_lower_rval | apply Q_ERROR ] ].

Ltac q_fwd :=
  repeat match goal with
  | H : bind _ _ = Ok _ |- _ => inv_bind H
  | H : Fatal _ = Ok _ |- _ => discriminate H
  | H : Ok _ = Ok ?t' |- _ => is_var t'; injection H as <-
  | H : ASSERT _ _ _ = Ok _ |- _ => apply ASSERT_same in H; subst
  | H : bb_add_branch ?b ?c ?tg ?X = Ok ?t' |- _ =>
      assert (Q t') by (apply (Q_add_branch b c tg X t'); [q_solve | exact H]);
      clear H
  | H : fn_add_basic_blk ?b ?X = Ok ?t' |- _ =>
      assert (Q t') by (apply (Q_fn_add b X t'); [q_solve | exact H]);
      clear H
  | H : bb_add_stmt _ ?s ?X = Ok ?t' |- _ =>
      assert (Q t')
        by (apply (Q_add_stmt s X t'); [reflexivity | q_solve | exact H]);
      clear H
  end.

#[local] Abbreviation QP :=
  (fun s => forall t t', stmt_trans s t = Ok t' -> Q t -> Q t').

Lemma q_stmts (l : list ast_stmt_t) :
  Forall QP l -> forall t t', stmts_trans l t = Ok t' -> Q t -> Q t'.
Proof. apply stmts_trans_preserves. Qed.

Lemma q_blk_opt (b : option (list ast_stmt_t)) :
  PB QP b ->
  forall t t',
    match b with Some l => blk_trans l t | None => Ok t end = Ok t' ->
    Q t -> Q t'.
Proof.
  intros HP t t' H HQ. destruct b as [l |].
  - eapply q_stmts; eassumption.
  - injection H as <-. assumption.
Qed.

Lemma q_stmt_enter (s : ast_stmt_t) t t' :
  stmt_enter s t = Ok t' -> Q t -> Q t'.
Proof.
  unfold stmt_enter. intros H HQ.
  destruct (stmt_label_bb s) as [l |].
  - destruct (bb t) eqn:Hb; q_fwd; q_solve.
  - destruct (bb t) eqn:Hb.
    + q_fwd. q_solve.
    + rewrite bb_new_eq in H. q_fwd. q_solve.
Qed.

Lemma q_if_arm prev next cond blk :
  PB QP blk ->
  forall t t', if_arm_ stmt_trans prev next cond blk t = Ok t' ->
               Q t -> Q t'.
Proof.
  intros HP t t' H HQ. unfold if_arm_ in H.
  rewrite bb_new_eq in H. cbv beta iota zeta in H.
  apply bind_ok in H. destruct H as (t1 & F1 & H).
  apply bind_ok in H. destruct H as (t2 & F2 & H).
  q_fwd.
  assert (HQ2 : Q t2).
  { eapply (q_blk_opt blk HP); [exact F2 |]. destruct cond; q_solve. }
  clear F2. q_fwd. q_solve.
Qed.

Lemma q_elifs prev next el :
  Forall (under_if QP) el ->
  forall t t', elif_arms_ stmt_trans prev next el t = Ok t' -> Q t -> Q t'.
Proof.
  induction 1 as [| e r He Hr IH]; intros t t' H HQ.
  - cbn in H. q_fwd. q_solve.
  - rewrite elif_arms_cons in H. destruct e; try discriminate H.
    apply bind_ok in H. destruct H as (t1 & F1 & H).
    eapply IH; [exact H |]. eapply q_if_arm; [exact He | exact F1 | exact HQ].
Qed.

Lemma q_if cond ib el eb :
  PB QP ib -> Forall (under_if QP) el -> PB QP eb ->
  forall t t', stmt_trans_if cond ib el eb t = Ok t' -> Q t -> Q t'.
Proof.
  intros P1 P2 P3 t t' H HQ. unfold stmt_trans_if, stmt_trans_if_ in H.
  rewrite bb_new_eq in H. cbv beta iota zeta in H.
  apply bind_ok in H. destruct H as (t1 & F1 & H).
  apply bind_ok in H. destruct H as (t2 & F2 & H).
  apply bind_ok in H. destruct H as (t3 & F3 & H).
  apply bind_ok in H. destruct H as (t4 & F4 & H).
  q_fwd.
  eapply q_if_arm in F2; [| exact P1 | assumption].
  eapply q_elifs in F3; [| exact P2 | assumption].
  assert (HQ4 : Q t4).
  { destruct eb as [l |].
    - eapply q_if_arm in F4; [exact F4 | exact P3 | assumption].
    - q_fwd. q_solve. }
  q_solve.
Qed.

Lemma q_for init blk :
  match init with Some s => QP s | None => True end -> Forall QP blk ->
  forall t t', stmt_trans_for_loop init blk t = Ok t' -> Q t -> Q t'.
Proof.
  intros P1 P2 t t' H HQ.
  unfold stmt_trans_for_loop, stmt_trans_for_loop_ in H.
  rewrite bb_new_eq in H. cbv beta iota zeta in H.
  rewrite (bb_new_eq (snd (bb_new t))) in H. cbv beta iota zeta in H.
  apply bind_ok in H. destruct H as (t0 & F0 & H).
  assert (HQ0 : Q t0).
  { destruct init as [s |].
    - eapply P1; [exact F0 | q_solve].
    - q_fwd. q_solve. }
  clear F0 HQ.
  apply bind_ok in H. destruct H as (t1 & F1 & H).
  apply bind_ok in H. destruct H as (t2 & F2 & H).
  apply bind_ok in H. destruct H as (t3 & F3 & H).
  apply bind_ok in H. destruct H as (t4 & F4 & H).
  q_fwd.
  eapply (q_stmts blk P2) in F3; [| q_solve].
  assert (HQ4 : Q t4).
  { cbn [bb set_break_bb set_cont_bb] in F4.
    destruct (bb t3); q_fwd; q_solve. }
  q_solve.
Qed.

Lemma q_switch_cases prev next l :
  Forall (under_case QP) l ->
  forall t t', switch_cases_ stmt_trans prev next l t = Ok t' ->
               Q t -> Q t'.
Proof.
  induction 1 as [| c r Hc Hr IH]; intros t t' H HQ.
  - cbn in H. q_fwd. q_solve.
  - rewrite switch_cases_cons in H. destruct c; try discriminate H.
    apply bind_ok in H. destruct H as (t1 & F1 & H).
    apply bind_ok in H. destruct H as (t2 & F2 & H).
    apply bind_ok in H. destruct H as (t3 & F3 & H).
    q_fwd.
    eapply (q_stmts stmts Hc) in F2; [| destruct val_exp; q_solve].
    eapply IH; [exact H |].
    unfold case_close in F3.
    destruct (bb t2), r; try rewrite bb_new_eq in F3;
      cbv beta iota zeta in F3; q_fwd; q_solve.
Qed.

Lemma q_switch blk has_dflt :
  Forall (under_case QP) blk ->
  forall t t', stmt_trans_switch blk has_dflt t = Ok t' -> Q t -> Q t'.
Proof.
  intros HP t t' H HQ. unfold stmt_trans_switch, stmt_trans_switch_ in H.
  rewrite bb_new_eq in H. cbv beta iota zeta in H.
  apply bind_ok in H. destruct H as (t1 & F1 & H).
  rewrite bb_new_eq in H. cbv beta iota zeta in H.
  apply bind_ok in H. destruct H as (t3 & F3 & H).
  apply bind_ok in H. destruct H as (t4 & F4 & H).
  q_fwd.
  eapply (q_switch_cases _ _ blk HP) in F3; [| q_solve].
  assert (HQ4 : Q t4).
  { destruct has_dflt; q_fwd; q_solve. }
  q_solve.
Qed.

(** Every statement keeps [Q]. *)
Theorem stmt_trans_keeps (s : ast_stmt_t) : QP s.
Proof.
  induction s as [ hd | hd e | hd l r | hd cnd ib el eb IHib IHel IHeb
                 | hd k i b IHi IHb | hd b d IHb | hd val ss | hd a | hd
                 | hd cnd | hd j | hd | hd b IHb ]
    using ast_stmt_ind';
    intros t t' Hrun HQ;
    rewrite stmt_trans_unfold in Hrun;
    apply bind_ok in Hrun; destruct Hrun as (t0 & F0 & Hrun);
    (eapply q_stmt_enter in F0; [| exact HQ]); clear HQ.
  - q_fwd. q_solve.
  - eapply (q_stmt_trans_exp Q); try eassumption. reflexivity.
  - eapply (q_stmt_trans_assign Q); try eassumption. reflexivity.
  - eapply (q_if cnd ib el eb); eassumption.
  - destruct k.
    + eapply (q_for i b); eassumption.
    + unfold stmt_trans_loop, stmt_trans_loop_, stmt_trans_array_loop
        in Hrun.
      q_fwd. q_solve.
  - eapply (q_switch b d); eassumption.
  - q_fwd. q_solve.
  - unfold stmt_trans_return in Hrun. destruct a; q_fwd; q_solve.
  - unfold stmt_trans_continue in Hrun. q_fwd. q_solve.
  - unfold stmt_trans_break in Hrun. rewrite bb_new_eq in Hrun.
    cbv beta iota zeta in Hrun. destruct cnd; q_fwd; q_solve.
  - unfold stmt_trans_goto in Hrun. q_fwd. q_solve.
  - unfold stmt_trans_ddl in Hrun. q_fwd. q_solve.
  - eapply (q_blk_opt b); eassumption.
Qed.

End full.

(** What the two builders that write to a block do. *)
Lemma bb_add_stmt_inv b s (t t' : trans_t) :
  bb_add_stmt b s t = Ok t' ->
  exists p, b = Some p /\
    t' = set_blocks
           (upd (blocks t) p
                (mk_bb (bb_stmts (blocks t p) ++ [s]) (bb_brs (blocks t p))
                       (bb_pgbacks (blocks t p)))) t.
Proof.
  destruct b as [p |]; cbn; [| discriminate].
  intros [= <-]. eauto.
Qed.

Lemma bb_add_branch_inv b c tg (t t' : trans_t) :
  bb_add_branch b c tg t = Ok t' ->
  exists p x, b = Some p /\ tg = Some x /\
    t' = set_blocks
           (upd (blocks t) p
                (mk_bb (bb_stmts (blocks t p))
                       (bb_brs (blocks t p) ++ [mk_br c x])
                       (bb_pgbacks (blocks t p)))) t.
Proof.
  destruct b as [p |], tg as [x |]; cbn; try discriminate.
  intros [= <-]. eauto.
Qed.

Lemma fn_add_basic_blk_inv b (t t' : trans_t) :
  fn_add_basic_blk b t = Ok t' ->
  (exists l, fn_bbs (fn t') = fn_bbs (fn t) ++ l) /\
  entry_bb (fn t') = entry_bb (fn t) /\ exit_bb (fn t') = exit_bb (fn t) /\
  blocks t' = blocks t /\ next_bb_id t' = next_bb_id t /\
  errors t' = errors t.
Proof.
  unfold fn_add_basic_blk. destruct b as [p |]; [| discriminate].
  destruct (mem_bb p (fn_bbs (fn t))); intros [= <-]; cbn.
  - split; [exists []; rewrite app_nil_r; reflexivity | auto].
  - split; [eauto | auto].
Qed.

(** A block of the function stays one while statements are lowered. *)
Lemma stmts_trans_keeps_fn_block `{TE : TransExp} (l : list ast_stmt_t)
      (t t' : trans_t) (x : bb_ptr) :
  stmts_trans l t = Ok t' -> In x (fn_bbs (fn t)) -> In x (fn_bbs (fn t')).
Proof.
  intros H Hx.
  eapply (stmts_trans_preserves (fun u => In x (fn_bbs (fn u))));
    [| exact H | exact Hx].
  apply Forall_forall. intros s _ u u' Hu HQu.
  refine (stmt_trans_keeps (fun u => In x (fn_bbs (fn u)))
            _ _ _ _ _ _ _ _ _ _ _ _ _ s u u' Hu HQu);
    try (intros e v HQ; cbv beta;
         match goal with
         | |- context [lower ?f e v] =>
             destruct (lower_fn_bbs f e v) as (-> & _ & _); exact HQ
         end);
    try (intros; cbv beta; cbn; assumption).
  - intros s0 v v' _ HQ Hv.
    apply bb_add_stmt_inv in Hv. destruct Hv as (p & _ & ->). exact HQ.
  - intros b c tg v v' HQ Hv.
    apply bb_add_branch_inv in Hv. destruct Hv as (p & y & _ & _ & ->).
    exact HQ.
  - intros b v v' HQ Hv.
    apply fn_add_basic_blk_inv in Hv. destruct Hv as ([k ->] & _).
    apply in_or_app. left. exact HQ.
Qed.

(** X17. Lowering a statement changes neither the entry block nor the exit
    block of the function. *)
Theorem stmt_trans_keeps_entry_exit `{TE : TransExp} (s : ast_stmt_t)
        (t t' : trans_t) :
  stmt_trans s t = Ok t' ->
  entry_bb (fn t') = entry_bb (fn t) /\ exit_bb (fn t') = exit_bb (fn t).
Proof.
  intros H.
  refine (stmt_trans_keeps
            (fun u => entry_bb (fn u) = entry_bb (fn t) /\
                      exit_bb (fn u) = exit_bb (fn t))
            _ _ _ _ _ _ _ _ _ _ _ _ _ s t t' H _);
    try (intros e u HQ; cbv beta;
         match goal with
         | |- context [lower ?f e u] =>
             destruct (lower_fn_bbs f e u) as (_ & -> & ->); exact HQ
         end);
    try (intros; cbv beta; cbn; assumption); try (split; reflexivity).
  - intros s0 u u' _ HQ Hu.
    apply bb_add_stmt_inv in Hu. destruct Hu as (p & _ & ->). exact HQ.
  - intros b c tg u u' HQ Hu.
    apply bb_add_branch_inv in Hu. destruct Hu as (p & x & _ & _ & ->).
    exact HQ.
  - intros b u u' HQ Hu.
    apply fn_add_basic_blk_inv in Hu. destruct Hu as (_ & -> & -> & _).
    exact HQ.
Qed.

Lemma stmt_trans_keeps_entry_exit_witness :
  stmt_trans inner_loop loop_ctx = Ok after_inner_loop /\
  entry_bb (fn after_inner_loop) = entry_bb (fn loop_ctx) /\
  exit_bb (fn after_inner_loop) = exit_bb (fn loop_ctx).
Proof.
  assert (H : stmt_trans inner_loop loop_ctx = Ok after_inner_loop)
    by (vm_compute; reflexivity).
  split; [exact H |].
  exact (stmt_trans_keeps_entry_exit inner_loop loop_ctx after_inner_loop H).
Defined.

(** X18. Lowering a statement only appends to the list of the blocks of the
    function: the blocks that were there stay, in their order. *)
Theorem stmt_trans_appends_blocks `{TE : TransExp} (s : ast_stmt_t)
        (t t' : trans_t) :
  stmt_trans s t = Ok t' ->
  exists l, fn_bbs (fn t') = fn_bbs (fn t) ++ l.
Proof.
  intros H.
  refine (stmt_trans_keeps
            (fun u => exists l, fn_bbs (fn u) = fn_bbs (fn t) ++ l)
            _ _ _ _ _ _ _ _ _ _ _ _ _ s t t' H _);
    try (intros e u HQ; cbv beta;
         match goal with
         | |- context [lower ?f e u] =>
             destruct (lower_fn_bbs f e u) as (-> & _ & _); exact HQ
         end);
    try (intros; cbv beta; cbn; assumption);
    try (exists []; rewrite app_nil_r; reflexivity).
  - intros s0 u u' _ HQ Hu.
    apply bb_add_stmt_inv in Hu. destruct Hu as (p & _ & ->). exact HQ.
  - intros b c tg u u' HQ Hu.
    apply bb_add_branch_inv in Hu. destruct Hu as (p & x & _ & _ & ->).
    exact HQ.
  - intros b u u' [l Hl] Hu.
    apply fn_add_basic_blk_inv in Hu. destruct Hu as ([l' ->] & _).
    rewrite Hl, <- app_assoc. eauto.
Qed.

Lemma stmt_trans_appends_blocks_witness :
  stmt_trans inner_loop loop_ctx = Ok after_inner_loop /\
  exists l, fn_bbs (fn after_inner_loop) = fn_bbs (fn loop_ctx) ++ l.
Proof.
  assert (H : stmt_trans inner_loop loop_ctx = Ok after_inner_loop)
    by (vm_compute; reflexivity).
  split; [exact H |].
  exact (stmt_trans_appends_blocks inner_loop loop_ctx after_inner_loop H).
Defined.

(** X19. Lowering a statement only appends to the reported errors, and every
    error it reports is the one of the array loop: not supported. *)
Theorem stmt_trans_appends_errors `{TE : TransExp} (s : ast_stmt_t)
        (t t' : trans_t) :
  stmt_trans s t = Ok t' ->
  exists l, errors t' = errors t ++ l /\
            Forall (fun e => fst e = ERROR_NOT_SUPPORTED) l.
Proof.
  intros H.
  refine (stmt_trans_keeps
            (fun u => exists l,
                 errors u = errors t ++ l /\
                 Forall (fun e => fst e = ERROR_NOT_SUPPORTED) l)
            _ _ _ _ _ _ _ _ _ _ _ _ _ s t t' H _);
    try (intros e u HQ; cbv beta; rewrite lower_errors; exact HQ);
    try (intros; cbv beta; cbn; assumption);
    try (exists []; rewrite app_nil_r; split; [reflexivity | constructor]).
  - intros s0 u u' _ HQ Hu.
    apply bb_add_stmt_inv in Hu. destruct Hu as (p & _ & ->). exact HQ.
  - intros b c tg u u' HQ Hu.
    apply bb_add_branch_inv in Hu. destruct Hu as (p & x & _ & _ & ->).
    exact HQ.
  - intros b u u' HQ Hu.
    apply fn_add_basic_blk_inv in Hu.
    destruct Hu as (_ & _ & _ & _ & _ & ->). exact HQ.
  - intros p u (l & Hl & Hall). unfold ERROR. cbn. rewrite Hl.
    exists (l ++ [(ERROR_NOT_SUPPORTED, p)]). rewrite app_assoc.
    split; [reflexivity |]. apply Forall_app. split; [exact Hall |].
    constructor; [reflexivity | constructor].
Qed.

(** [for (x : a) { }], an array loop. *)
Lemma stmt_trans_appends_errors_witness :
  stmt_trans (STMT_LOOP (hd_at 7) LOOP_ARRAY None []) open_ctx
  = Ok (ERROR ERROR_NOT_SUPPORTED (7, 1)%nat open_ctx) /\
  exists l, errors (ERROR ERROR_NOT_SUPPORTED (7, 1)%nat open_ctx)
            = errors open_ctx ++ l /\
            Forall (fun e => fst e = ERROR_NOT_SUPPORTED) l.
Proof.
  assert (H : stmt_trans (STMT_LOOP (hd_at 7) LOOP_ARRAY None []) open_ctx
              = Ok (ERROR ERROR_NOT_SUPPORTED (7, 1)%nat open_ctx))
    by reflexivity.
  split; [exact H |].
  exact (stmt_trans_appends_errors _ _ _ H).
Defined.

(** X20. Lowering a statement only appends to the blocks that exist: every
    block allocated before keeps its statements and its branches, in
    their order, in front of what is added; and no block is freed. *)
Theorem stmt_trans_appends_to_blocks `{TE : TransExp} (s : ast_stmt_t)
        (t t' : trans_t) :
  stmt_trans s t = Ok t' ->
  (next_bb_id t <= next_bb_id t')%nat /\
  forall b, (b < next_bb_id t)%nat ->
    (exists l, bb_stmts (blocks t' b) = bb_stmts (blocks t b) ++ l) /\
    (exists l, bb_brs (blocks t' b) = bb_brs (blocks t b) ++ l).
Proof.
  intros H.
  set (Q := fun u : trans_t =>
              (next_bb_id t <= next_bb_id u)%nat /\
              forall b, (b < next_bb_id t)%nat ->
                (exists l, bb_stmts (blocks u b) = bb_stmts (blocks t b) ++ l)
                /\
                (exists l, bb_brs (blocks u b) = bb_brs (blocks t b) ++ l)).
  assert (Hwrite : forall u p x,
             Q u ->
             (exists l, bb_stmts x = bb_stmts (blocks u p) ++ l) ->
             (exists l, bb_brs x = bb_brs (blocks u p) ++ l) ->
             Q (set_blocks (upd (blocks u) p x) u)).
  { intros u p x [Hn Hb] [l1 H1] [l2 H2]. split; [exact Hn |].
    intros b Hlt. cbn. destruct (Nat.eq_dec b p) as [-> | Hne].
    - rewrite upd_same, H1, H2. destruct (Hb p Hlt) as [[k1 ->] [k2 ->]].
      rewrite <- !app_assoc. eauto.
    - rewrite upd_other by exact Hne. apply Hb. exact Hlt. }
  assert (Hlower : forall f e u, Q u -> Q (lower f e u)).
  { intros f e u [Hn Hb]. split; [rewrite lower_next_bb_id; exact Hn |].
    intros b Hlt. destruct (lower_blocks f e u b) as (-> & -> & _).
    apply Hb. exact Hlt. }
  refine (stmt_trans_keeps Q _ _ _ _ _ _ _ _ _ _ _ _ _ s t t' H _);
    try (intros e u HQ; apply Hlower; exact HQ);
    try (intros ? u HQ; exact HQ).
  - intros s0 u u' _ HQ Hu.
    apply bb_add_stmt_inv in Hu. destruct Hu as (p & _ & ->).
    apply Hwrite; [exact HQ | cbn; eauto |].
    exists []. cbn. rewrite app_nil_r. reflexivity.
  - intros p u _ HQ. apply Hwrite; [exact HQ | cbn; eauto |].
    exists []. cbn. rewrite app_nil_r. reflexivity.
  - intros u [Hn Hb]. split; [cbn; lia |].
    intros b Hlt. cbn. rewrite upd_other by lia. apply Hb. exact Hlt.
  - intros b c tg u u' HQ Hu.
    apply bb_add_branch_inv in Hu. destruct Hu as (p & x & _ & _ & ->).
    apply Hwrite; [exact HQ | | cbn; eauto].
    exists []. cbn. rewrite app_nil_r. reflexivity.
  - intros b u u' [Hn Hb] Hu.
    apply fn_add_basic_blk_inv in Hu.
    destruct Hu as (_ & _ & _ & Hbl & Hnx & _).
    split; [rewrite Hnx; exact Hn |]. rewrite Hbl. exact Hb.
  - split; [lia |]. intros b _.
    split; exists []; rewrite app_nil_r; reflexivity.
Qed.

Lemma stmt_trans_appends_to_blocks_witness :
  stmt_trans inner_loop loop_ctx = Ok after_inner_loop /\
  (next_bb_id loop_ctx <= next_bb_id after_inner_loop)%nat /\
  forall b, (b < next_bb_id loop_ctx)%nat ->
    (exists l, bb_stmts (blocks after_inner_loop b)
               = bb_stmts (blocks loop_ctx b) ++ l) /\
    (exists l, bb_brs (blocks after_inner_loop b)
               = bb_brs (blocks loop_ctx b) ++ l).
Proof.
  assert (H : stmt_trans inner_loop loop_ctx = Ok after_inner_loop)
    by (vm_compute; reflexivity).
  split; [exact H |].
  exact (stmt_trans_appends_to_blocks inner_loop loop_ctx after_inner_loop H).
Defined.

(** When expression lowering leaves only statements that the emitter
    accepts as piggybacks, so does statement lowering: the statements
    and the piggybacks of every block stay expression, assignment,
    return and DDL statements. *)
Lemma stmt_trans_keeps_emittable `{TE : TransExp} (s : ast_stmt_t)
      (t t' : trans_t) :
  pgbacks_emittable TE ->
  (forall b, emittable_stmts (bb_stmts (blocks t b)) /\
             emittable_stmts (bb_pgbacks (blocks t b))) ->
  stmt_trans s t = Ok t' ->
  forall b, emittable_stmts (bb_stmts (blocks t' b)) /\
            emittable_stmts (bb_pgbacks (blocks t' b)).
Proof.
  intros Hpg H0 H.
  set (Q := fun u : trans_t =>
              forall b, emittable_stmts (bb_stmts (blocks u b)) /\
                        emittable_stmts (bb_pgbacks (blocks u b))).
  assert (Hwrite : forall u p x,
             Q u -> emittable_stmts (bb_stmts x) ->
             emittable_stmts (bb_pgbacks x) ->
             Q (set_blocks (upd (blocks u) p x) u)).
  { intros u p x HQ H1 H2 b. cbn. destruct (Nat.eq_dec b p) as [-> | Hne].
    - rewrite upd_same. auto.
    - rewrite upd_other by exact Hne. apply HQ. }
  assert (Hlower : forall f e u,
             (forall cx, emittable_stmts (cx_pgbacks cx) ->
                         emittable_stmts (cx_pgbacks (f cx e))) ->
             Q u -> Q (lower f e u)).
  { intros f e u Hf HQ b.
    destruct (lower_blocks f e u b) as (-> & _ & Hsame).
    split; [apply HQ |].
    destruct (bb u) as [p |] eqn:Hcur;
      [destruct (Nat.eq_dec p b) as [-> | Hne] |].
    - unfold lower, ctx_put. rewrite Hcur. cbn. rewrite upd_same. cbn.
      apply Hf. unfold ctx_of, cur_pgbacks. rewrite Hcur. cbn. apply HQ.
    - rewrite Hsame by congruence. apply HQ.
    - rewrite Hsame by congruence. apply HQ. }
  refine (stmt_trans_keeps Q _ _ _ _ _ _ _ _ _ _ _ _ _ s t t' H H0);
    try (intros e u HQ; apply Hlower; [| exact HQ];
         intros cx Hcx; apply (Hpg cx e); exact Hcx);
    try (intros ? u HQ; exact HQ).
  - intros s0 u u' Hs HQ Hu.
    apply bb_add_stmt_inv in Hu. destruct Hu as (p & _ & ->).
    apply Hwrite; [exact HQ | cbn | cbn; apply HQ].
    apply Forall_app. split; [apply HQ | constructor; [exact Hs | constructor]].
  - intros p u _ HQ. apply Hwrite; [exact HQ | cbn | constructor].
    apply Forall_app. split; apply HQ.
  - intros u HQ b. cbn.
    destruct (Nat.eq_dec b (next_bb_id u)) as [-> | Hne].
    + rewrite upd_same. split; constructor.
    + rewrite upd_other by exact Hne. apply HQ.
  - intros b c tg u u' HQ Hu.
    apply bb_add_branch_inv in Hu. destruct Hu as (p & x & _ & _ & ->).
    apply Hwrite; [exact HQ | cbn; apply HQ | cbn; apply HQ].
  - intros b u u' HQ Hu.
    apply fn_add_basic_blk_inv in Hu.
    destruct Hu as (_ & _ & _ & Hbl & _).
    unfold Q. rewrite Hbl. exact HQ.
Qed.

End Preserve.

(* ------------------------------------------------------------------ *)
(** ** The footprint of a statement, and lowering followed by emission *)
(* ------------------------------------------------------------------ *)

Module PipelineFacts.
Import Examples.
Import StmtFacts.
Import LoweredFacts.
Import FrameFacts.
Import FrameThm.
Import EmitFacts.
Import Preserve.

Lemma every_labelled_own (s : ast_stmt_t) :
  every (labelled_in (labs (lowered s))) s.
Proof.
  unfold every. apply Forall_forall. intros x Hx y Hy.
  unfold labs. apply in_flat_map. exists x. split; assumption.
Qed.

(** X21. The footprint of lowering a statement: a block that was allocated
    before, is not the current block and is not the label block of a
    statement lowered with it is left exactly as it was; and the block
    current afterwards, if any, is the one that was current, one of
    those label blocks or a block allocated meanwhile. *)
Theorem stmt_trans_footprint `{TE : TransExp} (s : ast_stmt_t)
        (t t' : trans_t) :
  stmt_trans s t = Ok t' ->
  (forall b, (b < next_bb_id t)%nat -> bb t <> Some b ->
             ~ In b (labs (lowered s)) -> blocks t' b = blocks t b) /\
  (forall b, bb t' = Some b ->
             bb t = Some b \/ In b (labs (lowered s)) \/
             (next_bb_id t <= b)%nat).
Proof.
  intros H.
  assert (HF : frame_inv (labs (lowered s)) (next_bb_id t) (bb t) (blocks t)
                         (cont_bb t) (break_bb t) t)
    by (constructor; auto).
  eapply stmt_trans_frame in HF; [| apply every_labelled_own | exact H].
  destruct HF as [_ Hcur Hbl _ _]. split.
  - intros b Hlt Hb Hl. apply Hbl; [exact Hlt | congruence | exact Hl].
  - intros b Hb. destruct (Hcur b Hb) as [Hc | Hc]; [left; congruence | auto].
Qed.

Lemma stmt_trans_footprint_witness :
  stmt_trans inner_loop loop_ctx = Ok after_inner_loop /\
  (forall b, (b < next_bb_id loop_ctx)%nat -> bb loop_ctx <> Some b ->
             ~ In b (labs (lowered inner_loop)) ->
             blocks after_inner_loop b = blocks loop_ctx b) /\
  (forall b, bb after_inner_loop = Some b ->
             bb loop_ctx = Some b \/ In b (labs (lowered inner_loop)) \/
             (next_bb_id loop_ctx <= b)%nat).
Proof.
  assert (H : stmt_trans inner_loop loop_ctx = Ok after_inner_loop)
    by (vm_compute; reflexivity).
  split; [exact H |].
  exact (stmt_trans_footprint inner_loop loop_ctx after_inner_loop H).
Defined.

(** X22. Lowering never sets a jump target that outlives the statement: after
    a list of statements the continue target and the break target are
    what they were or NULL; a target that is NULL stays NULL. *)
Theorem jump_targets_never_restored `{TE : TransExp}
        (l : list ast_stmt_t) (t t' : trans_t) :
  stmts_trans l t = Ok t' ->
  (cont_bb t' = cont_bb t \/ cont_bb t' = None) /\
  (break_bb t' = break_bb t \/ break_bb t' = None) /\
  (cont_bb t = None -> cont_bb t' = None) /\
  (break_bb t = None -> break_bb t' = None).
Proof.
  intros H. destruct (stmts_trans_jump_targets l t t' H) as [Hc Hb].
  split; [exact Hc |]. split; [exact Hb |]. split.
  - intros Hn. destruct Hc as [Hc | Hc]; congruence.
  - intros Hn. destruct Hb as [Hb | Hb]; congruence.
Qed.

Lemma jump_targets_never_restored_witness :
  stmts_trans [inner_loop] loop_ctx = Ok after_inner_loop /\
  (cont_bb after_inner_loop = cont_bb loop_ctx \/
   cont_bb after_inner_loop = None) /\
  (break_bb after_inner_loop = break_bb loop_ctx \/
   break_bb after_inner_loop = None) /\
  (cont_bb loop_ctx = None -> cont_bb after_inner_loop = None) /\
  (break_bb loop_ctx = None -> break_bb after_inner_loop = None).
Proof.
  assert (H : stmts_trans [inner_loop] loop_ctx = Ok after_inner_loop)
    by (vm_compute; reflexivity).
  split; [exact H |].
  exact (jump_targets_never_restored [inner_loop] loop_ctx
                                     after_inner_loop H).
Defined.

(** X23. Lowering hands the emitter only statements it accepts.  When
    expression lowering leaves only expression, assignment, return and
    DDL statements as piggybacks, and the blocks hold no other statement
    before, then after a list of statements is lowered the emitter never
    stops at the assertion on the statement kind for a statement of a
    block. *)
Theorem lowered_statements_are_accepted `{TE : TransExp} `{GE : GenExp}
        (l : list ast_stmt_t) (t t' : trans_t) :
  pgbacks_emittable TE ->
  (forall b, emittable_stmts (bb_stmts (blocks t b)) /\
             emittable_stmts (bb_pgbacks (blocks t b))) ->
  stmts_trans l t = Ok t' ->
  forall b st g, In st (bb_stmts (blocks t' b)) ->
                 stmt_gen st g <> Fatal ASSERT_invalid_stmt.
Proof.
  intros Hpg H0 H b st g Hin.
  assert (HQ : forall b, emittable_stmts (bb_stmts (blocks t' b)) /\
                         emittable_stmts (bb_pgbacks (blocks t' b))).
  { eapply (stmts_trans_preserves
              (fun u => forall b,
                   emittable_stmts (bb_stmts (blocks u b)) /\
                   emittable_stmts (bb_pgbacks (blocks u b))));
      [| exact H | exact H0].
    apply Forall_forall. intros s _ u u' Hu HQu.
    eapply stmt_trans_keeps_emittable; eassumption. }
  apply stmt_gen_accepts.
  destruct (HQ b) as [Hs _]. unfold emittable_stmts in Hs.
  rewrite Forall_forall in Hs. apply Hs. exact Hin.
Qed.

(** [return a; b = c; return b;] *)
Lemma lowered_statements_are_accepted_witness :
  let t' := ok_or open_ctx (stmts_trans dead_code_body open_ctx) in
  pgbacks_emittable plain_lowering /\
  (forall b, emittable_stmts (bb_stmts (blocks open_ctx b)) /\
             emittable_stmts (bb_pgbacks (blocks open_ctx b))) /\
  stmts_trans dead_code_body open_ctx = Ok t' /\
  bb_stmts (blocks t' O) = [STMT_RETURN (hd_at 1) (Some 0%nat)] /\
  forall b st g, In st (bb_stmts (blocks t' b)) ->
                 stmt_gen st g <> Fatal ASSERT_invalid_stmt.
Proof.
  intros t'.
  assert (H1 : pgbacks_emittable plain_lowering)
    by (intros cx e H; repeat split; exact H).
  assert (H2 : forall b, emittable_stmts (bb_stmts (blocks open_ctx b)) /\
                         emittable_stmts (bb_pgbacks (blocks open_ctx b)))
    by (intros b; split; constructor).
  assert (H3 : stmts_trans dead_code_body open_ctx = Ok t')
    by (vm_compute; reflexivity).
  split; [exact H1 |]. split; [exact H2 |]. split; [exact H3 |].
  split; [vm_compute; reflexivity |].
  exact (lowered_statements_are_accepted dead_code_body open_ctx t'
                                         H1 H2 H3).
Defined.

End PipelineFacts.

(* ------------------------------------------------------------------ *)
(** ** Statements that stay in the block, and statements that leave it *)
(* ------------------------------------------------------------------ *)

Module BlockFacts.
Import Examples.
Import StmtFacts.
Import LoweredFacts.
Import FrameFacts.
Import Preserve.

Lemma stays_refl (p : bb_ptr) (t : trans_t) :
  bb t = Some p -> stays_in_block p t t.
Proof. intros H. unfold stays_in_block. repeat split; auto. Qed.

Lemma stays_write (p : bb_ptr) (t u : trans_t) (x : ir_bb_t) :
  stays_in_block p t u -> bb_brs x = bb_brs (blocks u p) ->
  stays_in_block p t (set_blocks (upd (blocks u) p x) u).
Proof.
  intros (H1 & H2 & H3 & H4) Hx. unfold stays_in_block. cbn.
  split; [exact H1 |]. split; [| split; [| exact H4]].
  - intros y. destruct (Nat.eq_dec y p) as [-> | Hne].
    + rewrite upd_same, Hx. apply H2.
    + rewrite upd_other by exact Hne. apply H2.
  - intros y Hne. rewrite upd_other by exact Hne. apply H3. exact Hne.
Qed.

Lemma stays_lower `{TE : TransExp} (p : bb_ptr) (t u : trans_t) f e :
  stays_in_block p t u -> stays_in_block p t (lower f e u).
Proof.
  intros (H1 & H2 & H3 & H4 & H5 & H6 & H7 & H8 & H9 & H10).
  destruct (lower_fn_bbs f e u) as (Hbbs & Hen & Hex).
  unfold stays_in_block.
  rewrite lower_bb, lower_next_bb_id, lower_cont_bb, lower_break_bb,
    lower_errors, Hbbs, Hen, Hex.
  repeat split; try assumption.
  - intros x. destruct (lower_blocks f e u x) as (_ & -> & _). apply H2.
  - intros x Hne. destruct (lower_blocks f e u x) as (_ & _ & ->).
    + apply H3. exact Hne.
    + rewrite H1. intros [= Heq]. apply Hne. symmetry. exact Heq.
Qed.

(** A null, expression, assignment or DDL statement without a label
    stays in the block that is current once the statement is entered. *)
Lemma plain_after_enter `{TE : TransExp} (s : ast_stmt_t)
      (t0 t' : trans_t) (p : bb_ptr) :
  is_plain s = true -> bb t0 = Some p ->
  match s with
  | STMT_NULL _ => Ok t0
  | STMT_EXP _ e => stmt_trans_exp s e t0
  | STMT_ASSIGN _ l r => stmt_trans_assign s l r t0
  | STMT_DDL _ => stmt_trans_ddl s t0
  | _ => Fatal ASSERT_invalid_stmt
  end = Ok t' ->
  stays_in_block p t0 t'.
Proof.
  intros Hp Hb H.
  assert (Hadd : forall s0 u u',
             is_emittable s0 = true -> stays_in_block p t0 u ->
             bb_add_stmt (bb u) s0 u = Ok u' -> stays_in_block p t0 u').
  { intros s0 u u' _ HQ Hu. pose proof HQ as (Hbu & _).
    rewrite Hbu in Hu. cbn in Hu. injection Hu as <-.
    apply stays_write; [exact HQ | reflexivity]. }
  destruct s; try discriminate H; try discriminate Hp.
  - injection H as <-. apply stays_refl. exact Hb.
  - refine (q_stmt_trans_exp (stays_in_block p t0) _ _ Hadd _
                             (STMT_EXP hd exp) exp t0 t' eq_refl H
                             (stays_refl p t0 Hb)).
    + intros e u HQ. apply stays_lower. exact HQ.
    + intros v u HQ. exact HQ.
    + intros q u Hq HQ. pose proof HQ as (Hbu & _).
      assert (q = p) by congruence. subst q.
      apply stays_write; [exact HQ | reflexivity].
  - refine (q_stmt_trans_assign (stays_in_block p t0) _ _ Hadd
                                (STMT_ASSIGN hd l_exp r_exp) l_exp r_exp
                                t0 t' eq_refl H (stays_refl p t0 Hb)).
    + intros e u HQ. apply stays_lower. exact HQ.
    + intros e u HQ. apply stays_lower. exact HQ.
  - unfold stmt_trans_ddl in H.
    eapply Hadd; [| | exact H]; [reflexivity | apply stays_refl; exact Hb].
Qed.

Lemma plain_handler `{TE : TransExp} (s : ast_stmt_t) (t : trans_t) :
  is_plain s = true ->
  stmt_trans s t =
  do t0 <- stmt_enter s t;
  match s with
  | STMT_NULL _ => Ok t0
  | STMT_EXP _ e => stmt_trans_exp s e t0
  | STMT_ASSIGN _ l r => stmt_trans_assign s l r t0
  | STMT_DDL _ => stmt_trans_ddl s t0
  | _ => Fatal ASSERT_invalid_stmt
  end.
Proof.
  intros Hp. rewrite stmt_trans_unfold.
  destruct s; try reflexivity;
    unfold is_plain in Hp; destruct (stmt_label_bb _); discriminate Hp.
Qed.

Lemma is_plain_unlabelled (s : ast_stmt_t) :
  is_plain s = true -> stmt_label_bb s = None.
Proof. unfold is_plain. destruct (stmt_label_bb s); [discriminate | auto]. Qed.

(** X24. Null, expression, assignment and DDL statements without a label
    stay in the current block: lowering one adds no branch, writes to no
    other block, allocates no block and adds none to the function, and
    leaves the jump targets and the reported errors as they were. *)
Theorem plain_stmt_stays_in_block `{TE : TransExp} (s : ast_stmt_t)
        (t t' : trans_t) (p : bb_ptr) :
  is_plain s = true -> bb t = Some p -> stmt_trans s t = Ok t' ->
  stays_in_block p t t'.
Proof.
  intros Hp Hb H. rewrite (plain_handler s t Hp) in H.
  unfold stmt_enter in H. rewrite (is_plain_unlabelled s Hp), Hb in H.
  cbn [bind] in H. eapply plain_after_enter; eassumption.
Qed.

(** [a = b;] *)
Lemma plain_stmt_stays_in_block_witness :
  let s := STMT_ASSIGN hd0 0%nat 1%nat in
  let t' := ok_or open_ctx (stmt_trans s open_ctx) in
  is_plain s = true /\ bb open_ctx = Some O /\
  stmt_trans s open_ctx = Ok t' /\ stays_in_block O open_ctx t'.
Proof.
  intros s t'.
  assert (H : stmt_trans s open_ctx = Ok t') by (vm_compute; reflexivity).
  split; [reflexivity |]. split; [reflexivity |]. split; [exact H |].
  exact (plain_stmt_stays_in_block s open_ctx t' O eq_refl eq_refl H).
Defined.

(** X25. Code after a jump is dead.  When no block is current, as after a
    return, a continue or a goto, the next statement without a label
    opens a fresh block; if it is a null, expression, assignment or DDL
    statement, no branch leads to that block afterwards, so the block
    cannot be reached from the entry block. *)
Theorem statement_after_jump_is_unreachable `{TE : TransExp}
        (s : ast_stmt_t) (t t' : trans_t) :
  bb t = None -> is_plain s = true ->
  (forall b br, In br (bb_brs (blocks t b)) ->
                (br_bb br < next_bb_id t)%nat) ->
  (entry_bb (fn t) < next_bb_id t)%nat ->
  stmt_trans s t = Ok t' ->
  bb t' = Some (next_bb_id t) /\
  (forall b br, In br (bb_brs (blocks t' b)) -> br_bb br <> next_bb_id t) /\
  ~ reachable t' (next_bb_id t).
Proof.
  intros Hb Hp Htg Hen H. rewrite (plain_handler s t Hp) in H.
  unfold stmt_enter in H. rewrite (is_plain_unlabelled s Hp), Hb in H.
  rewrite bb_new_eq in H. cbn [bind] in H.
  set (n := next_bb_id t) in *.
  set (t0 := set_bb (Some n) (snd (bb_new t))) in *.
  assert (Hb0 : bb t0 = Some n) by reflexivity.
  pose proof (plain_after_enter s t0 t' n Hp Hb0 H)
    as (Hb' & Hbrs & _ & _ & _ & Hentry & _).
  assert (Hno : forall b br, In br (bb_brs (blocks t' b)) -> br_bb br <> n).
  { intros b br Hin. rewrite Hbrs in Hin.
    change (blocks t0) with (upd (blocks t) n empty_bb) in Hin.
    destruct (Nat.eq_dec b n) as [-> | Hne].
    - rewrite upd_same in Hin. destruct Hin.
    - rewrite upd_other in Hin by exact Hne.
      apply Htg in Hin. fold n in Hin. lia. }
  split; [exact Hb' |]. split; [exact Hno |].
  intros Hr.
  assert (Hall : forall x, reachable t' x -> x <> n).
  { intros x Hx. induction Hx as [| b br _ _ Hin].
    - rewrite Hentry. change (entry_bb (fn t0)) with (entry_bb (fn t)).
      fold n in Hen. lia.
    - eapply Hno. exact Hin. }
  exact (Hall n Hr eq_refl).
Qed.

(** [b = c;] after [return a;]. *)
Lemma statement_after_jump_is_unreachable_witness :
  let s := STMT_ASSIGN (hd_at 2) 1%nat 2%nat in
  let t' := ok_or after_return (stmt_trans s after_return) in
  bb after_return = None /\ is_plain s = true /\
  (forall b br, In br (bb_brs (blocks after_return b)) ->
                (br_bb br < next_bb_id after_return)%nat) /\
  (entry_bb (fn after_return) < next_bb_id after_return)%nat /\
  stmt_trans s after_return = Ok t' /\
  bb t' = Some (next_bb_id after_return) /\
  (forall b br, In br (bb_brs (blocks t' b)) ->
                br_bb br <> next_bb_id after_return) /\
  ~ reachable t' (next_bb_id after_return).
Proof.
  intros s t'.
  assert (H1 : bb after_return = None) by reflexivity.
  assert (H2 : is_plain s = true) by reflexivity.
  assert (H3 : forall b br, In br (bb_brs (blocks after_return b)) ->
                            (br_bb br < next_bb_id after_return)%nat).
  { intros b br Hin. destruct b as [| [| b]]; vm_compute in Hin.
    - destruct Hin as [<- | []]. vm_compute. lia.
    - destruct Hin.
    - destruct Hin. }
  assert (H4 : (entry_bb (fn after_return) < next_bb_id after_return)%nat)
    by (vm_compute; lia).
  assert (H5 : stmt_trans s after_return = Ok t')
    by (vm_compute; reflexivity).
  split; [exact H1 |]. split; [exact H2 |]. split; [exact H3 |].
  split; [exact H4 |]. split; [exact H5 |].
  exact (statement_after_jump_is_unreachable s after_return t'
                                             H1 H2 H3 H4 H5).
Defined.

(** X26. A continue whose target is set and a goto whose label block is set
    close the current block: the block gets an unguarded branch to the
    target and is added to the function, the jump statement itself is
    not appended to it, and no block is current afterwards. *)
Theorem jump_closes_block `{TE : TransExp} (s : ast_stmt_t) (t : trans_t)
        (b tgt : bb_ptr) :
  stmt_label_bb s = None -> bb t = Some b -> jump_target s t = Some tgt ->
  exists t',
    stmt_trans s t = Ok t' /\ bb t' = None /\
    bb_brs (blocks t' b) = bb_brs (blocks t b) ++ [mk_br None tgt] /\
    bb_stmts (blocks t' b) = bb_stmts (blocks t b) /\
    In b (fn_bbs (fn t')) /\
    (forall x, x <> b -> blocks t' x = blocks t x) /\
    cont_bb t' = cont_bb t /\ break_bb t' = break_bb t /\
    next_bb_id t' = next_bb_id t.
Proof.
  intros Hl Hb Hj. rewrite stmt_trans_unfold.
  unfold stmt_enter. rewrite Hl, Hb. cbn [bind].
  assert (Hgo : exists t',
             (do t1 <- bb_add_branch (bb t) None (Some tgt) t;
              do t2 <- fn_add_basic_blk (bb t1) t1;
              Ok (set_bb None t2)) = Ok t' /\ bb t' = None /\
             bb_brs (blocks t' b) = bb_brs (blocks t b) ++ [mk_br None tgt] /\
             bb_stmts (blocks t' b) = bb_stmts (blocks t b) /\
             In b (fn_bbs (fn t')) /\
             (forall x, x <> b -> blocks t' x = blocks t x) /\
             cont_bb t' = cont_bb t /\ break_bb t' = break_bb t /\
             next_bb_id t' = next_bb_id t).
  { rewrite Hb. cbn [bb_add_branch bind bb set_blocks]. rewrite Hb.
    match goal with
    | |- context [fn_add_basic_blk (Some b) ?u] =>
        destruct (fn_add_basic_blk_spec b u)
          as (t3 & -> & Hin & _ & _ & _ & _ & _ & Hc3 & Hk3 & Hbl3 & Hn3 & _)
    end.
    cbn [bind]. eexists. split; [reflexivity |].
    cbn [bb next_bb_id blocks break_bb cont_bb fn set_bb].
    rewrite Hbl3, Hn3, Hk3, Hc3. cbn. rewrite upd_same. cbn.
    repeat split; try assumption; try reflexivity.
    intros x Hne. apply upd_other. exact Hne. }
  destruct s; try discriminate Hj; cbn in Hj.
  - unfold stmt_trans_continue.
    destruct Hgo as (t' & Hrun & Hrest). exists t'.
    split; [| exact Hrest].
    rewrite Hj. cbn [ASSERT bind]. rewrite Hj. exact Hrun.
  - unfold stmt_trans_goto. rewrite Hj. cbn [ASSERT bind]. exact Hgo.
Qed.

(** [continue;] in a loop. *)
Lemma jump_closes_block_witness :
  let s := STMT_CONTINUE hd0 in
  stmt_label_bb s = None /\ bb loop_ctx = Some 2%nat /\
  jump_target s loop_ctx = Some 0%nat /\
  exists t',
    stmt_trans s loop_ctx = Ok t' /\ bb t' = None /\
    bb_brs (blocks t' 2%nat)
    = bb_brs (blocks loop_ctx 2%nat) ++ [mk_br None 0%nat] /\
    bb_stmts (blocks t' 2%nat) = bb_stmts (blocks loop_ctx 2%nat) /\
    In 2%nat (fn_bbs (fn t')) /\
    (forall x, x <> 2%nat -> blocks t' x = blocks loop_ctx x) /\
    cont_bb t' = cont_bb loop_ctx /\ break_bb t' = break_bb loop_ctx /\
    next_bb_id t' = next_bb_id loop_ctx.
Proof.
  intros s. split; [reflexivity |]. split; [reflexivity |].
  split; [reflexivity |].
  exact (jump_closes_block s loop_ctx 2%nat 0%nat eq_refl eq_refl eq_refl).
Defined.

Lemma stays_trans (p : bb_ptr) (t u v : trans_t) :
  stays_in_block p t u -> stays_in_block p u v -> stays_in_block p t v.
Proof.
  intros (H1 & H2 & H3 & H4 & H5 & H6 & H7 & H8 & H9 & H10)
         (G1 & G2 & G3 & G4 & G5 & G6 & G7 & G8 & G9 & G10).
  unfold stays_in_block.
  rewrite G4, G5, G6, G7, G8, G9, G10.
  repeat split; try assumption.
  - intros x. rewrite G2. apply H2.
  - intros x Hne. rewrite G3 by exact Hne. apply H3. exact Hne.
Qed.

Lemma nth_error_skipn_cons {A : Type} (l : list A) (i : nat) (a : A) :
  nth_error l i = Some a -> skipn i l = a :: skipn (S i) l.
Proof.
  revert i. induction l as [| x l IH]; intros [| i] H; try discriminate H.
  - injection H as ->. reflexivity.
  - cbn in H. apply IH in H. exact H.
Qed.

Lemma combine_nil_r {A B : Type} (l : list A) : combine l (@nil B) = [].
Proof. destruct l; reflexivity. Qed.

(** The loop over the elements of two tuples of the same length, from
    the index [i] on. *)
Lemma pairwise_range `{TE : TransExp} (pos : errpos_t)
      (vars vals : list exp_ptr) (p : bb_ptr) :
  List.length vars = List.length vals ->
  forall k i t,
    bb t = Some p -> (i + k = List.length vals)%nat ->
    (forall j a b, nth_error vars j = Some a -> nth_error vals j = Some b ->
                   meta_cmp (exp_meta (exps t a)) (exp_meta (exps t b)) = 0) ->
    exists t',
      for_range i k (assign_pairwise pos vars vals) t = Ok t' /\
      stays_in_block p t t' /\ exps t' = exps t /\
      bb_stmts (blocks t' p)
      = bb_stmts (blocks t p)
        ++ map (fun ab => stmt_new_assign (fst ab) (snd ab) pos)
               (combine (skipn i vars) (skipn i vals)).
Proof.
  intros Hlen. induction k as [| k IH]; intros i t Hb Hik Hm.
  - exists t. split; [reflexivity |]. split; [apply stays_refl, Hb |].
    split; [reflexivity |].
    assert (i = List.length vals) by lia. subst i.
    rewrite skipn_all, combine_nil_r. cbn. rewrite app_nil_r. reflexivity.
  - assert (Hi : (i < List.length vals)%nat) by lia.
    destruct (nth_error vals i) as [b |] eqn:Hvb;
      [| apply nth_error_None in Hvb; lia].
    destruct (nth_error vars i) as [a |] eqn:Hva;
      [| apply nth_error_None in Hva; lia].
    cbn [for_range]. unfold assign_pairwise at 1. unfold array_get_exp.
    rewrite Hva, Hvb. cbn [bind]. rewrite (Hm i a b Hva Hvb).
    cbn [Z.eqb ASSERT bind]. rewrite Hb. cbn [bb_add_stmt bind].
    set (t1 := set_blocks _ t).
    assert (Hst : stays_in_block p t t1).
    { apply stays_write; [apply stays_refl, Hb | reflexivity]. }
    destruct (IH (S i) t1) as (t' & Hrun & Hs' & He' & Hst');
      [exact Hb | lia | exact Hm |].
    exists t'. split; [exact Hrun |].
    split; [eapply stays_trans; eassumption |].
    split; [exact He' |].
    rewrite Hst'. unfold t1. cbn. rewrite upd_same. cbn.
    rewrite (nth_error_skipn_cons vars i a Hva),
      (nth_error_skipn_cons vals i b Hvb).
    cbn. rewrite <- app_assoc. reflexivity.
Qed.

(** X27. A tuple assignment between tuples of the same length whose elements
    have matching types is lowered to one assignment per element, in
    the order of the elements, appended to the current block; the
    statement itself is not appended, and the lowering stays in the
    block. *)
Theorem tuple_assign_pairwise `{TE : TransExp} (stmt : ast_stmt_t)
        (l r : exp_ptr) (t : trans_t) (p : bb_ptr) :
  let t1 := lower exp_trans_to_rval r (lower exp_trans_to_lval l t) in
  let vars := u_tup_exps (exps t1 l) in
  let vals := u_tup_exps (exps t1 r) in
  bb t = Some p ->
  is_tuple_exp (exps t1 l) = true -> is_tuple_exp (exps t1 r) = true ->
  List.length vars = List.length vals ->
  (forall j a b, nth_error vars j = Some a -> nth_error vals j = Some b ->
                 meta_cmp (exp_meta (exps t1 a)) (exp_meta (exps t1 b)) = 0) ->
  exists t',
    stmt_trans_assign stmt l r t = Ok t' /\
    stays_in_block p t t' /\
    bb_stmts (blocks t' p)
    = bb_stmts (blocks t p)
      ++ map (fun ab => stmt_new_assign (fst ab) (snd ab) (stmt_pos stmt))
             (combine vars vals).
Proof.
  intros t1 vars vals Hb Hl Hr Hlen Hm.
  assert (Hb1 : bb t1 = Some p) by (unfold t1; rewrite !lower_bb; exact Hb).
  assert (Hst1 : stays_in_block p t t1).
  { unfold t1. apply stays_lower, stays_lower, stays_refl. exact Hb. }
  assert (Hs1 : bb_stmts (blocks t1 p) = bb_stmts (blocks t p)).
  { unfold t1.
    destruct (lower_blocks exp_trans_to_rval r
                           (lower exp_trans_to_lval l t) p) as (-> & _ & _).
    destruct (lower_blocks exp_trans_to_lval l t p) as (-> & _ & _).
    reflexivity. }
  destruct (pairwise_range (stmt_pos stmt) vars vals p Hlen
                           (List.length vals) O t1 Hb1 eq_refl Hm)
    as (t' & Hrun & Hst & _ & Hstmts).
  exists t'. split; [| split].
  - unfold stmt_trans_assign. fold t1. cbv zeta. rewrite Hl, Hr.
    cbn [ASSERT bind]. fold vars vals. rewrite Hlen, Nat.eqb_refl.
    exact Hrun.
  - eapply stays_trans; eassumption.
  - rewrite Hstmts, Hs1. reflexivity.
Qed.

(** [(a, b, c) = (x, y, z);] *)
Lemma tuple_assign_pairwise_witness :
  exists t',
    stmt_trans_assign tuple_assign_same 10%nat 14%nat open_ctx = Ok t' /\
    stays_in_block O open_ctx t' /\
    bb_stmts (blocks t' O)
    = bb_stmts (blocks open_ctx O)
      ++ map (fun ab => stmt_new_assign (fst ab) (snd ab)
                                        (stmt_pos tuple_assign_same))
             (combine [0; 1; 2]%nat [3; 4; 5]%nat).
Proof.
  refine (tuple_assign_pairwise tuple_assign_same 10%nat 14%nat open_ctx O
                                eq_refl eq_refl eq_refl eq_refl _).
  intros j a b Ha Hb.
  destruct j as [| [| [| j]]]; cbn in Ha, Hb;
    try (injection Ha as <-; injection Hb as <-; reflexivity).
  destruct j; discriminate Ha.
Defined.

(** The loop over the elements of a tuple-typed value, from the element
    [j] on, with the index [v] into the left side. *)
Lemma flatten_elems_range `{TE : TransExp} (pos : errpos_t)
      (vars : list exp_ptr) (val : exp_ptr) (p : bb_ptr) :
  forall k j v t v' t',
    bb t = Some p ->
    for_range j k (assign_flatten_elem pos vars val) (v, t) = Ok (v', t') ->
    v' = (v + k)%nat /\ bb t' = Some p /\ exps t' = exps t /\
    (k <= List.length (skipn v vars))%nat /\
    (k <= List.length (skipn j (u_tup_exps (exps t val))))%nat /\
    bb_stmts (blocks t' p)
    = bb_stmts (blocks t p)
      ++ map (fun ab => stmt_new_assign (fst ab) (snd ab) pos)
             (combine (firstn k (skipn v vars))
                      (firstn k (skipn j (u_tup_exps (exps t val))))).
Proof.
  induction k as [| k IH]; intros j v t v' t' Hb H.
  - cbn in H. injection H as <- <-. cbn. rewrite app_nil_r.
    repeat split; auto; lia.
  - cbn [for_range] in H. apply bind_ok in H.
    destruct H as ([v1 t1] & F1 & H).
    unfold assign_flatten_elem, array_get_exp in F1.
    destruct (nth_error vars v) as [a |] eqn:Ha; [| discriminate F1].
    cbn [bind] in F1.
    destruct (nth_error (u_tup_exps (exps t val)) j) as [e |] eqn:He;
      [| discriminate F1].
    cbn [bind] in F1. unfold ASSERT in F1.
    destruct (_ =? 0); [| discriminate F1].
    cbn [bind] in F1. rewrite Hb in F1. cbn in F1.
    injection F1 as <- <-.
    set (t1 := set_blocks _ t) in *.
    destruct (IH (S j) (S v) t1 v' t' Hb H)
      as (-> & Hb' & He' & Hl1 & Hl2 & Hs').
    rewrite (nth_error_skipn_cons vars v a Ha),
      (nth_error_skipn_cons _ j e He).
    change (exps t1) with (exps t) in *.
    cbn [List.length firstn combine map fst snd].
    split; [lia |]. split; [exact Hb' |]. split; [exact He' |].
    split; [lia |]. split; [lia |].
    rewrite Hs'. unfold t1. cbn. rewrite upd_same. cbn.
    rewrite <- app_assoc. reflexivity.
Qed.

(** X30. In a tuple assignment whose left side is the longer one, a value
    of a tuple type with [n] elements moves the index into the left
    side on by [n]: its elements are assigned, in order, to the [n] left
    elements from the index on, one assignment each. *)
Theorem assign_flatten_tuple_advances_by_count `{TE : TransExp}
        (pos : errpos_t) (vars vals : list exp_ptr) (i v v' : nat)
        (val : exp_ptr) (t t' : trans_t) (p : bb_ptr) :
  nth_error vals i = Some val ->
  is_tuple_type (exp_meta (exps t val)) = true ->
  bb t = Some p ->
  assign_flatten pos vars vals i (v, t) = Ok (v', t') ->
  let n := elem_cnt (exp_meta (exps t val)) in
  v' = (v + n)%nat /\ (0 < n -> v + n <= List.length vars)%nat /\
  (n <= List.length (u_tup_exps (exps t val)))%nat /\
  bb_stmts (blocks t' p)
  = bb_stmts (blocks t p)
    ++ map (fun ab => stmt_new_assign (fst ab) (snd ab) pos)
           (combine (firstn n (skipn v vars))
                    (firstn n (u_tup_exps (exps t val)))).
Proof.
  intros Hval Htup Hb H n. unfold assign_flatten, array_get_exp in H.
  rewrite Hval in H. cbn [bind] in H. rewrite Htup in H.
  destruct (flatten_elems_range pos vars val p _ _ _ _ _ _ Hb H)
    as (Hv & _ & _ & Hl1 & Hl2 & Hs).
  fold n in Hv, Hl1, Hl2, Hs. cbn [skipn] in Hl2, Hs.
  split; [exact Hv |]. split; [| split; [exact Hl2 | exact Hs]].
  rewrite length_skipn in Hl1. intros Hn. lia.
Qed.

(** The second value of [(a, b, c) = (x, (y, z));], with the index at
    the second element of the left side. *)
Lemma assign_flatten_tuple_advances_by_count_witness :
  let t' := snd (match assign_flatten (1, 1)%nat [0; 1; 2]%nat [3; 11]%nat
                                      1 (1%nat, open_ctx) with
                 | Ok st => st
                 | Fatal _ => (O, open_ctx)
                 end) in
  assign_flatten (1, 1)%nat [0; 1; 2]%nat [3; 11]%nat 1 (1%nat, open_ctx)
  = Ok (3%nat, t') /\
  3%nat = (1 + elem_cnt (exp_meta (exps open_ctx 11%nat)))%nat /\
  (0 < elem_cnt (exp_meta (exps open_ctx 11%nat)) ->
   1 + elem_cnt (exp_meta (exps open_ctx 11%nat))
   <= List.length [0; 1; 2]%nat)%nat /\
  (elem_cnt (exp_meta (exps open_ctx 11%nat))
   <= List.length (u_tup_exps (exps open_ctx 11%nat)))%nat /\
  bb_stmts (blocks t' O)
  = bb_stmts (blocks open_ctx O)
    ++ map (fun ab => stmt_new_assign (fst ab) (snd ab) (1, 1)%nat)
           (combine (firstn (elem_cnt (exp_meta (exps open_ctx 11%nat)))
                            (skipn 1 [0; 1; 2]%nat))
                    (firstn (elem_cnt (exp_meta (exps open_ctx 11%nat)))
                            (u_tup_exps (exps open_ctx 11%nat)))).
Proof.
  intros t'.
  assert (H : assign_flatten (1, 1)%nat [0; 1; 2]%nat [3; 11]%nat 1
                             (1%nat, open_ctx) = Ok (3%nat, t'))
    by (vm_compute; reflexivity).
  split; [exact H |].
  exact (assign_flatten_tuple_advances_by_count
           (1, 1)%nat [0; 1; 2]%nat [3; 11]%nat 1 1 3 11%nat open_ctx t' O
           eq_refl eq_refl eq_refl H).
Defined.

(** [break if c;] in a loop. *)
Lemma stmt_trans_break_effect_witness :
  bb loop_ctx = Some 2%nat /\ (2 < next_bb_id loop_ctx)%nat /\
  break_bb loop_ctx = Some 1%nat /\
  exists t',
    stmt_trans_break (Some 0%nat) loop_ctx = Ok t' /\
    bb t' = Some (next_bb_id loop_ctx) /\
    next_bb_id t' = S (next_bb_id loop_ctx) /\
    blocks t' (next_bb_id loop_ctx) = empty_bb /\
    bb_brs (blocks t' 2%nat)
    = bb_brs (blocks loop_ctx 2%nat)
      ++ [mk_br (Some 0%nat) 1%nat; mk_br None (next_bb_id loop_ctx)] /\
    bb_stmts (blocks t' 2%nat) = bb_stmts (blocks loop_ctx 2%nat) /\
    In 2%nat (fn_bbs (fn t')) /\ break_bb t' = Some 1%nat.
Proof.
  assert (H2 : (2 < next_bb_id loop_ctx)%nat) by (cbn; lia).
  split; [reflexivity |]. split; [exact H2 |]. split; [reflexivity |].
  exact (HandlerFacts.stmt_trans_break_effect (Some 0%nat) loop_ctx
                                              2%nat 1%nat eq_refl H2 eq_refl).
Defined.

End BlockFacts.

(* ------------------------------------------------------------------ *)
(** ** The shape of a lowered loop and of a lowered if *)
(* ------------------------------------------------------------------ *)

Module ShapeFacts.
Import Examples.
Import StmtFacts.
Import LoweredFacts.
Import FrameFacts.
Import FrameThm.
Import Preserve.
Import BlockFacts.

Lemma labels_of_every (l : list ast_stmt_t) (L : list bb_ptr) :
  incl (labels_of l) L -> Forall (every (labelled_in L)) l.
Proof.
  intros HL. apply every_list. apply Forall_forall. intros x Hx y Hy.
  apply HL. unfold labels_of. apply in_flat_map. exists x. split; assumption.
Qed.

(** X28. A for loop is lowered to a header block and a block after the loop,
    both fresh.  The block that was current gets an unguarded branch to
    the header, after the statements of a plain init statement, and is
    added to the function; the body is lowered from the header on; a
    block ends with the unguarded branch back to the header; and the
    block after the loop, still empty, is current afterwards. *)
Theorem for_loop_shape `{TE : TransExp} (init : option ast_stmt_t)
        (blk : list ast_stmt_t) (t t' : trans_t) (prev : bb_ptr) :
  bb t = Some prev -> (prev < next_bb_id t)%nat ->
  (forall x, In x (labels_of blk) -> (x < next_bb_id t)%nat /\ x <> prev) ->
  match init with Some s => is_plain s = true | None => True end ->
  stmt_trans_for_loop init blk t = Ok t' ->
  let cond_bb := next_bb_id t in
  let next_bb := S cond_bb in
  bb_brs (blocks t' prev) = bb_brs (blocks t prev) ++ [mk_br None cond_bb] /\
  In prev (fn_bbs (fn t')) /\
  (exists b l, bb_brs (blocks t' b) = l ++ [mk_br None cond_bb] /\
               (b = cond_bb \/ In b (labels_of blk) \/ (next_bb < b)%nat)) /\
  bb t' = Some next_bb /\ blocks t' next_bb = empty_bb /\
  (next_bb < next_bb_id t')%nat.
Proof.
  intros Hb Hprev Hlab Hinit H cond_bb next_bb.
  unfold stmt_trans_for_loop, stmt_trans_for_loop_ in H.
  rewrite bb_new_eq in H. cbv beta iota zeta in H.
  rewrite (bb_new_eq (snd (bb_new t))) in H. cbv beta iota zeta in H.
  change (next_bb_id (snd (bb_new t))) with next_bb in H.
  fold cond_bb in H.
  set (t00 := snd (bb_new (snd (bb_new t)))) in *.
  assert (Hb00 : bb t00 = Some prev) by exact Hb.
  assert (Hbl00 : blocks t00
                  = upd (upd (blocks t) cond_bb empty_bb) next_bb empty_bb)
    by reflexivity.
  assert (Hn00 : next_bb_id t00 = S next_bb) by reflexivity.
  assert (Hpc : prev <> cond_bb) by (unfold cond_bb; lia).
  assert (Hpn : prev <> next_bb) by (unfold next_bb, cond_bb; lia).
  apply bind_ok in H. destruct H as (t0 & F0 & H).
  assert (Hst0 : stays_in_block prev t00 t0).
  { destruct init as [s |].
    - rewrite (plain_handler s t00 Hinit) in F0.
      unfold stmt_enter in F0.
      rewrite (is_plain_unlabelled s Hinit), Hb00 in F0. cbn [bind] in F0.
      eapply plain_after_enter; eassumption.
    - injection F0 as <-. apply stays_refl. exact Hb00. }
  clear F0.
  destruct Hst0 as (Hb0 & Hbrs0 & Hoth0 & Hn0 & _).
  rewrite Hb in H.
  apply bind_ok in H. destruct H as (t1 & F1 & H).
  cbn in F1. injection F1 as <-.
  apply bind_ok in H. destruct H as (t2 & F2 & H).
  match type of F2 with
  | fn_add_basic_blk (Some prev) ?u = _ =>
      destruct (fn_add_basic_blk_spec prev u)
        as (t2' & E2 & Hin2 & _ & _ & _ & _ & Hb2 & _ & _ & Hbl2 & Hn2 & _)
  end.
  rewrite E2 in F2. injection F2 as <-.
  cbn [blocks set_blocks next_bb_id] in Hbl2, Hn2.
  apply bind_ok in H. destruct H as (t4 & F4 & H).
  set (t3 := set_break_bb _ _) in F4.
  assert (Hb3 : bb t3 = Some cond_bb) by reflexivity.
  assert (Hn3 : next_bb_id t3 = S next_bb)
    by (unfold t3; cbn; rewrite Hn2, Hn0; exact Hn00).
  assert (Hbl3 : blocks t3 = blocks t2') by reflexivity.
  assert (Hin3 : In prev (fn_bbs (fn t3))) by exact Hin2.
  assert (Hprev3 : bb_brs (blocks t3 prev)
                   = bb_brs (blocks t prev) ++ [mk_br None cond_bb]).
  { rewrite Hbl3, Hbl2, upd_same. cbn. rewrite Hbrs0, Hbl00.
    rewrite !upd_other by assumption. reflexivity. }
  assert (Hnext3 : blocks t3 next_bb = empty_bb).
  { rewrite Hbl3, Hbl2. rewrite upd_other by (intros Heq; apply Hpn; auto).
    rewrite Hoth0 by (intros Heq; apply Hpn; auto).
    rewrite Hbl00. apply upd_same. }
  (* the body *)
  pose proof (frame_inv_trivial (labels_of blk) (blocks t3) t3) as HF.
  assert (HF3 : frame_inv (labels_of blk) (S next_bb) (Some cond_bb)
                          (blocks t3) (cont_bb t3) (break_bb t3) t3).
  { constructor; auto. rewrite Hn3. lia. }
  clear HF.
  eapply (fi_stmts (labels_of blk) (S next_bb) (Some cond_bb) (blocks t3) blk)
    in HF3;
    [| apply Forall_forall; intros y _; apply stmt_trans_frame
     | apply labels_of_every, incl_refl | exact F4].
  pose proof (stmts_trans_keeps_fn_block blk t3 t4 prev F4 Hin3) as Hin4.
  assert (Hsame : forall x, (x < S next_bb)%nat -> x <> cond_bb ->
                            ~ In x (labels_of blk) -> blocks t4 x = blocks t3 x).
  { intros x Hx Hc Hl. apply (fi_blocks _ _ _ _ _ _ _ HF3);
      [exact Hx | congruence | exact Hl]. }
  assert (HnotL : forall x, In x (labels_of blk) ->
                            x <> prev /\ x <> next_bb).
  { intros x Hx. destruct (Hlab x Hx) as [Hlt Hne].
    split; [exact Hne |]. unfold next_bb, cond_bb. lia. }
  assert (Hprev4 : blocks t4 prev = blocks t3 prev).
  { apply Hsame; [unfold next_bb, cond_bb; lia | exact Hpc |].
    intros Hx. apply HnotL in Hx. tauto. }
  assert (Hnext4 : blocks t4 next_bb = blocks t3 next_bb).
  { apply Hsame; [lia | unfold next_bb; lia |].
    intros Hx. apply HnotL in Hx. tauto. }
  pose proof (fi_next _ _ _ _ _ _ _ HF3) as Hn4.
  (* the edge back to the header *)
  apply bind_ok in H. destruct H as (t5 & F5 & H). injection H as <-.
  cbn [bb set_break_bb set_cont_bb] in F5.
  destruct (bb t4) as [b |] eqn:Hb4.
  - assert (Hb4' : b = cond_bb \/ In b (labels_of blk)
                   \/ (S next_bb <= b)%nat).
    { destruct (fi_cur _ _ _ _ _ _ _ HF3 b Hb4) as [Hc | Hc];
        [left; congruence | right; exact Hc]. }
    assert (Hbp : b <> prev /\ b <> next_bb).
    { destruct Hb4' as [-> | [Hl | Hge]].
      - split; [auto | unfold next_bb; lia].
      - apply HnotL. exact Hl.
      - split; unfold next_bb, cond_bb in *; lia. }
    apply bind_ok in F5. destruct F5 as (t6 & F6 & F5).
    cbn in F6. injection F6 as <-.
    match type of F5 with
    | fn_add_basic_blk ?x _ = _ => change x with (bb t4) in F5
    end.
    rewrite Hb4 in F5.
    match type of F5 with
    | fn_add_basic_blk (Some b) ?u = _ =>
        destruct (fn_add_basic_blk_spec b u)
          as (t7 & E7 & _ & Hincl7 & _ & _ & _ & _ & _ & _ & Hbl7 & Hn7 & _)
    end.
    rewrite E7 in F5. injection F5 as <-.
    cbn [blocks set_blocks next_bb_id set_bb fn bb] in *.
    rewrite Hbl7, Hn7. cbn [next_bb_id set_blocks blocks].
    rewrite !upd_other by (intros Heq; destruct Hbp; congruence).
    rewrite Hprev4, Hnext4, Hprev3, Hnext3.
    split; [reflexivity |]. split; [apply Hincl7; exact Hin4 |].
    split; [| split; [reflexivity | split; [reflexivity | exact Hn4]]].
    exists b. eexists. rewrite upd_same. cbn. split; [reflexivity |].
    destruct Hb4' as [Hc | [Hc | Hc]]; [auto | auto |].
    right. right. exact Hc.
  - cbn in F5. injection F5 as <-.
    cbn [blocks set_blocks next_bb_id set_bb fn bb].
    rewrite !upd_other by (unfold next_bb; auto; lia).
    rewrite Hprev4, Hnext4, Hprev3, Hnext3.
    split; [reflexivity |]. split; [exact Hin4 |].
    split; [| split; [reflexivity | split; [reflexivity | exact Hn4]]].
    exists cond_bb. eexists. rewrite upd_same. cbn. split; [reflexivity |].
    left. reflexivity.
Qed.

(** [for (;;) { break if c; }] inside a loop. *)
Lemma for_loop_shape_witness :
  bb loop_ctx = Some 2%nat /\ (2 < next_bb_id loop_ctx)%nat /\
  stmt_trans_for_loop None [STMT_BREAK (hd_at 2) (Some 0%nat)] loop_ctx
  = Ok after_inner_loop /\
  bb_brs (blocks after_inner_loop 2%nat)
  = bb_brs (blocks loop_ctx 2%nat) ++ [mk_br None (next_bb_id loop_ctx)] /\
  In 2%nat (fn_bbs (fn after_inner_loop)) /\
  (exists b l,
      bb_brs (blocks after_inner_loop b)
      = l ++ [mk_br None (next_bb_id loop_ctx)] /\
      (b = next_bb_id loop_ctx \/
       In b (labels_of [STMT_BREAK (hd_at 2) (Some 0%nat)]) \/
       (S (next_bb_id loop_ctx) < b)%nat)) /\
  bb after_inner_loop = Some (S (next_bb_id loop_ctx)) /\
  blocks after_inner_loop (S (next_bb_id loop_ctx)) = empty_bb /\
  (S (next_bb_id loop_ctx) < next_bb_id after_inner_loop)%nat.
Proof.
  assert (H1 : bb loop_ctx = Some 2%nat) by reflexivity.
  assert (H2 : (2 < next_bb_id loop_ctx)%nat) by (cbn; lia).
  assert (H3 : forall x,
             In x (labels_of [STMT_BREAK (hd_at 2) (Some 0%nat)]) ->
             (x < next_bb_id loop_ctx)%nat /\ x <> 2%nat)
    by (intros x []).
  assert (H5 : stmt_trans_for_loop
                 None [STMT_BREAK (hd_at 2) (Some 0%nat)] loop_ctx
               = Ok after_inner_loop) by (vm_compute; reflexivity).
  split; [exact H1 |]. split; [exact H2 |]. split; [exact H5 |].
  exact (for_loop_shape None [STMT_BREAK (hd_at 2) (Some 0%nat)] loop_ctx
                        after_inner_loop 2%nat H1 H2 H3 I H5).
Defined.

Section if_arms.
Context `{TE : TransExp}.

(** One arm of an if statement: the predecessor gets the branch to the
    fresh block of the arm, and nothing else. *)
Lemma if_arm_branch (prev next : bb_ptr) (cond : option exp_ptr)
      (blk : option (list ast_stmt_t)) (t t' : trans_t) :
  (prev < next_bb_id t)%nat ->
  ~ In prev (labs (lowered_list (olist blk))) ->
  if_arm_ stmt_trans (Some prev) next cond blk t = Ok t' ->
  bb_brs (blocks t' prev)
  = bb_brs (blocks t prev) ++ [mk_br cond (next_bb_id t)] /\
  (next_bb_id t < next_bb_id t')%nat /\
  (forall x, In x (fn_bbs (fn t)) -> In x (fn_bbs (fn t'))).
Proof.
  intros Hprev Hlab H. unfold if_arm_ in H.
  rewrite bb_new_eq in H. cbv beta iota zeta in H.
  set (n := next_bb_id t) in *.
  apply bind_ok in H. destruct H as (t1 & F1 & H).
  cbn in F1. injection F1 as <-.
  set (t1 := set_blocks _ _) in H.
  set (t2 := match cond with
             | Some c => lower exp_trans c t1
             | None => t1
             end) in H.
  assert (Hpn : prev <> n) by (unfold n; lia).
  assert (Hb2 : bb t2 = Some n)
    by (unfold t2; destruct cond; [rewrite lower_bb |]; reflexivity).
  assert (Hn2 : next_bb_id t2 = S n)
    by (unfold t2; destruct cond; [rewrite lower_next_bb_id |]; reflexivity).
  assert (Hfn2 : fn_bbs (fn t2) = fn_bbs (fn t)).
  { unfold t2. destruct cond as [c |]; [| reflexivity].
    destruct (lower_fn_bbs exp_trans c t1) as (-> & _). reflexivity. }
  assert (Hbrs2 : bb_brs (blocks t2 prev)
                  = bb_brs (blocks t prev) ++ [mk_br cond n]).
  { unfold t2.
    destruct cond as [c |];
      [destruct (lower_blocks exp_trans c t1 prev) as (_ & -> & _) |];
      unfold t1; cbn; rewrite upd_same; cbn;
      rewrite upd_other by exact Hpn; reflexivity. }
  clearbody t2. clear t1.
  apply bind_ok in H. destruct H as (t3 & F3 & H).
  set (L := labs (lowered_list (olist blk))) in *.
  assert (HF : frame_inv L (S n) (Some n) (blocks t2)
                         (cont_bb t2) (break_bb t2) t2).
  { constructor; auto; [rewrite Hn2; lia |].
    intros b Hb. left. congruence. }
  assert (HE : PB (every (labelled_in L)) blk).
  { destruct blk as [l |]; [| exact I]. cbn [olist] in L.
    apply labels_of_every. apply incl_refl. }
  eapply (fi_blk_opt L (S n) (Some n) (blocks t2) blk) in HF;
    [| destruct blk; [apply Forall_forall; intros y _; apply stmt_trans_frame
                     | exact I]
     | exact HE | exact F3].
  assert (Hfn3 : forall x, In x (fn_bbs (fn t2)) -> In x (fn_bbs (fn t3))).
  { intros x Hx. destruct blk as [l |].
    - eapply stmts_trans_keeps_fn_block; [exact F3 | exact Hx].
    - injection F3 as <-. exact Hx. }
  assert (Hprev3 : blocks t3 prev = blocks t2 prev).
  { apply (fi_blocks _ _ _ _ _ _ _ HF); [lia | congruence | exact Hlab]. }
  pose proof (fi_next _ _ _ _ _ _ _ HF) as Hn3.
  apply bind_ok in H. destruct H as (t4 & F4 & H).
  apply bb_add_branch_inv in F4. destruct F4 as (b & x & Hb3 & _ & ->).
  assert (Hbp : b <> prev).
  { destruct (fi_cur _ _ _ _ _ _ _ HF b Hb3) as [Hc | [Hc | Hc]].
    - injection Hc as ->. auto.
    - intros ->. exact (Hlab Hc).
    - lia. }
  apply fn_add_basic_blk_inv in H.
  destruct H as ([k Hk] & _ & _ & Hbl & Hnx & _).
  rewrite Hbl, Hnx. cbn. rewrite upd_other by auto.
  rewrite Hprev3, Hbrs2. split; [reflexivity |]. split; [lia |].
  intros y Hy. rewrite Hk. cbn. apply in_or_app. left.
  apply Hfn3. rewrite Hfn2. exact Hy.
Qed.

Lemma labs_elifs_cons (e : ast_stmt_t) (r : list ast_stmt_t) :
  incl (labs (lowered_elifs r)) (labs (lowered_elifs (e :: r))).
Proof.
  unfold lowered_elifs. cbn [flat_map]. unfold labs.
  rewrite flat_map_app. apply incl_appr, incl_refl.
Qed.

Lemma elif_arms_branches (prev next : bb_ptr) (el : list ast_stmt_t) :
  forall t t',
    (prev < next_bb_id t)%nat ->
    ~ In prev (labs (lowered_elifs el)) ->
    elif_arms_ stmt_trans (Some prev) next el t = Ok t' ->
    exists targets,
      List.length targets = List.length el /\
      bb_brs (blocks t' prev)
      = bb_brs (blocks t prev) ++ arm_branches (map elif_cond el) targets /\
      StronglySorted lt targets /\
      Forall (fun tg => next_bb_id t <= tg < next_bb_id t')%nat targets /\
      (next_bb_id t <= next_bb_id t')%nat /\
      (forall x, In x (fn_bbs (fn t)) -> In x (fn_bbs (fn t'))).
Proof.
  induction el as [| e r IH]; intros t t' Hprev Hlab H.
  - cbn in H. injection H as <-. exists []. cbn. rewrite app_nil_r.
    repeat split; auto; constructor.
  - rewrite elif_arms_cons in H.
    destruct e as [ | | | hd c ib el' eb | | | | | | | | | ];
      try discriminate H.
    apply bind_ok in H. destruct H as (t1 & F1 & H).
    apply if_arm_branch in F1; [| exact Hprev |].
    + destruct F1 as (Hbrs1 & Hn1 & Hfn1).
      destruct (IH t1 t') as (tgs & Hlen & Hbrs & Hs & Hge & Hn & Hfn);
        [lia | | exact H |].
      { intros Hin. apply Hlab. eapply labs_elifs_cons. exact Hin. }
      exists (next_bb_id t :: tgs).
      cbn [List.length map elif_cond arm_branches combine fst snd].
      fold (arm_branches (map elif_cond r) tgs).
      rewrite Hbrs, Hbrs1, <- app_assoc. cbn [app].
      split; [lia |]. split; [reflexivity |]. split; [| split; [| split]].
      * constructor; [exact Hs |].
        eapply Forall_impl; [| exact Hge]. cbn. intros; lia.
      * constructor; [lia |].
        eapply Forall_impl; [| exact Hge]. cbn. intros; lia.
      * lia.
      * intros x Hx. apply Hfn, Hfn1, Hx.
    + intros Hin. apply Hlab. unfold lowered_elifs. cbn [flat_map].
      unfold labs in *. rewrite flat_map_app. apply in_or_app. left.
      exact Hin.
Qed.

(** X29. An if statement is lowered to one block per arm and a join block,
    all fresh.  The block that was current is added to the function and
    gets one branch per arm, in the order of the arms: guarded by the
    condition of the if, then by the conditions of the [else if]s, each
    to the block of its arm; a last, unguarded branch goes to the block
    of the else arm or, without an else arm, to the join block.  The
    join block is current afterwards. *)
Theorem if_shape (cond : exp_ptr) (ib : option (list ast_stmt_t))
        (el : list ast_stmt_t) (eb : option (list ast_stmt_t))
        (t t' : trans_t) (prev : bb_ptr) :
  bb t = Some prev -> (prev < next_bb_id t)%nat ->
  ~ In prev (labels_under_if ib el eb) ->
  stmt_trans_if cond ib el eb t = Ok t' ->
  let next_bb := next_bb_id t in
  exists targets last,
    List.length targets = S (List.length el) /\
    bb_brs (blocks t' prev)
    = bb_brs (blocks t prev)
      ++ arm_branches (Some cond :: map elif_cond el) targets
      ++ [mk_br None last] /\
    StronglySorted lt targets /\
    Forall (fun tg => next_bb < tg)%nat targets /\
    match eb with
    | Some _ => Forall (fun tg => tg < last)%nat targets
    | None => last = next_bb
    end /\
    bb t' = Some next_bb /\ In prev (fn_bbs (fn t')).
Proof.
  intros Hb Hprev Hlab H next_bb.
  unfold stmt_trans_if, stmt_trans_if_ in H.
  rewrite bb_new_eq in H. cbv beta iota zeta in H. rewrite Hb in H.
  fold next_bb in H.
  unfold labels_under_if, labs in Hlab.
  rewrite !flat_map_app, !in_app_iff in Hlab.
  fold (labs (lowered_list (olist ib))) in Hlab.
  fold (labs (lowered_elifs el)) in Hlab.
  fold (labs (lowered_list (olist eb))) in Hlab.
  apply bind_ok in H. destruct H as (t1 & F1 & H).
  destruct (fn_add_basic_blk_spec prev (snd (bb_new t)))
    as (t1' & E1 & Hin1 & _ & _ & _ & _ & _ & _ & _ & Hbl1 & Hn1 & _).
  rewrite E1 in F1. injection F1 as <-. cbn in Hn1.
  assert (Hprev1 : blocks t1' prev = blocks t prev).
  { rewrite Hbl1. cbn. apply upd_other. lia. }
  apply bind_ok in H. destruct H as (t2 & F2 & H).
  apply if_arm_branch in F2; [| lia | tauto].
  destruct F2 as (Hbrs2 & Hn2 & Hfn2). rewrite Hn1 in Hbrs2, Hn2.
  apply bind_ok in H. destruct H as (t3 & F3 & H).
  apply elif_arms_branches in F3; [| lia | tauto].
  destruct F3 as (tgs & Hlen & Hbrs3 & Hs & Hge & Hn3 & Hfn3).
  apply bind_ok in H. destruct H as (t4 & F4 & H). injection H as <-.
  cbn [bb blocks fn set_bb].
  assert (Hsorted : StronglySorted lt (S next_bb :: tgs)).
  { constructor; [exact Hs |].
    eapply Forall_impl; [| exact Hge]. cbn. fold next_bb in Hn2.
    intros; lia. }
  assert (Hfresh : Forall (fun tg => next_bb < tg)%nat (S next_bb :: tgs)).
  { constructor; [lia |].
    eapply Forall_impl; [| exact Hge]. cbn. fold next_bb in Hn2.
    intros; lia. }
  destruct eb as [l |].
  - apply if_arm_branch in F4; [| fold next_bb in Hn2; lia | tauto].
    destruct F4 as (Hbrs4 & Hn4 & Hfn4).
    exists (S next_bb :: tgs), (next_bb_id t3).
    cbn [List.length arm_branches combine map fst snd].
    fold (arm_branches (map elif_cond el) tgs).
    rewrite Hbrs4, Hbrs3, Hbrs2, Hprev1, <- !app_assoc. cbn [app].
    split; [lia |]. split; [reflexivity |]. split; [exact Hsorted |].
    split; [exact Hfresh |]. split; [| split; [reflexivity |]].
    + constructor; [fold next_bb in Hn2; lia |].
      eapply Forall_impl; [| exact Hge]. cbn. intros; lia.
    + apply Hfn4, Hfn3, Hfn2. exact Hin1.
  - cbn in F4. injection F4 as <-.
    exists (S next_bb :: tgs), next_bb.
    cbn [List.length arm_branches combine map fst snd blocks set_blocks fn].
    fold (arm_branches (map elif_cond el) tgs).
    rewrite upd_same. cbn [bb_brs].
    rewrite Hbrs3, Hbrs2, Hprev1, <- !app_assoc. cbn [app].
    split; [lia |]. split; [reflexivity |]. split; [exact Hsorted |].
    split; [exact Hfresh |]. split; [reflexivity |].
    split; [reflexivity |]. apply Hfn3, Hfn2. exact Hin1.
Qed.

End if_arms.

(** [if (c) { a = b; } else if (d) { } else { e = f; }] *)
Lemma if_shape_witness :
  bb open_ctx = Some O /\ (0 < next_bb_id open_ctx)%nat /\
  ~ In O (labels_under_if if_then if_elifs if_else) /\
  stmt_trans_if 6%nat if_then if_elifs if_else open_ctx = Ok after_if /\
  exists targets last,
    List.length targets = S (List.length if_elifs) /\
    bb_brs (blocks after_if O)
    = bb_brs (blocks open_ctx O)
      ++ arm_branches (Some 6%nat :: map elif_cond if_elifs) targets
      ++ [mk_br None last] /\
    StronglySorted lt targets /\
    Forall (fun tg => next_bb_id open_ctx < tg)%nat targets /\
    match if_else with
    | Some _ => Forall (fun tg => tg < last)%nat targets
    | None => last = next_bb_id open_ctx
    end /\
    bb after_if = Some (next_bb_id open_ctx) /\
    In O (fn_bbs (fn after_if)).
Proof.
  assert (H1 : bb open_ctx = Some O) by reflexivity.
  assert (H2 : (0 < next_bb_id open_ctx)%nat) by (cbn; lia).
  assert (H3 : ~ In O (labels_under_if if_then if_elifs if_else))
    by (cbn; tauto).
  assert (H4 : stmt_trans_if 6%nat if_then if_elifs if_else open_ctx
               = Ok after_if) by (vm_compute; reflexivity).
  split; [exact H1 |]. split; [exact H2 |]. split; [exact H3 |].
  split; [exact H4 |].
  exact (if_shape 6%nat if_then if_elifs if_else open_ctx after_if O
                  H1 H2 H3 H4).
Defined.

End ShapeFacts.
